(** * heat.core.manipulations and heat.core.indexing

    A shallow embedding of [sort], [unique], [expand_dims] and [squeeze]
    from [src/heat/core/manipulations.py] and of [nonzero] from
    [src/heat/core/indexing.py].  The program is SPMD: every MPI rank
    runs the same function on its own chunk.  The embedding simulates all
    ranks at once: a per-rank value is a list indexed by rank, a collective
    call is a function on such a list, and point-to-point messages travel
    through an explicit mailbox.  Python exceptions are values of [result]. *)

From stdpp Require Import base list sorting strings pretty.
From Stdlib Require Import ZArith Lia.

(** ** Exceptions *)

Inductive exn : Set :=
| ValueError | IndexError | StopIteration | RuntimeError
| MPIError   (* a count or shape mismatch inside a communication call *)
| Hang.      (* a blocking receive that no send will ever match *)

Inductive result (A : Type) : Type :=
| Ok (x : A)
| Raise (e : exn).
Arguments Ok {A} x.
Arguments Raise {A} e.

#[global] Instance result_ret : MRet result := @Ok.
#[global] Instance result_bind : MBind result := λ A B f m,
  match m with Ok x => f x | Raise e => Raise e end.
#[global] Instance result_fmap : FMap result := λ A B f m,
  match m with Ok x => Ok (f x) | Raise e => Raise e end.

Definition is_ok {A} (m : result A) : bool :=
  match m with Ok _ => true | Raise _ => false end.

(** ** Python sequences *)

Module Py.

(** [l[i]] for a Python integer [i]: a negative index counts from the
    end, an index outside [-len, len) raises IndexError. *)
Definition index (len : nat) (i : Z) : result nat :=
  if decide (0 ≤ i < Z.of_nat len)%Z then Ok (Z.to_nat i)
  else if decide (- Z.of_nat len ≤ i < 0)%Z then Ok (Z.to_nat (Z.of_nat len + i))
  else Raise IndexError.

Definition getitem {A} (l : list A) (i : Z) : result A :=
  k ← index (length l) i;
  match l !! k with Some x => Ok x | None => Raise IndexError end.

Definition setitem {A} (l : list A) (i : Z) (x : A) : result (list A) :=
  k ← index (length l) i; Ok (<[k := x]> l).

(** [l[0:stop]]: a slice clamps its bound, it never raises. *)
Definition slice_to {A} (l : list A) (stop : Z) : list A :=
  if decide (0 ≤ stop)%Z then take (Z.to_nat stop) l
  else take (length l - Z.to_nat (- stop)) l.

(** [next(x for x in l if p(x))]: the first hit, StopIteration if none. *)
Definition next {A} (p : A → bool) (l : list A) : result A :=
  match List.find p l with Some x => Ok x | None => Raise StopIteration end.

(** [int(s)] on a string of decimal digits; the empty string and any
    other character raise ValueError. *)
Definition digit (c : Ascii.ascii) : option Z :=
  let n := Ascii.nat_of_ascii c in
  if decide (48 ≤ n ≤ 57) then Some (Z.of_nat (n - 48)) else None.

Fixpoint int_digits (acc : Z) (s : string) : result Z :=
  match s with
  | EmptyString => Ok acc
  | String c s' =>
      match digit c with
      | Some d => int_digits (10 * acc + d)%Z s'
      | None => Raise ValueError
      end
  end.

Definition int (s : string) : result Z :=
  match s with
  | EmptyString => Raise ValueError
  | _ => int_digits 0 s
  end.

(** [str(n)] for a non-negative integer. *)
Definition str (n : nat) : string := pretty n.

(** [''.join(l)] *)
Definition join (l : list string) : string := foldr String.append EmptyString l.

End Py.

(** ** Tags of the point-to-point exchange (lines 203 and 214)

    [int(''.join([str(el) for el in idx]))] where [idx] is the index tuple
    along the non-split dimensions: [idx[1:]] of the full index on the
    sending side, the index into [recv_amount] on the receiving side. *)

Definition tag_of (idx : list nat) : result Z :=
  Py.int (Py.join (Py.str <$> idx)).

(** Sender, line 203: [idx] ranges over [index_matrix], the split axis is
    position 0 of it. *)
Definition send_tag (idx : list nat) : result Z := tag_of (drop 1 idx).

(** Receiver, line 214: [idx] ranges over [recv_amount]. *)
Definition recv_tag (idx : list nat) : result Z := tag_of idx.

(** ** CLASSIFY (lines 156-159) *)

(** [operator.gt if descending else operator.lt] *)
Definition op_func (descending : bool) (x y : Z) : bool :=
  if descending then bool_decide (x > y)%Z else bool_decide (x < y)%Z.

(** [next(i for i in range(len(global_pivots) + 1)
          if i == len(global_pivots) or op_func(val, global_pivots[i][idx]))]
    with [pivots] the column [idx] of [global_pivots]. *)
Definition classify (descending : bool) (pivots : list Z) (val : Z) : result nat :=
  Py.next (λ i, bool_decide (i = length pivots)
                || match pivots !! i with
                   | Some p => op_func descending val p
                   | None => false
                   end)
          (seq 0 (length pivots + 1)).

(** ** Local torch tensors

    A contiguous tensor: its shape and its elements in row-major order.
    [np.ndenumerate] walks the elements in this order. *)

Record tensor := Tensor { shape : list nat; data : list Z }.

Definition numel (sh : list nat) : nat := foldr Nat.mul 1 sh.

Fixpoint unravel (sh : list nat) (k : nat) : list nat :=
  match sh with
  | [] => []
  | _ :: sh' => k / numel sh' :: unravel sh' (k mod numel sh')
  end.

Fixpoint ravel (sh idx : list nat) : nat :=
  match sh, idx with
  | _ :: sh', i :: idx' => i * numel sh' + ravel sh' idx'
  | _, _ => 0
  end.

Definition swap_axes {A} (d0 d1 : nat) (l : list A) : list A :=
  match l !! d0, l !! d1 with
  | Some x, Some y => <[d0 := y]> (<[d1 := x]> l)
  | _, _ => l
  end.

(** [t.transpose(d0, d1)] *)
Definition transpose (t : tensor) (d0 d1 : nat) : tensor :=
  let sh' := swap_axes d0 d1 (shape t) in
  Tensor sh' ((λ k, default 0%Z (data t !! ravel (shape t) (swap_axes d0 d1 (unravel sh' k))))
              <$> seq 0 (numel sh')).

(** A tensor seen along its axis 0: [t[i]] is row [i], and [t[i][idx]] is
    entry [ravel rest idx] of that row, [rest] being [t.size()[1:]]. *)
Definition matrix := list (list Z).

Definition rows (t : tensor) : matrix :=
  let nc := numel (tail (shape t)) in
  (λ i, take nc (drop (i * nc) (data t))) <$> seq 0 (hd 0 (shape t)).

Definition of_rows (rest : list nat) (m : matrix) : tensor :=
  Tensor (length m :: rest) (concat m).

Definition mget (m : matrix) (i : Z) (j : nat) : result Z :=
  row ← Py.getitem m i; Py.getitem row (Z.of_nat j).

Definition mset (m : matrix) (i : Z) (j : nat) (v : Z) : result matrix :=
  row ← Py.getitem m i;
  row' ← Py.setitem row (Z.of_nat j) v;
  Py.setitem m i row'.

Definition column (j : nat) (m : matrix) : list Z := omap (λ row : list Z, row !! j) m.

Definition of_columns (nrows : nat) (cols : list (list Z)) : matrix :=
  (λ i, (λ col : list Z, default 0%Z (col !! i)) <$> cols) <$> seq 0 nrows.

(** [torch.sort] of one fibre. *)
Definition sort_list (descending : bool) (l : list Z) : list Z :=
  if descending then merge_sort Z.ge l else merge_sort Z.le l.

(** [torch.sort(m, dim=0, descending=descending)[0]] *)
Definition sort_dim0 (descending : bool) (ncols : nat) (m : matrix) : matrix :=
  of_columns (length m) ((λ j, sort_list descending (column j m)) <$> seq 0 ncols).

(** [torch.sort(t, dim=dim, descending=descending)[0]]: every fibre along
    [dim] is sorted on its own. *)
Definition torch_sort (t : tensor) (dim : nat) (descending : bool) : tensor :=
  let tr := transpose t dim 0 in
  let rest := tail (shape tr) in
  transpose (of_rows rest (sort_dim0 descending (numel rest) (rows tr))) 0 dim.

(** First position of the least ([pick_max = false]) or greatest element:
    [values.argmin()] and [values.argmax()]; an empty tensor raises. *)
Fixpoint arg_ext_from (pick_max : bool) (best : Z) (bi i : nat) (l : list Z) : nat :=
  match l with
  | [] => bi
  | x :: l' =>
      if (if pick_max then bool_decide (best < x)%Z else bool_decide (x < best)%Z)
      then arg_ext_from pick_max x i (S i) l'
      else arg_ext_from pick_max best bi (S i) l'
  end.

Definition arg_ext (pick_max : bool) (l : list Z) : result nat :=
  match l with
  | [] => Raise RuntimeError
  | x :: l' => Ok (arg_ext_from pick_max x 0 1 l')
  end.

(** [t.max()] *)
Definition tensor_max (l : list Z) : result Z :=
  match l with
  | [] => Raise RuntimeError
  | x :: l' => Ok (foldl Z.max x l')
  end.

(** ** The distributed array *)

Record DNDarray := {
  larray : list tensor;   (** [_DNDarray__array] of every rank *)
  gshape : list nat;
  split : option nat
}.

Definition comm_size (a : DNDarray) : nat := length (larray a).

(** [a.lshape[d]] on every rank. *)
Definition lshape_at (d : nat) (t : tensor) : nat := default 0 (shape t !! d).

(** The layout the data model asks for: every rank holds as many elements
    as its shape says; an unsplit array has the global shape on every rank,
    a split one differs from it along the split axis only. *)
Definition wf_DNDarray (a : DNDarray) : Prop :=
  Forall (λ t, length (data t) = numel (shape t)
               ∧ match split a with
                 | None => shape t = gshape a
                 | Some s => ∃ n, shape t = <[s := n]> (gshape a)
                 end) (larray a).

(** ** Collaborators that are not part of the two source files *)

(** Modelled from the spec: [comm.counts_displs_shape(gshape, axis)[0]],
    the per-rank counts of the Partition Chunking collaborator, "balanced
    to within one element, remainder assigned to lowest ranks first". *)
Definition counts_displs_shape (size n : nat) : list nat :=
  (λ r, n / size + (if decide (r < n mod size) then 1 else 0)) <$> seq 0 size.

(** Modelled from the spec: [stride_tricks.sanitize_axis], which rejects an
    axis outside the shape with a ValueError.  A negative axis counts from
    the last one, as in the docstring of [squeeze] (line 372, [axis=-2]),
    and comes back as the non-negative axis it stands for. *)
Definition sanitize_axis (sh : list nat) (axis : Z) : result nat :=
  if decide (0 ≤ axis < Z.of_nat (length sh))%Z then Ok (Z.to_nat axis)
  else if decide (- Z.of_nat (length sh) ≤ axis < 0)%Z
       then Ok (Z.to_nat (Z.of_nat (length sh) + axis))
       else Raise ValueError.

(** The dimension [torch.sort] makes of [dim]: torch, too, counts a
    negative one from the last. *)
Definition torch_dim (t : tensor) (dim : Z) : nat :=
  if decide (dim < 0)%Z then Z.to_nat (Z.of_nat (length (shape t)) + dim)
  else Z.to_nat dim.

(** The dimension torch makes of [dim] on a tensor of [n] dimensions: a
    negative one counts from the last, and one outside raises IndexError
    ("Dimension out of range"); a 0-d tensor takes -1 and 0. *)
Definition torch_wrap_dim (n : nat) (dim : Z) : result nat :=
  let n := Z.of_nat (Nat.max n 1) in
  if decide (- n ≤ dim < n)%Z
  then Ok (Z.to_nat (if decide (dim < 0)%Z then n + dim else dim)%Z)
  else Raise IndexError.

(** [t.transpose(d0, d1)] with the dimensions as Python passes them. *)
Definition torch_transpose (t : tensor) (d0 d1 : Z) : result tensor :=
  d0 ← torch_wrap_dim (length (shape t)) d0;
  d1 ← torch_wrap_dim (length (shape t)) d1;
  Ok (transpose t d0 d1).

(** Communication that took place, in program order. *)
Inductive comm_event : Set :=
| EvGatherv | EvBcast | EvAllreduce | EvAlltoall | EvAllgather | EvAllgatherv
| EvSend (src dst : nat).

Fixpoint foldM {A S} (f : S → A → result S) (s : S) (l : list A) : result S :=
  match l with
  | [] => Ok s
  | x :: l' => s' ← f s x; foldM f s' l'
  end.

Definition lookup_or_raise {A} (l : list A) (i : nat) : result A :=
  match l !! i with Some x => Ok x | None => Raise IndexError end.

(** [m[i][j] += d] on an integer matrix. *)
Definition madd (m : matrix) (i j : nat) (d : Z) : result matrix :=
  v ← mget m (Z.of_nat i) j; mset m (Z.of_nat i) j (v + d)%Z.

(** A message of [comm.Send]: sender, destination, tag and the one element
    it carries. *)
Record message := Msg { msg_src : nat; msg_dst : nat; msg_tag : Z; msg_val : Z }.

(** [comm.Recv(buf, source, tag)] against the messages addressed to the
    caller, oldest first: between one pair of ranks MPI delivers messages of
    equal tag in sending order. *)
Fixpoint recv (source : nat) (tag : Z) (box : list message) : result (Z * list message) :=
  match box with
  | [] => Raise Hang
  | m :: box' =>
      if decide (msg_src m = source ∧ msg_tag m = tag) then Ok (msg_val m, box')
      else vb ← recv source tag box'; Ok (vb.1, m :: vb.2)
  end.

(** The state of one rank while the result is rebalanced. *)
Record proc := Proc {
  lshape_axis : nat;      (** [a.lshape[axis]] *)
  local_result : matrix;
  partial : matrix
}.

(** The state of all ranks: [partition_matrix] and [problem_idx] hold the
    same values on every rank, so one copy stands for all. *)
Record balance := Balance {
  partition_matrix : matrix;
  problem_idx : matrix;
  procs : list proc;
  transfers : list comm_event
}.

Section distributed_sort.

(** What uninitialised storage of [torch.empty] happens to hold. *)
Context (junk : Z).
(** [transposed.size()[1:]], the extents of the non-split dimensions. *)
Context (rest : list nat).
Context (axis : nat) (descending : bool).

Definition ncols : nat := numel rest.

(** *** LOCAL_SORT, PIVOT_SAMPLE (lines 94-108) *)

Definition partitions (size length : nat) : list nat :=
  (λ x, x * length / (size + 1)) <$> seq 1 size.

(** [m[ps]] for a list of row numbers [ps]. *)
Definition take_rows (m : matrix) (ps : list nat) : result matrix :=
  mapM (λ p, Py.getitem m (Z.of_nat p)) ps.

Definition local_pivots (size count_rank : nat) (local_sorted : matrix) : result matrix :=
  if decide (count_rank = 0) then Ok []
  else take_rows local_sorted (partitions size (length local_sorted)).

(** *** PIVOT_GATHER (lines 112-122): rank [r] contributes
    [gather_counts[r]] rows, stored from row [gather_displs[r]] on, the
    running sum of the counts. *)
Definition gather_counts (size : nat) (counts : list nat) : list nat :=
  (λ x, (if decide (0 < x) then 1 else 0) * size) <$> counts.

Definition gatherv (bufs : list matrix) (counts : list nat) : result matrix :=
  if decide (length <$> bufs = counts) then Ok (concat bufs) else Raise MPIError.

(** *** GLOBAL_PIVOT_COMPUTE on rank 0 (lines 129-135) *)
Definition global_pivots (size : nat) (pivot_buffer : matrix) : result matrix :=
  let sorted_pivots := sort_dim0 descending ncols pivot_buffer in
  let length := length sorted_pivots in
  take_rows sorted_pivots ((λ x, x * length / size) <$> seq 1 (size - 1)).

(** *** CLASSIFY (lines 151-163): [index_matrix[i][idx] = cur] *)
Definition index_matrix (global_pivots local_sorted : matrix) : result (list (list nat)) :=
  mapM (λ x : list Z,
          mapM (λ jv : nat * Z, classify descending (column jv.1 global_pivots) jv.2)
               (imap pair x))
       local_sorted.

(** How many local elements go to each rank, per column: the local
    [partition_matrix] of line 162, and again [send_recv_matrix] of
    lines 177-179. *)
Definition count_dest (size : nat) (im : list (list nat)) : matrix :=
  (λ c, (λ j, Z.of_nat (length (filter (λ row : list nat, row !! j = Some c) im)))
        <$> seq 0 ncols) <$> seq 0 size.

(** *** EXCHANGE_COUNTS (lines 170 and 182) *)
Definition allreduce_sum (size : nat) (ms : list matrix) : matrix :=
  (λ c, (λ j, foldr Z.add 0%Z ((λ m : matrix, default 0%Z (m !! c ≫= (.!! j))) <$> ms))
        <$> seq 0 ncols) <$> seq 0 size.

Definition alltoall (size : nat) (ms : list matrix) : list matrix :=
  (λ r, (λ s, default [] (ms !! s ≫= (.!! r))) <$> seq 0 size) <$> seq 0 size.

(** *** EXCHANGE_DATA *)

(** Lines 192-196: column [idx] of [recv_indices] lists the source ranks
    in increasing order, each as often as it sends. *)
Definition recv_indices (send_recv_matrix : matrix) : list (list nat) :=
  (λ j, mjoin (imap (λ i (x : list Z), replicate (Z.to_nat (default 0%Z (x !! j))) i)
                    send_recv_matrix)) <$> seq 0 ncols.

(** Lines 200-204. *)
Definition sends (rank : nat) (local_sorted : matrix) (im : list (list nat))
  : result (list message) :=
  mapM (λ ij : nat * nat,
          send_buf ← mget local_sorted (Z.of_nat ij.1) ij.2;
          tag ← send_tag (ij.1 :: unravel rest ij.2);
          dest ← lookup_or_raise im ij.1 ≫= (λ row, lookup_or_raise row ij.2);
          Ok (Msg rank dest tag send_buf))
       (i ← seq 0 (length im); j ← seq 0 ncols; [(i, j)]).

(** Lines 206-218. *)
Definition receive_all (shape0 : nat) (send_recv_matrix : matrix) (box : list message)
  : result matrix :=
  let ri := recv_indices send_recv_matrix in
  let recv_amount := (λ j, foldr Z.add 0%Z (column j send_recv_matrix)) <$> seq 0 ncols in
  st ← foldM (λ st (jv : nat * Z),
                foldM (λ (st : matrix * list message) (fill_level : nat),
                         source ← lookup_or_raise ri jv.1
                                  ≫= (λ col, lookup_or_raise col fill_level);
                         tag ← recv_tag (unravel rest jv.1);
                         vb ← recv source tag st.2;
                         lr ← mset st.1 (Z.of_nat fill_level) jv.1 vb.1;
                         Ok (lr, vb.2))
                      st (seq 0 (Z.to_nat jv.2)))
             (replicate shape0 (replicate ncols junk), box)
             (imap pair recv_amount);
  Ok st.1.

(** *** REBALANCE *)

(** [next(ind + i + 1 for ind, pr in enumerate(partition_matrix[i + 1:])
         if pr[idx] > 0)] *)
Definition first_nonempty_above (pm : matrix) (i j : nat) : result nat :=
  hit ← Py.next (λ ip : nat * list Z, bool_decide (0 < default 0 (ip.2 !! j))%Z)
                (imap pair (drop (i + 1) pm));
  Ok (hit.1 + i + 1).

(** Lines 270-274 and 308-312, the same five statements in both
    branches; the last one names [receiver] again. *)
Definition book_transfer (sender receiver j : nat) (st : balance)
    (ps pr : proc) : result balance :=
  pi ← madd (problem_idx st) receiver j 1;
  pm ← madd (partition_matrix st) receiver j 1;
  pi ← madd pi sender j (-1);
  pm ← madd pm receiver j (-1);
  Ok (Balance pm pi (<[receiver := pr]> (<[sender := ps]> (procs st)))
              (transfers st ++ [EvSend sender receiver])).

(** Lines 239-274: rank [i] lacks elements. *)
Definition pull (i j : nat) (val : Z) (st : balance) : result balance :=
  let receiver := i in
  sender ← first_nonempty_above (partition_matrix st) i j;
  (* rank == sender *)
  ps ← lookup_or_raise (procs st) sender;
  end_ ← mget (partition_matrix st) (Z.of_nat sender) j;
  let values := column j (Py.slice_to (local_result ps) end_) in
  k ← arg_ext descending values;
  send_buf ← mget (local_result ps) (Z.of_nat k) j;
  d ← mget (problem_idx st) (Z.of_nat sender) j;
  let last := (Z.of_nat (lshape_axis ps) + d - 1)%Z in
  v ← mget (local_result ps) last j;
  lr ← mset (local_result ps) (Z.of_nat k) j v;
  pa ← (if decide (k < length (partial ps))
        then v' ← mget lr last j; mset (partial ps) (Z.of_nat k) j v'
        else Ok (partial ps));
  (* rank == receiver *)
  pr ← lookup_or_raise (procs st) receiver;
  par ← mset (partial pr) val j send_buf;
  book_transfer sender receiver j st
    (Proc (lshape_axis ps) lr pa) (Proc (lshape_axis pr) (local_result pr) par).

(** Lines 278-312: rank [i] has elements to spare. *)
Definition push (i j : nat) (val : Z) (st : balance) : result balance :=
  let sender := i in
  receiver ← first_nonempty_above (partition_matrix st) i j;
  (* rank == sender *)
  ps ← lookup_or_raise (procs st) sender;
  end_ ← mget (partition_matrix st) (Z.of_nat sender) j;
  let values := column j (Py.slice_to (local_result ps) end_) in
  k ← arg_ext (negb descending) values;
  send_buf ← mget (local_result ps) (Z.of_nat k) j;
  (* rank == receiver *)
  pr ← lookup_or_raise (procs st) receiver;
  r0 ← mget (partition_matrix st) (Z.of_nat receiver) j;
  let recv_index := r0 :: (Z.of_nat <$> unravel rest j) in
  at_axis ← Py.getitem recv_index (Z.of_nat axis);
  partial_axis ← Py.getitem (length (partial pr) :: rest) (Z.of_nat axis);
  pa ← (if decide (at_axis < Z.of_nat partial_axis)%Z
        then mset (partial pr) r0 j send_buf
        else Ok (partial pr));
  result_axis ← Py.getitem (length (local_result pr) :: rest) (Z.of_nat axis);
  lr ← (if decide (at_axis < Z.of_nat result_axis)%Z
        then mset (local_result pr) r0 j send_buf
        else
          (* tmp[0: local_result.shape[axis]] = local_result *)
          if decide (result_axis = length (local_result pr))
          then mset (local_result pr ++ replicate (Z.to_nat val) (replicate ncols junk))
                    r0 j send_buf
          else Raise RuntimeError);
  book_transfer sender receiver j st ps (Proc (lshape_axis pr) lr pa).

(** [while val != 0]: every round runs one of the two branches and moves
    [val] one step towards 0, which makes [Z.abs_nat val] rounds. *)
Fixpoint settle (rounds : nat) (i j : nat) (val : Z) (st : balance) : result balance :=
  match rounds with
  | 0 => Ok st
  | S rounds' =>
      if decide (val < 0)%Z
      then st' ← pull i j val st; settle rounds' i j (val + 1)%Z st'
      else st' ← push i j val st; settle rounds' i j (val - 1)%Z st'
  end.

(** Lines 234-312. *)
Definition rebalance (size : nat) (st : balance) : result balance :=
  foldM (λ st i,
           foldM (λ st j,
                    val ← mget (problem_idx st) (Z.of_nat i) j;
                    settle (Z.abs_nat val) i j val st)
                 st (seq 0 ncols))
        st (seq 0 size).

(** Lines 229-232; [local_result] has [partition_matrix[rank].max()] rows. *)
Definition init_proc (transposed local_result : matrix) : proc :=
  let copy_size := min (length transposed) (length local_result) in
  Proc (length transposed) local_result
       (take copy_size local_result
        ++ replicate (length transposed - copy_size) (replicate ncols junk)).

(** The [else] branch of [sort] up to the end of the rebalancing loop,
    lines 92-312, on every rank at once: [transposed] holds the rows of each
    rank's transposed chunk. *)
Definition redistribute (counts : list nat) (transposed : list matrix)
  : result (list proc * list comm_event) :=
  let size := length transposed in
  let local_sorted := sort_dim0 descending ncols <$> transposed in
  lp ← mapM (λ rl : nat * matrix, local_pivots size (default 0 (counts !! rl.1)) rl.2)
            (imap pair local_sorted);
  pivot_buffer ← gatherv lp (gather_counts size counts);
  gp ← global_pivots size pivot_buffer;
  ims ← mapM (index_matrix gp) local_sorted;
  let pm := allreduce_sum size (count_dest size <$> ims) in
  let srms := alltoall size (count_dest size <$> ims) in
  shape0 ← mapM (λ row, Z.to_nat <$> tensor_max row) pm;
  outbox ← mapM (λ rli : nat * (matrix * list (list nat)), sends rli.1 rli.2.1 rli.2.2)
                (imap pair (zip local_sorted ims));
  let mailbox := mjoin outbox in
  lrs ← mapM (λ rss : nat * (nat * matrix),
                receive_all rss.2.1 rss.2.2
                  (filter (λ m, msg_dst m = rss.1) mailbox))
             (imap pair (zip shape0 srms));
  let problem := imap (λ i (x : list Z),
                         (λ v, v - Z.of_nat (default 0%nat (counts !! i)))%Z <$> x) pm in
  st ← rebalance size
         (Balance pm problem (zip_with init_proc transposed lrs)
            ([EvGatherv; EvBcast; EvAllreduce; EvAlltoall]
             ++ ((λ m, EvSend (msg_src m) (msg_dst m)) <$> mailbox)));
  Ok (procs st, transfers st).

(** FINALIZE, line 313: every rank sorts what [partial] holds. *)
Definition sort_along_split (counts : list nat) (transposed : list matrix)
  : result (list matrix * list comm_event) :=
  out ← redistribute counts transposed;
  Ok ((λ p, sort_dim0 descending ncols (partial p)) <$> (out.1 : list proc),
      (out.2 : list comm_event)).

End distributed_sort.

(** ** [sort] (lines 78-326)

    All ranks at once; next to the sorted array, the communication that
    took place.  Line 83 checks the axis and drops what [sanitize_axis]
    returns, so line 85 compares the axis as it was passed.  The argument
    [out] is left out: with it the same tensors are stored into [out]
    instead of a new array. *)

Definition sort (junk : Z) (a : DNDarray) (axis : option Z) (descending : bool)
  : result (DNDarray * list comm_event) :=
  let axis := default (Z.of_nat (length (gshape a)) - 1)%Z axis in
  _ ← sanitize_axis (gshape a) axis;
  if decide (split a = None ∨ Some axis ≠ Z.of_nat <$> split a) then
    Ok ({| larray := (λ t, torch_sort t (torch_dim t axis) descending) <$> larray a;
           gshape := gshape a; split := split a |}, [])
  else
    let axis := Z.to_nat axis in
    let rest := tail (swap_axes axis 0 (gshape a)) in
    let counts := counts_displs_shape (comm_size a) (default 0 (gshape a !! axis)) in
    out ← sort_along_split junk rest axis descending counts
            ((λ t, rows (transpose t axis 0)) <$> larray a);
    Ok ({| larray := (λ m, transpose (of_rows rest m) 0 axis) <$> out.1;
           gshape := gshape a; split := split a |}, out.2).

(** A 2-D array of one column, split along axis 0 over the ranks. *)
Definition col_array (chunks : list (list Z)) : DNDarray :=
  {| larray := (λ c, Tensor [length c; 1] c) <$> chunks;
     gshape := [length (mjoin chunks); 1]; split := Some 0 |}.

(** A 1-D array split over the ranks. *)
Definition vec_array (chunks : list (list Z)) : DNDarray :=
  {| larray := (λ c, Tensor [length c] c) <$> chunks;
     gshape := [length (mjoin chunks)]; split := Some 0 |}.

(** The elements every rank holds after [sort]. *)
Definition out_chunks (r : result (DNDarray * list comm_event)) : result (list (list Z)) :=
  (λ x, data <$> larray x.1) <$> r.

(** ** [unique] (lines 439-639) *)

(** Concatenation along axis 0, the receive buffer of a variable-count
    gather whose displacements are the running sums of its counts. *)
Definition concat0 (ts : list tensor) : tensor :=
  Tensor (foldr Nat.add 0 (lshape_at 0 <$> ts)
          :: tail (shape (default (Tensor [] []) (head ts))))
         (mjoin (data <$> ts)).

(** Modelled from the spec: [comm.Allgatherv(buf, (recv, counts, displs))],
    "concatenated via a variable-count all-gather into one candidate
    buffer"; a rank whose buffer does not have the announced count makes the
    call fail. *)
Definition allgatherv (bufs : list tensor) (counts : list nat) : result tensor :=
  if decide (lshape_at 0 <$> bufs = counts) then Ok (concat0 bufs) else Raise MPIError.

(** Modelled from the spec: [factories.array(gres, is_split=None)] keeps a
    copy of [gres] on every rank, unsplit; with [is_split=s] the tensors of
    the ranks are taken as the chunks of one array split along [s]. *)
Definition factories_array (gres : list tensor) (is_split : option nat) : DNDarray :=
  match is_split with
  | None => {| larray := gres; gshape := shape (default (Tensor [] []) (head gres));
               split := None |}
  | Some s => {| larray := gres;
                 gshape := <[s := foldr Nat.add 0 (lshape_at s <$> gres)]>
                             (shape (default (Tensor [] []) (head gres)));
                 split := Some s |}
  end.

(** Modelled from the spec: [result.resplit(s)] of an unsplit array, the
    "normal chunking path": rank [r] keeps [counts[r]] slices along [s],
    starting at the running sum of the counts before it. *)
Definition resplit (d : DNDarray) (s : nat) : DNDarray :=
  let size := comm_size d in
  let counts := counts_displs_shape size (default 0 (gshape d !! s)) in
  {| larray :=
       imap (λ r t,
               let tr := transpose t s 0 in
               let displ := foldr Nat.add 0 (take r counts) in
               transpose (of_rows (tail (shape tr))
                            (take (default 0 (counts !! r)) (drop displ (rows tr)))) 0 s)
            (larray d);
     gshape := gshape d; split := Some s |}.

(** The whole array a handle stands for. *)
Definition global_tensor (d : DNDarray) : tensor :=
  match split d with
  | None => default (Tensor [] []) (head (larray d))
  | Some s => transpose (concat0 ((λ t, transpose t s 0) <$> larray d)) 0 s
  end.

(** What [unique] hands back on the ranks. *)
Inductive unique_return :=
| TorchTensors (per_rank : list tensor)
    (** line 481, [return_inverse] false: the tensor of [torch.unique] *)
| TorchPairs (per_rank : list (tensor * tensor))
    (** line 481, [return_inverse] true: the tuple of [torch.unique] *)
| Handle (res : DNDarray)
| HandleAndInverse (res : DNDarray) (inverse_indices : tensor).

Definition is_handle (r : unique_return) : bool :=
  match r with
  | Handle _ | HandleAndInverse _ _ => true
  | TorchTensors _ | TorchPairs _ => false
  end.

Section unique.

(** [torch.unique(t, sorted=, return_inverse=True, dim=)], the primitive
    of the tensor library: the distinct values and the inverse map. *)
Context (torch_unique : tensor → bool → option Z → result (tensor * tensor)).

(** *** Local distinct values (lines 483-507) *)

(** Lines 487-490: with an axis the chunk is transposed before the guard
    of line 493 is reached, and an axis torch does not accept raises
    there. *)
Definition local_data (axis : option Z) (local : tensor) : result tensor :=
  match axis with Some ax => torch_transpose local 0 ax | None => Ok local end.

Definition unique_axis (axis : option Z) : option Z :=
  match axis with Some _ => Some 0%Z | None => None end.

Definition local_unique (a_gshape : list nat) (a_split : nat) (axis : option Z)
    (sorted : bool) (local : tensor) : result (tensor * tensor) :=
  ld ← local_data axis local;
  if decide (lshape_at a_split local = 0) then
    match axis with
    | None => Ok (Tensor [0] [], Tensor (<[a_split := 0]> a_gshape) [])
    | Some _ => Ok (Tensor (<[0 := 0]> (shape ld)) [], Tensor [0] [])
    end
  else torch_unique ld sorted (unique_axis axis).

(** The collective calls of a run that returns, in order (lines 512, 535,
    554 and 621); line 516 compares the axis as it was passed. *)
Definition collective_calls (a_split : nat) (axis : option Z)
    (return_inverse : bool) : list comm_event :=
  EvAllgather ::
  (if decide (axis = None ∨ axis = Some (Z.of_nat a_split))
   then EvAllgatherv :: (if return_inverse then [EvAllgatherv] else [])
   else [EvBcast]).

(** *** Inverse indices of the flat result (lines 563-589) *)

(** Lines 579-585; [None] in [local_elements] is [float('inf')]. *)
Fixpoint update_indices (local_elements : list (option nat)) (displs : list nat)
    (g_inverse : list Z) (cur_displ num : nat) (flatten_inverse : list Z)
  : result (list Z) :=
  match flatten_inverse with
  | [] => Ok []
  | x :: flat' =>
      bound ← lookup_or_raise local_elements cur_displ;
      let cur_displ := match bound with
                       | Some b => if decide (b ≤ num) then cur_displ + 1 else cur_displ
                       | None => cur_displ
                       end in
      d ← lookup_or_raise displs cur_displ;
      v ← Py.getitem g_inverse (x + Z.of_nat d);
      tl ← update_indices local_elements displs g_inverse cur_displ (num + 1) flat';
      Ok (v :: tl)
  end.

Definition flat_inverse (a : DNDarray) (s : nat) (inverse_displs displs : list nat)
    (inverse_buf g_inverse : tensor) : result tensor :=
  let elements_per_layer :=
    foldr Nat.mul 1 (omap (λ nv : nat * nat, if decide (nv.1 = s) then None else Some nv.2)
                          (imap pair (gshape a))) in
  let local_elements :=
    drop 1 ((λ displ, Some (displ * elements_per_layer)) <$> inverse_displs) ++ [None] in
  let transposed := transpose inverse_buf 0 s in
  inverse_indices ← update_indices local_elements displs (data g_inverse) 0 0
                      (data transposed);
  Ok (transpose (Tensor (shape transposed) inverse_indices) 0 s).

(** *** Inverse indices along the split axis (lines 592-600) *)
Definition axis_inverse (displs : list nat) (inverse_buf g_inverse : list Z)
  : result (list Z) :=
  let steps := (Some <$> displs) ++ [None] in
  foldM (λ inverse_indices i,
           match steps !! i, steps !! (i + 1) with
           | Some (Some begin), Some end_ =>
               let slice := match end_ with
                            | Some e => take (e - begin) (drop begin inverse_buf)
                            | None => drop begin inverse_buf
                            end in
               foldM (λ inverse_indices (nx : nat * Z),
                        v ← Py.getitem g_inverse (Z.of_nat begin + nx.2);
                        Py.setitem inverse_indices (Z.of_nat (begin + nx.1)) v)
                     inverse_indices (imap pair slice)
           | _, _ => Raise IndexError
           end)
        ((λ _, 0%Z) <$> inverse_buf) (seq 0 (length steps - 1)).

(** *** The coordinator's index list (lines 608-616) *)
Fixpoint coordinator_indices (pos_list : list Z) (max_uniques : nat)
    (found : list Z) (indices : list nat) (todo : list Z) : list nat :=
  match todo with
  | [] => indices
  | p :: todo' =>
      let fi := if decide (p ∈ found) then (found, indices)
                else (found ++ [p],
                      indices ++ [default 0 (fst <$> list_find (λ q, q = p) pos_list)]) in
      if decide (length fi.2 = max_uniques) then fi.2
      else coordinator_indices pos_list max_uniques fi.1 fi.2 todo'
  end.

(** [uniques_buf.max(0)]: the greatest count and the first rank that has it. *)
Definition max_with_pos (l : list nat) : nat * nat :=
  let m := foldr Nat.max 0 l in
  (m, default 0 (fst <$> list_find (λ x, x = m) l)).

Definition running_sums (counts : list nat) : list nat :=
  (λ r, foldr Nat.add 0 (take r counts)) <$> seq 0 (length counts).

(** All ranks at once; next to the value returned, the collective calls
    that took place. *)
Definition unique (a : DNDarray) (sorted return_inverse : bool) (axis : option Z)
  : result (unique_return * list comm_event) :=
  match split a with
  | None =>
      (* lines 479-481 *)
      rs ← mapM (λ t, torch_unique t sorted axis) (larray a);
      Ok (if return_inverse then TorchPairs rs else TorchTensors (fst <$> rs), [])
  | Some s =>
      let size := comm_size a in
      lr ← mapM (local_unique (gshape a) s axis sorted) (larray a);
      let lres := fst <$> lr in
      let inverse_pos := snd <$> lr in
      (* lines 510-512 *)
      let uniques_buf := lshape_at 0 <$> lres in
      if decide (axis = None ∨ axis = Some (Z.of_nat s)) then
        (* lines 519-535 *)
        let counts := uniques_buf in
        let displs := running_sums uniques_buf in
        gres_buf ← allgatherv lres counts;
        (* lines 537-555 *)
        let n := default 0 (gshape a !! s) in
        let inverse_counts := counts_displs_shape size n in
        let inverse_displs := running_sums inverse_counts in
        inverse_buf ←
          (if return_inverse then
             _ ← mapM (λ ip, if decide (s < length (shape ip)) then Ok ()
                             else Raise IndexError) inverse_pos;
             buf ← allgatherv ((λ ip, transpose ip 0 s) <$> inverse_pos) inverse_counts;
             Ok (transpose buf 0 s)
           else Ok (Tensor [] []));
        (* line 558 *)
        g ← torch_unique gres_buf sorted (unique_axis axis);
        let gres := g.1 in
        let g_inverse := g.2 in
        inverse_indices ←
          (if return_inverse then
             match axis with
             | None => flat_inverse a s inverse_displs displs inverse_buf g_inverse
             | Some _ =>
                 ii ← axis_inverse displs (data inverse_buf) (data g_inverse);
                 Ok (Tensor (shape inverse_buf) ii)
             end
           else Ok (Tensor [] []));
        (* lines 627-639 *)
        gres ← match axis with Some ax => torch_transpose gres 0 ax | None => Ok gres end;
        let result := factories_array (replicate size gres) None in
        let result := match axis with Some _ => resplit result s | None => result end in
        Ok (if return_inverse then HandleAndInverse result inverse_indices
            else Handle result,
            collective_calls s axis return_inverse)
      else
        (* lines 603-625 *)
        let mm := max_with_pos uniques_buf in
        pos ← lookup_or_raise inverse_pos mm.2;
        let pos_list := data pos in
        let indices := coordinator_indices pos_list mm.1 [] [] pos_list in
        gres ← mapM (λ t, ld ← local_data axis t;
                          of_rows (tail (shape ld))
                            <$> take_rows (rows ld) indices)
                    (larray a);
        gres ← mapM (λ g, match axis with
                          | Some ax => torch_transpose g 0 ax
                          | None => Ok g
                          end) gres;
        let result := factories_array gres (Some s) in
        let inverse_indices := Tensor [length indices] (Z.of_nat <$> indices) in
        Ok (if return_inverse then HandleAndInverse result inverse_indices
            else Handle result,
            collective_calls s axis return_inverse)
  end.

End unique.

(** *** A model of [torch.unique] *)

(** Rows compared as tuples. *)
Fixpoint lex_ltb (a b : list Z) : bool :=
  match a, b with
  | [], _ :: _ => true
  | x :: a', y :: b' => bool_decide (x < y)%Z || (bool_decide (x = y) && lex_ltb a' b')
  | _, _ => false
  end.

(** The sorted list of distinct rows, built by insertion. *)
Fixpoint insert_unique (r : list Z) (l : list (list Z)) : list (list Z) :=
  match l with
  | [] => [r]
  | x :: l' =>
      if lex_ltb r x then r :: l
      else if decide (r = x) then l
      else x :: insert_unique r l'
  end.

Definition unique_rows (m : matrix) : matrix := foldr insert_unique [] m.

(** For every row of [m] its place in [u]. *)
Definition inverse_of (u m : matrix) : list Z :=
  (λ r, Z.of_nat (default 0 (fst <$> list_find (λ x, x = r) u))) <$> m.

(** The primitive refuses an empty tensor (the comment on line 494), sorts
    the distinct values (the distinct rows for [dim = 0]) and maps every
    input position to the place of its value.  With [sorted] false torch
    leaves the order open; the model keeps the sorted one. *)
Definition torch_unique_model (t : tensor) (sorted : bool) (dim : option Z)
  : result (tensor * tensor) :=
  if decide (numel (shape t) = 0) then Raise RuntimeError
  else match dim with
       | None =>
           let m := (λ x, [x]) <$> data t in
           let u := unique_rows m in
           Ok (Tensor [length u] (mjoin u), Tensor (shape t) (inverse_of u m))
       | Some 0%Z =>
           let m := rows t in
           let u := unique_rows m in
           Ok (of_rows (tail (shape t)) u, Tensor [length m] (inverse_of u m))
       | Some _ => Raise RuntimeError
       end.

(** A matrix split by rows over the ranks. *)
Definition row_array (ncol : nat) (chunks : list matrix) : DNDarray :=
  {| larray := (λ c, of_rows [ncol] c) <$> chunks;
     gshape := [length (mjoin chunks); ncol]; split := Some 0 |}.

(** ** [expand_dims] (lines 20-75) *)

(** [t.unsqueeze(dim)]: a dimension of extent one in front of dimension
    [dim], the elements stay as they are; torch takes [dim] up to the
    number of dimensions. *)
Definition unsqueeze (t : tensor) (dim : nat) : result tensor :=
  if decide (dim ≤ length (shape t))
  then Ok (Tensor (take dim (shape t) ++ 1 :: drop dim (shape t)) (data t))
  else Raise IndexError.

(** All ranks at once.  Line 67 sanitizes the axis against the shape with
    one more dimension; line 72 moves the split axis up when the new axis
    comes in at or before it. *)
Definition expand_dims (a : DNDarray) (axis : Z) : result DNDarray :=
  axis ← sanitize_axis (gshape a ++ [1]) axis;
  arr ← mapM (λ t, unsqueeze t axis) (larray a);
  Ok {| larray := arr;
        gshape := take axis (gshape a) ++ 1 :: drop axis (gshape a);
        split := (λ s, if decide (s < axis) then s else s + 1) <$> split a |}.

(** ** [squeeze] (lines 329-436) *)

(** [t.reshape(sh)] of a contiguous tensor: the same elements under
    another shape, which has to hold as many. *)
Definition reshape (t : tensor) (sh : list nat) : result tensor :=
  if decide (numel sh = numel (shape t)) then Ok (Tensor sh (data t))
  else Raise RuntimeError.

(** Line 395: [tuple(i for i, dim in enumerate(x.shape) if dim == 1)] *)
Definition unit_axes (sh : list nat) : list nat :=
  fst <$> filter (λ id : nat * nat, id.2 = 1) (imap pair sh).

(** Lines 398 and 413:
    [tuple(sh[dim] for dim in range(len(sh)) if not dim in axis)] *)
Definition drop_axes (axis : list nat) (sh : list nat) : list nat :=
  omap (λ dim, if decide (dim ∈ axis) then None else sh !! dim) (seq 0 (length sh)).

Section squeeze.

(** [comm.Allgather(x_lsqueezed, x_gsqueezed)], line 421: what the receive
    buffer, allocated with the squeezed global shape, holds after the call
    on the squeezed chunks of all ranks.  The communication layer is not
    part of the two files. *)
Context (allgather : list tensor → list nat → result (list Z)).

(** Lines 398-412 on one rank: the local squeeze, then the check of the
    split axis, which every rank of a distributed array makes
    ([comm.is_distributed()]: more than one rank). *)
Definition squeeze_local (x : DNDarray) (axis : list nat) (t : tensor) : result tensor :=
  x_lsqueezed ← reshape t (drop_axes axis (shape t));
  match split x with
  | Some s =>
      if decide (1 < comm_size x ∧ s ∈ axis) then Raise ValueError else Ok x_lsqueezed
  | None => Ok x_lsqueezed
  end.

(** All ranks at once, for [axis] None or an int; next to the array, the
    communication that took place.  A tuple reaches line 385 as
    [sanitize_axis] returns it, which is not part of the two files: the
    tuple is left out.  Without split every rank holds the whole array, and
    with a split the local path (line 430) is that of a single rank, so the
    shape of rank 0 stands for [out_lshape]. *)
Definition squeeze (x : DNDarray) (axis : option Z) : result (DNDarray * list comm_event) :=
  (* line 384 *)
  axis ← match axis with
         | None => Ok None
         | Some ax => Some <$> sanitize_axis (gshape x) ax
         end;
  (* lines 385-391 *)
  _ ← match axis with
      | Some ax =>
          dim ← Py.getitem (gshape x) (Z.of_nat ax);
          if decide (dim = 1) then Ok () else Raise ValueError
      | None => Ok ()
      end;
  (* lines 394-397 *)
  let axis := match axis with None => unit_axes (gshape x) | Some ax => [ax] end in
  (* lines 398-412 *)
  x_lsqueezed ← mapM (squeeze_local x axis) (larray x);
  let split' := (λ s, s - length (filter (λ dim, dim < s) axis)) <$> split x in
  if decide (is_Some (split x) ∧ 1 < comm_size x) then
    (* lines 413-428 *)
    let out_gshape := drop_axes axis (gshape x) in
    x_gsqueezed ← allgather x_lsqueezed out_gshape;
    Ok ({| larray := replicate (comm_size x) (Tensor out_gshape x_gsqueezed);
           gshape := out_gshape; split := split' |},
        [EvAllgather; EvAllgather])
  else
    (* lines 430-436 *)
    Ok ({| larray := x_lsqueezed;
           gshape := shape (default (Tensor [] []) (head x_lsqueezed));
           split := split' |}, []).

End squeeze.

(** ** [nonzero] (indexing.py, lines 16-44) *)

(** [torch.nonzero(t)]: one row for every element that is not zero, in
    row-major order; the row is the index of the element. *)
Definition torch_nonzero (t : tensor) : tensor :=
  let hits := filter (λ k, default 0%Z (data t !! k) ≠ 0%Z) (seq 0 (numel (shape t))) in
  of_rows [length (shape t)] ((λ k, Z.of_nat <$> unravel (shape t) k) <$> hits).

(** [m[..., j] += d] on a two-dimensional tensor; a column that is not
    there raises. *)
Definition add_to_column (m : tensor) (j : nat) (d : Z) : result tensor :=
  if decide (j < lshape_at 1 m)
  then Ok (of_rows (tail (shape m)) (alter (Z.add d) j <$> rows m))
  else Raise IndexError.

(** Modelled from the spec: [comm.chunk(shape, split)[2][split].start], the
    offset of a rank's chunk: "contiguous, balanced to within one element,
    remainder assigned to lowest ranks first". *)
Definition chunk_start (size n rank : nat) : nat :=
  default 0 (running_sums (counts_displs_shape size n) !! rank).

Section nonzero.

(** [operations.__local_op(torch.nonzero, a, out=None)], the path of an
    array without split; [operations] is not part of the two files. *)
Context (local_op : DNDarray → result DNDarray).

(** All ranks at once.  [comm.chunk] sanitizes the split axis against the
    shape before it computes the offset. *)
Definition nonzero (a : DNDarray) : result DNDarray :=
  match split a with
  | None => local_op a
  | Some s =>
      lcl ← mapM (λ rt : nat * tensor,
                    let lcl_nonzero := torch_nonzero rt.2 in
                    _ ← sanitize_axis (gshape a) (Z.of_nat s);
                    let start := chunk_start (comm_size a) (default 0 (gshape a !! s)) rt.1 in
                    add_to_column lcl_nonzero s (Z.of_nat start))
                 (imap pair (larray a));
      Ok (factories_array lcl (Some 0))
  end.

End nonzero.

(** ** Arrays and notions the statements below use *)

(** The comparator [descending] stands for: [≤] ascending, [≥] descending. *)
Definition sort_order (descending : bool) : relation Z :=
  if descending then Z.ge else Z.le.

(** What the spec says for an ascending sort: the rank of "the first pivot
    boundary it does not exceed", so that a tie stays in the lower bucket. *)
Definition first_not_exceeded (pivots : list Z) (val : Z) : nat :=
  default (length pivots) (fst <$> list_find (λ p, val ≤ p)%Z pivots).

(** Six elements in one column on two ranks, three each. *)
Definition six_on_two : DNDarray := col_array [[1; 2; 3]; [0; 10; 11]]%Z.

(** The elements of the whole array, chunk after chunk. *)
Definition values (a : DNDarray) : list Z := mjoin (data <$> larray a).

(** Twelve elements in one column on two ranks, already in order. *)
Definition twelve_on_two : DNDarray :=
  col_array [[0; 1; 2; 3; 4; 5]; [6; 7; 8; 9; 10; 11]]%Z.

(** [partial] of every rank at the end of the rebalancing loop. *)
Definition partials (r : result (list proc * list comm_event)) : result (list matrix) :=
  match r with Ok out => Ok (partial <$> out.1) | Raise e => Raise e end.

(** Six elements in one column on four ranks, chunks of 2, 2, 1 and 1. *)
Definition six_on_four : DNDarray := col_array [[0; 1]; [1; 1]; [0]; [0]]%Z.

(** The number of rows of [partial] on every rank. *)
Definition partial_rows (st : balance) : list nat :=
  (λ p, length (partial p)) <$> procs st.

(** The slices of a tensor along axis [k], one for every position in the
    other axes. *)
Definition slices_along (k : nat) (t : tensor) : list (list Z) :=
  let tr := transpose t k 0 in
  (λ j, column j (rows tr)) <$> seq 0 (numel (tail (shape tr))).

(** What the spec says of the fast path, "each process sorts its local
    slice along axis independently using a standard comparison sort": every
    rank holds a tensor of the old shape in which every slice along the
    axis is in order and holds the elements it held, and the handle keeps
    the global shape and the split. *)
Definition sorted_locally (k : nat) (descending : bool) (a r : DNDarray) : Prop :=
  gshape r = gshape a ∧ split r = split a
  ∧ Forall2 (λ t t', shape t' = shape t
                     ∧ length (data t') = numel (shape t')
                     ∧ Forall2 (λ l l', Sorted (sort_order descending) l' ∧ l' ≡ₚ l)
                               (slices_along k t) (slices_along k t'))
            (larray a) (larray r).

(** The axis a Python index names among [n] axes. *)
Definition normal_axis (n : nat) (axis : Z) : nat :=
  Z.to_nat (if decide (axis < 0)%Z then Z.of_nat n + axis else axis).

(** Two rows of one column, split by columns over two ranks: rank 1 holds
    nothing. *)
Definition one_column_on_two : DNDarray :=
  {| larray := [Tensor [2; 1] [4; 4]%Z; Tensor [2; 0] []];
     gshape := [2; 1]; split := Some 1 |}.

(** The unsplit array [3 2 1 3] on one rank. *)
Definition unsplit_vec : DNDarray :=
  {| larray := [Tensor [4] [3; 2; 1; 3]%Z]; gshape := [4]; split := None |}.

(** A primitive that raises whatever it is given. *)
Definition torch_unique_raises (_ : tensor) (_ : bool) (_ : option Z)
  : result (tensor * tensor) := Raise RuntimeError.

Definition lex_lt (a b : list Z) : Prop := lex_ltb a b = true.

(** The distinct values of a flattened tensor, as the model lists them. *)
Definition flat_unique (l : list Z) : list Z :=
  mjoin (unique_rows ((λ x, [x]) <$> l)).

(** What the local step returns on a chunk, for the flat result. *)
Definition local_flat (gsh : list nat) (s : nat) (t : tensor) : tensor * tensor :=
  (Tensor [length (flat_unique (data t))] (flat_unique (data t)),
   if decide (lshape_at s t = 0) then Tensor (<[s := 0]> gsh) []
   else Tensor (shape t) (inverse_of (unique_rows ((λ x, [x]) <$> data t))
                                     ((λ x, [x]) <$> data t))).

(** A chunk without slices along the split axis holds nothing, any other
    chunk holds something. *)
Definition chunk_ok (s : nat) (t : tensor) : Prop :=
  (lshape_at s t = 0 → data t = []) ∧ (lshape_at s t ≠ 0 → numel (shape t) ≠ 0).

(** Two rows of four columns on two ranks. *)
Definition two_by_four : DNDarray := row_array 4 [[[1; 1; 2; 3]]; [[5; 6; 6; 6]]]%Z.

(** The slices of a tensor along axis 1. *)
Definition columns (t : tensor) : matrix := rows (transpose t 0 1).

(** Four rows of one column on two ranks, two each. *)
Definition four_rows : DNDarray := row_array 1 [[[5]; [5]]; [[7]; [9]]]%Z.

(** The tensor rank [r] contributes to [nonzero]: the indices of the
    elements of its chunk [t] that are not zero, moved along the split axis
    by the offset of the chunk. *)
Definition nonzero_chunk (a : DNDarray) (s r : nat) (t : tensor) : tensor :=
  of_rows [length (shape t)]
    (alter (Z.add (Z.of_nat (chunk_start (comm_size a) (default 0 (gshape a !! s)) r))) s
       <$> rows (torch_nonzero t)).

(** [pos_list.index(p)], line 614. *)
Definition first_index (pos_list : list Z) (p : Z) : nat :=
  default 0 (fst <$> list_find (λ q, q = p) pos_list).

(** An Allgather that lays the chunks one after the other. *)
Definition gather_chunks (bufs : list tensor) (_ : list nat) : result (list Z) :=
  Ok (mjoin (data <$> bufs)).

(** A path for arrays without split that raises. *)
Definition local_op_raises (_ : DNDarray) : result DNDarray := Raise RuntimeError.

(** One row of three on two ranks, without split. *)
Definition replicated_row : DNDarray :=
  {| larray := [Tensor [1; 3] [4; 5; 6]%Z; Tensor [1; 3] [4; 5; 6]%Z];
     gshape := [1; 3]; split := None |}.

(** One row of two columns, split by rows over two ranks: rank 1 holds
    nothing. *)
Definition one_row_on_two : DNDarray := row_array 2 [[[1; 2]]; []]%Z.


(** Four elements in one column on two ranks, two of them zero. *)
Definition with_zeros : DNDarray := col_array [[0; 7]; [8; 0]]%Z.

(** A 2×2 array split by rows. *)
Definition two_by_two : DNDarray := row_array 2 [[[3; 2]]; [[1; 3]]]%Z.

(** Rank 0 received three elements and rank 1 one; each is due two. *)
Definition three_and_one : balance :=
  Balance [[3]; [1]]%Z [[1]; [-1]]%Z
          [Proc 2 [[1]; [2]; [3]]%Z [[1]; [2]]%Z; Proc 2 [[4]]%Z [[4]; [0]]%Z] [].

(** * Properties *)

(** ** The local sort *)

Lemma sort_list_perm descending l : sort_list descending l ≡ₚ l.
Proof. destruct descending; apply merge_sort_Permutation. Qed.

Lemma sort_list_sorted_asc l : Sorted Z.le (sort_list false l).
Proof. apply (Sorted_merge_sort Z.le). Qed.

#[local] Instance Z_ge_total : Total Z.ge.
Proof. intros x y. lia. Qed.

Lemma sort_list_sorted_desc l : Sorted Z.ge (sort_list true l).
Proof. apply (Sorted_merge_sort Z.ge). Qed.

Lemma sort_list_sorted descending l :
  Sorted (sort_order descending) (sort_list descending l).
Proof.
  destruct descending; [apply sort_list_sorted_desc|apply sort_list_sorted_asc].
Qed.

Lemma omap_all_Some {A B} (f : A → option B) (h : A → B) l :
  Forall (λ x, f x = Some (h x)) l → omap f l = h <$> l.
Proof. induction 1 as [|x l Hx _ IH]; [done|]. csimpl. by rewrite Hx, IH. Qed.

Lemma fmap_lookup_seq {A} (d : A) (l : list A) :
  (λ i, default d (l !! i)) <$> seq 0 (length l) = l.
Proof.
  apply list_eq. intros i. rewrite list_lookup_fmap.
  destruct (decide (i < length l)) as [Hi|Hi].
  - rewrite lookup_seq_lt by done. simpl.
    by destruct (lookup_lt_is_Some_2 l i Hi) as [x ->].
  - rewrite lookup_seq_ge by lia. simpl. symmetry. apply lookup_ge_None. lia.
Qed.

Lemma column_length j (m : matrix) nc :
  Forall (λ row, length row = nc) m → j < nc → length (column j m) = length m.
Proof.
  intros Hm Hj. unfold column.
  rewrite (omap_all_Some (λ row : list Z, row !! j) (λ row, default 0%Z (row !! j)) m).
  - by rewrite length_fmap.
  - eapply Forall_impl; [exact Hm|]. intros row Hrow. simpl in *.
    assert (j < length row) as Hlt by lia.
    by destruct (lookup_lt_is_Some_2 row j Hlt) as [x ->].
Qed.

Lemma column_of_columns j (cols : list (list Z)) col :
  cols !! j = Some col → column j (of_columns (length col) cols) = col.
Proof.
  intros Hj. unfold column, of_columns.
  rewrite (omap_all_Some (λ row : list Z, row !! j) (λ row, default 0%Z (row !! j))).
  - rewrite <- list_fmap_compose. rewrite <- (fmap_lookup_seq 0%Z col) at 2.
    apply list_fmap_ext. intros _ i _. simpl. by rewrite list_lookup_fmap, Hj.
  - apply Forall_fmap, Forall_forall. intros i _. simpl.
    by rewrite list_lookup_fmap, Hj.
Qed.

(** [torch.sort] along axis 0 sorts every column on its own. *)
Lemma sort_dim0_column descending nc j (m : matrix) :
  Forall (λ row, length row = nc) m → j < nc →
  column j (sort_dim0 descending nc m) = sort_list descending (column j m).
Proof.
  intros Hm Hj. unfold sort_dim0.
  assert (length (sort_list descending (column j m)) = length m) as <-.
  { rewrite (Permutation_length (sort_list_perm _ _)). by eapply column_length. }
  apply column_of_columns. rewrite list_lookup_fmap, lookup_seq_lt by done. done.
Qed.

Lemma ravel_unravel sh k : k < numel sh → ravel sh (unravel sh k) = k.
Proof.
  revert k. induction sh as [|d sh IH]; intros k Hk; simpl in *; [lia|].
  assert (numel sh ≠ 0) as Hne by (intros Hz; rewrite Hz in Hk; lia).
  rewrite IH by (by apply Nat.mod_upper_bound).
  pose proof (Nat.div_mod_eq k (numel sh)). lia.
Qed.

Lemma swap_axes_same {A} d (l : list A) : swap_axes d d l = l.
Proof.
  unfold swap_axes. destruct (l !! d) as [x|] eqn:Hd; [|done].
  rewrite list_insert_insert_eq. by apply list_insert_id.
Qed.

(** Swapping an axis with itself gives the tensor back. *)
Lemma transpose_same t d :
  length (data t) = numel (shape t) → transpose t d d = t.
Proof.
  intros Hlen. unfold transpose. rewrite swap_axes_same. destruct t as [sh dt].
  simpl in *. f_equal. etransitivity; [|apply (fmap_lookup_seq 0%Z dt)].
  rewrite Hlen. apply list_fmap_ext. intros i k Hk. apply lookup_seq in Hk as [-> Hk].
  by rewrite swap_axes_same, ravel_unravel.
Qed.

Lemma rows_of_rows rest (m : matrix) :
  Forall (λ row, length row = numel rest) m → rows (of_rows rest m) = m.
Proof.
  intros Hm. unfold rows, of_rows. simpl.
  induction Hm as [|row m Hrow Hm IH]; [done|].
  change (seq 0 (length (row :: m))) with (0 :: seq 1 (length m)).
  rewrite fmap_cons. f_equal.
  - cbn [Nat.mul drop concat]. rewrite <- Hrow, drop_0. by rewrite take_app_length.
  - rewrite <- IH at 2. rewrite <- fmap_S_seq, <- list_fmap_compose.
    apply list_fmap_ext. intros k i _. simpl. f_equal.
    replace (numel rest + i * numel rest) with (length row + i * numel rest) by lia.
    by rewrite <- drop_drop, drop_app_length.
Qed.

Lemma rows_rectangular t :
  length (data t) = numel (shape t) → shape t ≠ [] →
  Forall (λ row, length row = numel (tail (shape t))) (rows t).
Proof.
  intros Hlen Hne. unfold rows. apply Forall_fmap, Forall_forall.
  intros i Hi. apply elem_of_seq in Hi. simpl.
  rewrite length_take, length_drop, Hlen.
  destruct (shape t) as [|d sh]; [done|]. simpl in *. nia.
Qed.

Lemma concat_length_rectangular (m : matrix) nc :
  Forall (λ row, length row = nc) m → length (concat m) = length m * nc.
Proof.
  induction 1 as [|row m Hrow _ IH]; [done|].
  simpl. rewrite length_app, IH. lia.
Qed.

(** [torch.sort] along axis 0 of a well-formed tensor sorts each of its
    columns on its own. *)
Lemma torch_sort_dim0_column t descending j :
  length (data t) = numel (shape t) → shape t ≠ [] → j < numel (tail (shape t)) →
  column j (rows (torch_sort t 0 descending))
  = sort_list descending (column j (rows t)).
Proof.
  intros Hlen Hne Hj. unfold torch_sort. rewrite (transpose_same t 0 Hlen).
  set (m := sort_dim0 descending (numel (tail (shape t))) (rows t)).
  assert (Forall (λ row, length row = numel (tail (shape t))) m) as Hm.
  { unfold m, sort_dim0, of_columns. apply Forall_fmap, Forall_forall. intros i _. simpl.
    by rewrite !length_fmap, length_seq. }
  rewrite transpose_same.
  - rewrite rows_of_rows by done. unfold m.
    apply sort_dim0_column; [by apply rows_rectangular|done].
  - simpl. rewrite (concat_length_rectangular _ _ Hm). done.
Qed.

(** So every column of the local result is in order and holds the elements
    it held before. *)
Lemma torch_sort_dim0_sorts t descending j :
  length (data t) = numel (shape t) → shape t ≠ [] → j < numel (tail (shape t)) →
  Sorted (sort_order descending) (column j (rows (torch_sort t 0 descending)))
  ∧ column j (rows (torch_sort t 0 descending)) ≡ₚ column j (rows t).
Proof.
  intros Hlen Hne Hj. rewrite torch_sort_dim0_column by done.
  split; [apply sort_list_sorted|apply sort_list_perm].
Qed.

(** ** Tags *)

Lemma send_recv_tag_agree i idx : send_tag (i :: idx) = recv_tag idx.
Proof. reflexivity. Qed.

Lemma tag_of_nil : tag_of [] = Raise ValueError.
Proof. reflexivity. Qed.

Lemma digit_pretty_N_char x :
  (x < 10)%N → Py.digit (pretty_N_char x) = Some (Z.of_N x).
Proof.
  intros Hx. destruct x as [|p]; [reflexivity|].
  do 4 (try (destruct p as [p|p|]; try reflexivity; try lia)).
Qed.

Lemma int_digits_pretty_N_go x : ∀ acc s,
  ∃ k : Z, Py.int_digits acc (pretty_N_go x s)
           = Py.int_digits (acc * 10 ^ k + Z.of_N x)%Z s ∧ (0 ≤ k)%Z.
Proof.
  induction (N.lt_wf_0 x) as [x _ IH]. intros acc s.
  destruct (decide (x = 0%N)) as [->|Hx].
  - exists 0%Z. rewrite pretty_N_go_0. split; [f_equal; lia|lia].
  - rewrite pretty_N_go_step by lia.
    destruct (IH (x `div` 10)%N) with (acc := acc)
      (s := String (pretty_N_char (x `mod` 10)) s) as (k & -> & Hk).
    { apply N.div_lt; lia. }
    exists (k + 1)%Z. split; [|lia]. simpl.
    rewrite digit_pretty_N_char by (apply N.mod_lt; lia).
    f_equal. rewrite Z.pow_add_r, Z.pow_1_r by lia.
    pose proof (N.div_mod x 10 ltac:(lia)) as Hdm.
    apply (f_equal Z.of_N) in Hdm. rewrite N2Z.inj_add, N2Z.inj_mul in Hdm.
    change (Z.of_N 10) with 10%Z in Hdm. lia.
Qed.

Lemma pretty_N_go_nonempty x : ∀ s,
  s ≠ EmptyString → pretty_N_go x s ≠ EmptyString.
Proof.
  induction (N.lt_wf_0 x) as [x _ IH]. intros s Hs.
  destruct (decide (x = 0%N)) as [->|Hx]; [by rewrite pretty_N_go_0|].
  rewrite pretty_N_go_step by lia. apply IH; [apply N.div_lt; lia|done].
Qed.

(** [int(str(n))] is [n]. *)
Lemma int_str n : Py.int (Py.str n) = Ok (Z.of_nat n).
Proof.
  unfold Py.str, pretty, pretty_nat, pretty, pretty_N.
  destruct (decide (N.of_nat n = 0%N)) as [Hz|Hnz].
  - simpl. f_equal. lia.
  - destruct (int_digits_pretty_N_go (N.of_nat n) 0 EmptyString) as (k & Hk & _).
    assert (Py.int_digits 0 (pretty_N_go (N.of_nat n) EmptyString) = Ok (Z.of_nat n))
      as <- by (rewrite Hk; simpl; f_equal; lia).
    unfold Py.int. destruct (pretty_N_go (N.of_nat n) EmptyString) eqn:Hs; [|done].
    exfalso. rewrite pretty_N_go_step in Hs by lia.
    by apply pretty_N_go_nonempty in Hs.
Qed.

(** With one non-split dimension the tag is the column number: the tags of
    a 2-D array tell its columns apart. *)
Lemma append_empty (s : string) : (s +:+ EmptyString)%string = s.
Proof.
  induction s as [|c s IH]; [done|].
  change (String c (s +:+ EmptyString)%string = String c s). by rewrite IH.
Qed.

Lemma tag_of_single j : tag_of [j] = Ok (Z.of_nat j).
Proof.
  unfold tag_of. change (Py.join (Py.str <$> [j])) with (Py.str j +:+ EmptyString)%string.
  rewrite append_empty. apply int_str.
Qed.

Lemma tag_of_single_inj i j : tag_of [i] = tag_of [j] → i = j.
Proof. rewrite !tag_of_single. intros [= H]. lia. Qed.

(** C7. The tag does not identify the position along the non-split
    dimensions: the index tuples (1, 11) and (11, 1) of a 3-D array are sent
    under the same tag 111, the digits of the indices written one after the
    other. *)
Theorem tag_collision :
  send_tag [0; 1; 11] = Ok 111%Z ∧ send_tag [0; 11; 1] = Ok 111%Z
  ∧ recv_tag [1; 11] = recv_tag [11; 1].
Proof. vm_compute. auto. Qed.

(** ** CLASSIFY *)

Lemma find_seq_first (p : nat → bool) start len c :
  List.find p (seq start len) = Some c →
  start ≤ c < start + len ∧ p c = true ∧ ∀ i, start ≤ i < c → p i = false.
Proof.
  revert start. induction len as [|len IH]; intros start; simpl; [discriminate|].
  destruct (p start) eqn:Hp.
  - intros [= <-]. repeat split; [lia..|done|intros; lia].
  - intros Hf. destruct (IH _ Hf) as (Hr & Hc & Hlow).
    repeat split; [lia..|done|].
    intros i Hi. destruct (decide (i = start)) as [->|]; [done|]. apply Hlow. lia.
Qed.

Lemma find_seq_some (p : nat → bool) start len i :
  start ≤ i < start + len → p i = true → is_Some (List.find p (seq start len)).
Proof.
  revert start. induction len as [|len IH]; intros start Hi Hp; simpl; [lia|].
  destruct (p start) eqn:Hs; [eauto|].
  apply IH; [|done]. destruct (decide (i = start)) as [->|]; [congruence|lia].
Qed.

Lemma op_func_irrefl descending x : op_func descending x x = false.
Proof. destruct descending; simpl; apply bool_decide_eq_false; lia. Qed.

Lemma StronglySorted_lookup_2 {A} (R : relation A) l i j x y :
  StronglySorted R l → i < j → l !! i = Some x → l !! j = Some y → R x y.
Proof.
  intros Hs. revert i j. induction Hs as [|z l Hs IH Hall]; intros i j Hij Hi Hj; [done|].
  destruct j as [|j]; [lia|]. destruct i as [|i]; simpl in *.
  - injection Hi as ->. rewrite Forall_forall in Hall. apply Hall.
    by apply list_elem_of_lookup_2 in Hj.
  - apply (IH i j); [lia|done..].
Qed.

(** C6, as stated, fails: with the single boundary 5 an element 5 does not
    exceed the boundary, so the spec puts it in bucket 0; the code puts it
    in bucket 1. *)
Lemma classify_tie_goes_up :
  first_not_exceeded [5%Z] 5%Z = 0
  ∧ classify false [5%Z] 5%Z = Ok 1
  ∧ classify false [5%Z] 5%Z ≠ Ok (first_not_exceeded [5%Z] 5%Z).
Proof. vm_compute. repeat split; congruence. Qed.

(** C6, amended.  [classify] always yields a rank [c] within the ranks; [c]
    is the first boundary the element is strictly below (ascending:
    [operator.lt]) or strictly above (descending: [operator.gt]), and the
    last rank when there is none.  An element equal to a boundary value is
    never given that boundary's bucket, and with the boundaries in sorting
    order it lands in a bucket of higher index. *)
Theorem classify_first_strict descending (pivots : list Z) val :
  ∃ c, classify descending pivots val = Ok c
       ∧ c ≤ length pivots
       ∧ (∀ i p, i < c → pivots !! i = Some p → op_func descending val p = false)
       ∧ (∀ p, pivots !! c = Some p → op_func descending val p = true)
       ∧ (∀ i, pivots !! i = Some val → i ≠ c)
       ∧ (Sorted (sort_order descending) pivots →
          ∀ i, pivots !! i = Some val → i < c).
Proof.
  unfold classify, Py.next.
  set (p := λ i : nat, bool_decide (i = length pivots)
                       || match pivots !! i with
                          | Some p => op_func descending val p
                          | None => false
                          end).
  destruct (find_seq_some p 0 (length pivots + 1) (length pivots)) as [c Hc];
    [lia|by subst p; simpl; rewrite bool_decide_eq_true_2|].
  rewrite Hc. exists c.
  destruct (find_seq_first _ _ _ _ Hc) as (Hr & Hpc & Hlow).
  assert (Hbelow : ∀ i q, i < c → pivots !! i = Some q → op_func descending val q = false).
  { intros i q Hi Hq. specialize (Hlow i ltac:(lia)). subst p. simpl in Hlow.
    rewrite Hq in Hlow. by apply orb_false_iff in Hlow as [_ ?]. }
  assert (Hat : ∀ q, pivots !! c = Some q → op_func descending val q = true).
  { intros q Hq. subst p. simpl in Hpc. rewrite Hq in Hpc.
    apply orb_true_iff in Hpc as [Hlen|]; [|done].
    apply bool_decide_eq_true in Hlen. apply lookup_lt_Some in Hq. lia. }
  assert (Hne : ∀ i, pivots !! i = Some val → i ≠ c).
  { intros i Hi ->. specialize (Hat _ Hi). by rewrite op_func_irrefl in Hat. }
  repeat split; [lia|done..|].
  intros Hsorted i Hi.
  destruct (decide (i < c)) as [|Hge]; [done|exfalso].
  assert (c < i) as Hlt by (specialize (Hne i Hi); lia).
  destruct (pivots !! c) as [q|] eqn:Hq;
    [|apply lookup_ge_None in Hq; apply lookup_lt_Some in Hi; lia].
  specialize (Hat _ eq_refl).
  assert (sort_order descending q val) as Hord.
  { eapply (StronglySorted_lookup_2 _ pivots c i); [|done..].
    apply Sorted_StronglySorted; [|done].
    destruct descending; intros x y z; simpl; lia. }
  destruct descending; simpl in *; apply bool_decide_eq_true in Hat; lia.
Qed.

(** ** The distributed path of [sort] at concrete arrays *)

(** C1.  On [six_on_two] the pivot 10 sends four elements to rank 0 and two
    to rank 1.  Rank 0 keeps the first three it received, 1 2 3, and hands
    its greatest, 3, to rank 1 without giving it up; the 0 it received last
    is dropped.  The result holds 3 twice and 0 never, whatever the
    uninitialised storage held. *)
Theorem sort_loses_an_element junk :
  ∃ r, sort junk six_on_two (Some 0%Z) false = Ok r
       ∧ (data <$> larray r.1) = [[1; 2; 3]; [3; 10; 11]]%Z
       ∧ ¬ values r.1 ≡ₚ values six_on_two.
Proof.
  eexists. split; [vm_compute; reflexivity|]. split; [reflexivity|].
  intros Hperm.
  assert (0%Z ∈ values six_on_two) as Hin by (apply list_elem_of_In; vm_compute; tauto).
  rewrite <- Hperm in Hin.
  apply list_elem_of_In in Hin. vm_compute in Hin. intuition discriminate.
Qed.

(** C2.  On [twelve_on_two] rank 0 has two elements to spare.  It sends its
    greatest, 7, twice, and rank 1 stores it twice in row 4 of [partial];
    row 5 is never written.  When the storage of [torch.empty] held 0, rank
    1 ends with 0 7 8 9 10 11 behind the 0 1 2 3 4 5 of rank 0: position 5
    holds 5 and position 6 holds 0. *)
Theorem sort_out_of_order :
  ∃ r, sort 0 twelve_on_two (Some 0%Z) false = Ok r
       ∧ data (global_tensor r.1) = [0; 1; 2; 3; 4; 5; 0; 7; 8; 9; 10; 11]%Z
       ∧ ¬ Sorted Z.le (data (global_tensor r.1)).
Proof.
  eexists. split; [vm_compute; reflexivity|]. split; [vm_compute; reflexivity|].
  vm_compute. intros Hs.
  do 5 (apply Sorted_inv in Hs as [Hs _]).
  apply Sorted_inv in Hs as [_ Hhd]. inversion Hhd as [|? ? Hle]. by apply Hle.
Qed.

(** Before the final sort, [partial] on rank 1 holds the 7 in row 4 and
    untouched storage in row 5, whatever that storage is. *)
Lemma twelve_on_two_partial junk :
  partials (redistribute junk [1] 0 false [6; 6]
              ((λ t, rows (transpose t 0 0)) <$> larray twelve_on_two))
  = Ok [[[0]; [1]; [2]; [3]; [4]; [5]]; [[8]; [9]; [10]; [11]; [7]; [junk]]]%Z.
Proof. vm_compute. reflexivity. Qed.

(** C3.  On [six_on_four] the pivots 0 0 1 leave ranks 0 and 1 empty and
    give three elements each to ranks 2 and 3.  Ranks 0 and 1 both draw
    their two elements from rank 2, because [partition_matrix[2]] stays at
    3; rank 2 is then booked two short, and [partial[-2]] on its single row
    raises IndexError. *)
Theorem rebalance_raises junk :
  sort junk six_on_four (Some 0%Z) false = Raise IndexError.
Proof. vm_compute. reflexivity. Qed.

(** The first concrete scenario of the spec, a 1-D array on four ranks:
    the index tuple along the non-split dimensions is empty, and [int('')]
    raises. *)
Lemma sort_1d_raises junk :
  sort junk (vec_array [[5; 3]; [1; 4]; [2; 0]; [7; 6]]%Z) None false = Raise ValueError.
Proof. vm_compute. reflexivity. Qed.

(** A rank without elements takes part and ends without elements. *)
Lemma sort_empty_chunk junk :
  out_chunks (sort junk (col_array [[7]; []]%Z) (Some 0%Z) false) = Ok [[7]; []]%Z.
Proof. vm_compute. reflexivity. Qed.

(** ** Shapes of the result *)

Lemma bind_Ok {A B} (m : result A) (f : A → result B) b :
  m ≫= f = Ok b → ∃ a, m = Ok a ∧ f a = Ok b.
Proof. destruct m as [a|e]; simpl; [eauto|discriminate]. Qed.

Ltac inv_bind H :=
  repeat (lazymatch type of H with
          | mbind _ _ = Ok _ =>
              let a := fresh "x" in let Ha := fresh "Hx" in
              apply bind_Ok in H as (a & Ha & H)
          end).

Lemma mapM_Ok_length {A B} (f : A → result B) l k :
  mapM f l = Ok k → length k = length l.
Proof.
  revert k. induction l as [|x l IH]; intros k; simpl.
  - by intros [= <-].
  - intros H. inv_bind H. injection H as <-. simpl. f_equal. by apply IH.
Qed.

Lemma foldM_invariant {A S} (P : S → Prop) (f : S → A → result S) l s s' :
  (∀ s x s', P s → f s x = Ok s' → P s') →
  P s → foldM f s l = Ok s' → P s'.
Proof.
  intros Hf. revert s. induction l as [|x l IH]; intros s Hs; simpl.
  - by intros [= <-].
  - intros H. inv_bind H. eapply IH; [|done]. eauto.
Qed.

Lemma setitem_length {A} (l : list A) i x l' :
  Py.setitem l i x = Ok l' → length l' = length l.
Proof.
  unfold Py.setitem. intros H. inv_bind H. injection H as <-. apply length_insert.
Qed.

Lemma mset_length m i j v m' : mset m i j v = Ok m' → length m' = length m.
Proof. unfold mset. intros H. inv_bind H. by apply setitem_length in H. Qed.

Lemma partial_rows_insert (ps : list proc) i p :
  ((λ p, length (partial p)) <$> ps) !! i = Some (length (partial p)) →
  (λ p, length (partial p)) <$> <[i := p]> ps = (λ p, length (partial p)) <$> ps.
Proof. intros H. rewrite list_fmap_insert. by apply list_insert_id. Qed.

Lemma lookup_or_raise_Ok {A} (l : list A) i x :
  lookup_or_raise l i = Ok x → l !! i = Some x.
Proof. unfold lookup_or_raise. destruct (l !! i); by intros [= <-]. Qed.

Lemma book_transfer_rows sender receiver j st ps pr ps0 pr0 st' :
  procs st !! sender = Some ps0 → procs st !! receiver = Some pr0 →
  length (partial ps) = length (partial ps0) →
  length (partial pr) = length (partial pr0) →
  book_transfer sender receiver j st ps pr = Ok st' →
  partial_rows st' = partial_rows st.
Proof.
  intros Hs Hr Hls Hlr H. unfold book_transfer in H. inv_bind H.
  injection H as <-. unfold partial_rows. simpl.
  rewrite partial_rows_insert.
  - apply partial_rows_insert. by rewrite list_lookup_fmap, Hs, Hls.
  - rewrite partial_rows_insert by (by rewrite list_lookup_fmap, Hs, Hls).
    by rewrite list_lookup_fmap, Hr, Hlr.
Qed.

Lemma pull_rows descending i j val st st' :
  pull descending i j val st = Ok st' → partial_rows st' = partial_rows st.
Proof.
  unfold pull. intros H.
  apply bind_Ok in H as (sender & _ & H).
  apply bind_Ok in H as (ps & Hps & H). apply lookup_or_raise_Ok in Hps.
  apply bind_Ok in H as (end_ & _ & H).
  apply bind_Ok in H as (k & _ & H).
  apply bind_Ok in H as (send_buf & _ & H).
  apply bind_Ok in H as (d & _ & H).
  apply bind_Ok in H as (v & _ & H).
  apply bind_Ok in H as (lr & _ & H).
  apply bind_Ok in H as (pa & Hpa & H).
  apply bind_Ok in H as (pr & Hpr & H). apply lookup_or_raise_Ok in Hpr.
  apply bind_Ok in H as (par & Hpar & H).
  eapply book_transfer_rows in H; [done|done..| |]; simpl.
  - destruct (decide (k < length (partial ps))); [|by injection Hpa as <-].
    apply bind_Ok in Hpa as (v' & _ & Hpa). by apply mset_length in Hpa.
  - by apply mset_length in Hpar.
Qed.

Lemma push_rows junk rest axis descending i j val st st' :
  push junk rest axis descending i j val st = Ok st' → partial_rows st' = partial_rows st.
Proof.
  unfold push. intros H.
  apply bind_Ok in H as (receiver & _ & H).
  apply bind_Ok in H as (ps & Hps & H). apply lookup_or_raise_Ok in Hps.
  apply bind_Ok in H as (end_ & _ & H).
  apply bind_Ok in H as (k & _ & H).
  apply bind_Ok in H as (send_buf & _ & H).
  apply bind_Ok in H as (pr & Hpr & H). apply lookup_or_raise_Ok in Hpr.
  apply bind_Ok in H as (r0 & _ & H).
  apply bind_Ok in H as (at_axis & _ & H).
  apply bind_Ok in H as (partial_axis & _ & H).
  apply bind_Ok in H as (pa & Hpa & H).
  apply bind_Ok in H as (result_axis & _ & H).
  apply bind_Ok in H as (lr & _ & H).
  eapply book_transfer_rows in H; [done|done..|]; simpl.
  destruct (decide (at_axis < Z.of_nat partial_axis)%Z); [|by injection Hpa as <-].
  by apply mset_length in Hpa.
Qed.

Lemma settle_rows junk rest axis descending rounds i j val st st' :
  settle junk rest axis descending rounds i j val st = Ok st' →
  partial_rows st' = partial_rows st.
Proof.
  revert val st. induction rounds as [|rounds IH]; intros val st; simpl.
  - by intros [= <-].
  - destruct (decide (val < 0)%Z); intros H; apply bind_Ok in H as (st1 & H1 & H);
      apply IH in H; rewrite H.
    + by apply pull_rows in H1.
    + by apply push_rows in H1.
Qed.

Lemma rebalance_rows junk rest axis descending size st st' :
  rebalance junk rest axis descending size st = Ok st' →
  partial_rows st' = partial_rows st.
Proof.
  unfold rebalance.
  apply (foldM_invariant (λ s, partial_rows s = partial_rows st)); [|done].
  intros s i s' Hs.
  apply (foldM_invariant (λ s, partial_rows s = partial_rows st)); [|done].
  intros s1 j s2 Hs1 H. apply bind_Ok in H as (val & _ & H).
  apply settle_rows in H. congruence.
Qed.

Lemma init_proc_rows junk rest transposed lr :
  length (partial (init_proc junk rest transposed lr)) = length transposed.
Proof.
  unfold init_proc. simpl. rewrite length_app, length_take, length_replicate. lia.
Qed.

Lemma sort_dim0_length descending ncols m :
  length (sort_dim0 descending ncols m) = length m.
Proof. unfold sort_dim0, of_columns. by rewrite length_fmap, length_seq. Qed.

(** Whenever the distributed path returns, every rank holds as many rows as
    it held before. *)
Lemma sort_along_split_rows junk rest axis descending counts transposed out :
  sort_along_split junk rest axis descending counts transposed = Ok out →
  length <$> out.1 = length <$> transposed.
Proof.
  unfold sort_along_split. intros H.
  apply bind_Ok in H as (red & H & Hout). injection Hout as <-. simpl.
  unfold redistribute in H.
  apply bind_Ok in H as (lp & _ & H).
  apply bind_Ok in H as (pivot_buffer & _ & H).
  apply bind_Ok in H as (gp & _ & H).
  apply bind_Ok in H as (ims & Hims & H).
  apply bind_Ok in H as (shape0 & Hshape0 & H).
  apply bind_Ok in H as (outbox & _ & H).
  apply bind_Ok in H as (lrs & Hlrs & H).
  apply bind_Ok in H as (st & Hst & H).
  injection H as <-. simpl.
  apply rebalance_rows in Hst. unfold partial_rows in Hst. simpl in Hst.
  rewrite <- list_fmap_compose.
  erewrite (list_fmap_ext _ (λ p, length (partial p))); [|intros; apply sort_dim0_length].
  rewrite Hst.
  apply mapM_Ok_length in Hlrs, Hshape0, Hims.
  rewrite length_imap, length_zip_with in Hlrs.
  assert (length lrs = length transposed) as Hlen.
  { unfold allreduce_sum, alltoall in *.
    rewrite !length_fmap, !length_seq in *. lia. }
  clear -Hlen. revert lrs Hlen.
  induction transposed as [|t ts IH]; intros [|lr lrs] Hlen; simpl in *; try done.
  f_equal; [apply init_proc_rows|]. apply IH. lia.
Qed.

Lemma swap_axes_length {A} i j (l : list A) : length (swap_axes i j l) = length l.
Proof.
  unfold swap_axes. destruct (l !! i), (l !! j); try done.
  by rewrite !length_insert.
Qed.

Lemma swap_axes_invol {A} i j (l : list A) : swap_axes j i (swap_axes i j l) = l.
Proof.
  unfold swap_axes.
  destruct (l !! i) as [x|] eqn:Hi; [|by rewrite Hi; destruct (l !! j)].
  destruct (l !! j) as [y|] eqn:Hj; [|by rewrite Hj].
  assert (i < length l) by (by eapply lookup_lt_Some).
  assert (j < length l) by (by eapply lookup_lt_Some).
  apply list_eq. intros k.
  rewrite !list_lookup_insert, !length_insert.
  repeat case_decide; destruct_and?; simplify_eq; try done; try lia.
  all: rewrite ?list_lookup_insert, ?length_insert;
    repeat case_decide; destruct_and?; simplify_eq; try done; try lia.
Qed.

Lemma rows_length t : length (rows t) = hd 0 (shape t).
Proof. unfold rows. by rewrite length_fmap, length_seq. Qed.

Lemma hd_tail (l : list nat) : l ≠ [] → hd 0 l :: tail l = l.
Proof. by destruct l. Qed.

Lemma torch_sort_shape t dim descending :
  shape t ≠ [] → shape (torch_sort t dim descending) = shape t.
Proof.
  intros Hne. unfold torch_sort. simpl.
  rewrite sort_dim0_length, rows_length. simpl.
  rewrite hd_tail.
  - apply swap_axes_invol.
  - intros Hnil. apply (f_equal length) in Hnil.
    rewrite swap_axes_length in Hnil. by destruct (shape t).
Qed.

Lemma tail_swap_insert (g : list nat) axis n :
  axis < length g →
  hd 0 (swap_axes axis 0 (<[axis := n]> g)) :: tail (swap_axes axis 0 g)
  = swap_axes axis 0 (<[axis := n]> g).
Proof.
  intros Hlt. destruct g as [|g0 gt]; [simpl in Hlt; lia|].
  destruct axis as [|k]; [done|]. simpl in Hlt.
  destruct (lookup_lt_is_Some_2 gt k ltac:(lia)) as [x Hx].
  unfold swap_axes. simpl. rewrite Hx.
  rewrite list_lookup_insert_eq by lia. simpl.
  by rewrite list_insert_insert_eq.
Qed.

(** X1.  Whenever [sort] returns, on the fast path or on the distributed
    one, every rank holds a tensor of the shape it held before: [partial] is
    allocated with the size of the transposed chunk (line 230) and only
    written element by element. *)
Lemma sort_keeps_local_shapes junk a axis descending r :
  wf_DNDarray a →
  sort junk a axis descending = Ok r →
  shape <$> larray r.1 = shape <$> larray a
  ∧ gshape r.1 = gshape a ∧ split r.1 = split a.
Proof.
  intros Hwf. unfold sort.
  set (ax := default (Z.of_nat (length (gshape a)) - 1)%Z axis).
  destruct (sanitize_axis (gshape a) ax) as [n|] eqn:Hsan; [simpl|done].
  assert (length (gshape a) ≠ 0) as Hdims.
  { unfold sanitize_axis in Hsan. repeat case_decide; try done; lia. }
  assert (Forall (λ t, shape t ≠ []) (larray a)) as Hne.
  { eapply Forall_impl; [exact Hwf|]. intros t [_ Ht] Hnil.
    assert (length (shape t) = length (gshape a)) as Hlen.
    { destruct (split a); [destruct Ht as [m ->]; apply length_insert|by rewrite Ht]. }
    rewrite Hnil in Hlen. simpl in Hlen. lia. }
  destruct (decide (split a = None ∨ Some ax ≠ Z.of_nat <$> split a)) as [_|Hsplit].
  - intros [= <-]. simpl. repeat split.
    rewrite <- list_fmap_compose. apply Forall_fmap_ext.
    eapply Forall_impl; [exact Hne|]. intros t Ht. simpl.
    by apply torch_sort_shape.
  - intros H. apply bind_Ok in H as (out & Hout & H). injection H as <-. simpl.
    repeat split. apply sort_along_split_rows in Hout.
    assert (∃ s, split a = Some s ∧ ax = Z.of_nat s) as (s & Hs & Has).
    { destruct (split a) as [s|]; [|by destruct Hsplit; left].
      exists s. split; [done|]. destruct (decide (ax = Z.of_nat s)) as [|Hd]; [done|].
      destruct Hsplit. right. simpl. congruence. }
    assert (s < length (gshape a)) as Hlt.
    { unfold sanitize_axis in Hsan. repeat case_decide; try done; lia. }
    rewrite Has, Nat2Z.id in *.
    rewrite <- list_fmap_compose.
    transitivity ((λ n, swap_axes 0 s (n :: tail (swap_axes s 0 (gshape a))))
                    <$> (length <$> out.1)).
    { by rewrite <- list_fmap_compose. }
    rewrite Hout, <- !list_fmap_compose. apply Forall_fmap_ext.
    eapply Forall_impl; [exact Hwf|]. intros t [_ Ht]. simpl.
    rewrite Hs in Ht. destruct Ht as [m Ht].
    rewrite rows_length. simpl. rewrite Ht, tail_swap_insert by done.
    apply swap_axes_invol.
Qed.

Lemma wf_col_array chunks : wf_DNDarray (col_array chunks).
Proof.
  unfold wf_DNDarray, col_array. simpl. apply Forall_fmap, Forall_forall.
  intros c _. simpl. split; [lia|]. by exists (length c).
Qed.

Lemma wf_row_array ncol (chunks : list (list (list Z))) :
  Forall (Forall (λ row, length row = ncol)) chunks →
  wf_DNDarray (row_array ncol chunks).
Proof.
  intros Hrect. unfold wf_DNDarray, row_array. simpl.
  apply Forall_fmap. eapply Forall_impl; [exact Hrect|].
  intros c Hc. simpl. split; [|by exists (length c)].
  rewrite (concat_length_rectangular _ _ Hc). lia.
Qed.

(** One element on rank 0 and none on rank 1, sorted along the split axis. *)
Lemma sort_keeps_local_shapes_witness :
  ∃ r, sort 0 (col_array [[7]; []]%Z) (Some 0%Z) false = Ok r
       ∧ shape <$> larray r.1 = shape <$> larray (col_array [[7]; []]%Z)
       ∧ gshape r.1 = gshape (col_array [[7]; []]%Z)
       ∧ split r.1 = split (col_array [[7]; []]%Z).
Proof.
  eexists. split; [vm_compute; reflexivity|].
  apply (sort_keeps_local_shapes 0 (col_array [[7]; []]%Z) (Some 0%Z) false).
  - apply wf_col_array.
  - vm_compute. reflexivity.
Defined.

(** ** The fast path of [sort] *)

(** The axis -1 of a 1-D array split along axis 0 is that axis 0, but -1
    is not 0 on line 85: every rank sorts its own chunk and the result is
    out of order across the ranks. *)
Lemma sort_last_axis_by_minus_one junk :
  ∃ r, sort junk (vec_array [[2; 3]; [0; 1]]%Z) (Some (-1)%Z) false = Ok (r, [])
       ∧ data (global_tensor r) = [2; 3; 0; 1]%Z
       ∧ ¬ Sorted Z.le (data (global_tensor r)).
Proof.
  eexists. split; [vm_compute; reflexivity|]. split; [vm_compute; reflexivity|].
  vm_compute. intros Hs.
  apply Sorted_inv in Hs as [Hs _].
  apply Sorted_inv in Hs as [_ Hhd]. inversion Hhd as [|? ? Hle]. by apply Hle.
Qed.

(** ** [unique] *)

(** C9.  For an array without split, [unique] hands back what
    [torch.unique] returned, a tensor or a tuple of tensors, never a
    distributed array. *)
Theorem unique_unsplit_is_no_handle tu a sorted return_inverse axis r :
  split a = None →
  unique tu a sorted return_inverse axis = Ok r →
  is_handle r.1 = false.
Proof.
  intros Hs. unfold unique. rewrite Hs.
  destruct (mapM _ _) as [rs|e]; simpl; [|discriminate].
  intros [= <-]. by destruct return_inverse.
Qed.

Lemma unique_unsplit_witness :
  unique torch_unique_model unsplit_vec true false None
  = Ok (TorchTensors [Tensor [3] [1; 2; 3]%Z], [])
  ∧ is_handle (TorchTensors [Tensor [3] [1; 2; 3]%Z]) = false.
Proof.
  split; [vm_compute; reflexivity|].
  apply (unique_unsplit_is_no_handle torch_unique_model unsplit_vec true false None
           (TorchTensors [Tensor [3] [1; 2; 3]%Z], [])); reflexivity.
Defined.

(** X2.  On a split array [unique] does return a handle, with the inverse
    map when it was asked for; the result is unsplit when no axis was given
    and split along the axis of the input otherwise. *)
Lemma unique_split_layout tu a s sorted return_inverse axis r :
  split a = Some s →
  unique tu a sorted return_inverse axis = Ok r →
  ∃ d, (if return_inverse then ∃ inv, r.1 = HandleAndInverse d inv else r.1 = Handle d)
       ∧ split d = match axis with None => None | Some _ => Some s end.
Proof.
  intros Hs. unfold unique. rewrite Hs. intros H.
  apply bind_Ok in H as (lr & _ & H).
  destruct (decide (axis = None ∨ axis = Some (Z.of_nat s))) as [Hcase|Hcase].
  - apply bind_Ok in H as (gres_buf & _ & H).
    apply bind_Ok in H as (inverse_buf & _ & H).
    apply bind_Ok in H as (g & _ & H).
    apply bind_Ok in H as (inverse_indices & _ & H).
    apply bind_Ok in H as (gres & _ & H).
    injection H as <-. eexists. split.
    + destruct return_inverse; eauto.
    + by destruct axis.
  - apply bind_Ok in H as (pos & _ & H).
    apply bind_Ok in H as (rows_taken & _ & H).
    apply bind_Ok in H as (gres & _ & H).
    injection H as <-. eexists. split.
    + destruct return_inverse; eauto.
    + destruct axis; [done|]. destruct Hcase. by left.
Qed.

(** [two_by_four] along axis 1: a handle split along axis 0. *)
Lemma unique_split_layout_witness :
  ∃ r, unique torch_unique_model two_by_four true false (Some 1%Z) = Ok r
       ∧ ∃ d, r.1 = Handle d ∧ split d = Some 0.
Proof.
  eexists. split; [vm_compute; reflexivity|].
  apply (unique_split_layout torch_unique_model two_by_four 0 true false (Some 1%Z));
    [reflexivity|vm_compute; reflexivity].
Defined.

Lemma bind_Ok_l {A B} (x : A) (f : A → result B) : Ok x ≫= f = f x.
Proof. done. Qed.

Lemma allgatherv_Ok bufs counts :
  lshape_at 0 <$> bufs = counts → allgatherv bufs counts = Ok (concat0 bufs).
Proof. intros H. unfold allgatherv. by rewrite decide_True. Qed.

Lemma mapM_Ok_Forall2 {A B} (f : A → result B) l k :
  mapM f l = Ok k → Forall2 (λ x y, f x = Ok y) l k.
Proof.
  revert k. induction l as [|x l IH]; intros k; simpl.
  - intros [= <-]. constructor.
  - intros H. apply bind_Ok in H as (y & Hy & H). apply bind_Ok in H as (k' & Hk' & H).
    injection H as <-. constructor; [done|by apply IH].
Qed.

Lemma mapM_is_ok {A B} (f : A → result B) l :
  Forall (λ x, is_ok (f x) = true) l → is_ok (mapM f l) = true.
Proof.
  induction 1 as [|x l Hx _ IH]; [done|]. simpl.
  destruct (f x); [|done]. simpl. by destruct (mapM f l).
Qed.

Lemma mapM_Ok_all {A B} (f : A → result B) l k :
  mapM f l = Ok k → Forall (λ x, is_ok (f x) = true) l.
Proof.
  revert k. induction l as [|x l IH]; intros k; simpl; [by constructor|].
  intros H. apply bind_Ok in H as (y & Hy & H). apply bind_Ok in H as (k' & Hk' & _).
  constructor; [by rewrite Hy|by eapply IH].
Qed.

Lemma mapM_raises {A B} (f : A → result B) l e x :
  Forall (λ x, f x = Raise e ∨ is_ok (f x) = true) l →
  x ∈ l → f x = Raise e → mapM f l = Raise e.
Proof.
  intros Hall Hx Hfx. induction Hall as [|y l Hy _ IH]; [by apply elem_of_nil in Hx|].
  simpl. destruct Hy as [->|Hy]; [done|].
  destruct (f y) as [z|] eqn:Hfy; [simpl|done].
  apply elem_of_cons in Hx as [->|Hx]; [congruence|]. by rewrite IH.
Qed.

(** The guard of lines 493-505: on a chunk without elements along the
    split axis the local step does not consult the primitive; whatever
    [torch.unique] does, the step returns an empty list of distinct values
    and an empty inverse map, of one dimension when an axis is given. *)
Lemma local_unique_empty tu gsh s axis sorted (local : tensor) r :
  lshape_at s local = 0 →
  local_unique tu gsh s axis sorted local = Ok r →
  (∀ tu', local_unique tu' gsh s axis sorted local = Ok r)
  ∧ data r.1 = [] ∧ data r.2 = []
  ∧ (is_Some axis → lshape_at 0 r.1 = 0 ∧ shape r.2 = [0]).
Proof.
  intros Hempty. unfold local_unique.
  destruct (local_data axis local) as [ld|]; [simpl|done].
  rewrite decide_True by done. destruct axis as [ax|]; intros [= <-]; simpl.
  - split; [intros tu'; by rewrite decide_True|].
    do 2 (split; [done|]). intros _. split; [|done].
    unfold lshape_at. simpl. by destruct (shape ld).
  - split; [intros tu'; by rewrite decide_True|].
    do 2 (split; [done|]). by intros [? [=]].
Qed.

(** C10.  The guard covers the local step only.  With [return_inverse] and
    the split axis [s ≥ 1] as axis, a rank whose chunk is empty gets
    through the local step with an inverse map of shape [(0,)], and line
    548 writes entry [s] of that shape: [unique] raises, on this rank as on
    the others, for every behaviour of [torch.unique]; when the local step
    succeeded on every rank the exception is the IndexError of line 548. *)
Theorem unique_empty_slice_raises tu a s sorted t :
  split a = Some s → 0 < s →
  t ∈ larray a → lshape_at s t = 0 →
  ∃ e, unique tu a sorted true (Some (Z.of_nat s)) = Raise e
       ∧ (Forall (λ t, is_ok (local_unique tu (gshape a) s (Some (Z.of_nat s)) sorted t)
                       = true) (larray a)
          → e = IndexError).
Proof.
  intros Hs Hpos Ht Hempty. unfold unique. rewrite Hs.
  destruct (mapM _ (larray a)) as [lr|e] eqn:Hlr.
  2:{ exists e. split; [done|]. intros Hall. apply mapM_is_ok in Hall.
      by rewrite Hlr in Hall. }
  exists IndexError. split; [|done].
  rewrite bind_Ok_l, decide_True by (by right).
  rewrite (allgatherv_Ok lr.*1) by done. rewrite bind_Ok_l.
  apply mapM_Ok_Forall2 in Hlr.
  apply list_elem_of_lookup in Ht as [i Hi].
  destruct (Forall2_lookup_l _ _ _ _ _ Hlr Hi) as (r & Hr & Hlocal).
  destruct (local_unique_empty _ _ _ _ _ _ _ Hempty Hlocal) as (_ & _ & _ & Hshape).
  destruct (Hshape ltac:(done)) as [_ Hinv].
  rewrite (mapM_raises _ _ IndexError r.2); [done| | |].
  - apply Forall_forall. intros ip _. case_decide; [by right|by left].
  - apply list_elem_of_fmap_2. by eapply list_elem_of_lookup_2.
  - rewrite Hinv. simpl. rewrite decide_False by lia. done.
Qed.

(** [one_column_on_two] along axis 1: rank 1 holds nothing. *)
Lemma unique_empty_slice_raises_witness :
  unique torch_unique_model one_column_on_two true true (Some 1%Z) = Raise IndexError
  ∧ ∃ e, unique torch_unique_model one_column_on_two true true (Some (Z.of_nat 1))
         = Raise e
         ∧ (Forall (λ t, is_ok (local_unique torch_unique_model (gshape one_column_on_two) 1
                                  (Some (Z.of_nat 1)) true t) = true)
                   (larray one_column_on_two)
            → e = IndexError).
Proof.
  split; [vm_compute; reflexivity|].
  apply (unique_empty_slice_raises torch_unique_model one_column_on_two 1 true
           (Tensor [2; 0] [])).
  - reflexivity.
  - lia.
  - right. left.
  - reflexivity.
Defined.

(** ** [unique] without axis: the flat result *)

Lemma lex_lt_irrefl a : ¬ lex_lt a a.
Proof.
  unfold lex_lt. induction a as [|x a IH]; simpl; [done|].
  rewrite bool_decide_eq_false_2 by lia. rewrite bool_decide_eq_true_2 by done. done.
Qed.

Lemma lex_lt_trans a b c : lex_lt a b → lex_lt b c → lex_lt a c.
Proof.
  unfold lex_lt. revert b c. induction a as [|x a IH]; intros [|y b] [|z c]; simpl; try done.
  rewrite !orb_true_iff, !andb_true_iff, !bool_decide_eq_true.
  intros [Hxy|[-> Hab]] [Hyz|[-> Hbc]]; eauto with lia.
Qed.

Lemma lex_lt_total a b : lex_ltb a b = false → a ≠ b → lex_lt b a.
Proof.
  unfold lex_lt. revert b. induction a as [|x a IH]; intros [|y b]; simpl; try done.
  intros Hab Hne. apply orb_false_iff in Hab as [Hxy Hab].
  apply bool_decide_eq_false in Hxy.
  destruct (decide (y < x)%Z) as [Hlt|Hge]; [by rewrite bool_decide_eq_true_2|].
  assert (x = y) as -> by lia.
  rewrite bool_decide_eq_true_2 in Hab by done. simpl in Hab.
  rewrite bool_decide_eq_false_2 by lia. rewrite bool_decide_eq_true_2 by done. simpl.
  apply IH; [done|congruence].
Qed.

Lemma elem_of_insert_unique q r l : q ∈ insert_unique r l ↔ q = r ∨ q ∈ l.
Proof.
  induction l as [|x l IH]; simpl.
  - rewrite list_elem_of_singleton, elem_of_nil. tauto.
  - destruct (lex_ltb r x); [by rewrite elem_of_cons|].
    destruct (decide (r = x)) as [->|]; [rewrite elem_of_cons; tauto|].
    rewrite !elem_of_cons, IH. tauto.
Qed.

Lemma elem_of_unique_rows r (m : matrix) : r ∈ unique_rows m ↔ r ∈ m.
Proof.
  unfold unique_rows. induction m as [|x m IH]; simpl; [done|].
  rewrite elem_of_insert_unique, elem_of_cons, IH. done.
Qed.

Lemma insert_unique_sorted r l :
  StronglySorted lex_lt l → StronglySorted lex_lt (insert_unique r l).
Proof.
  induction 1 as [|x l Hl IH Hx]; simpl; [by repeat constructor|].
  destruct (lex_ltb r x) eqn:Hrx.
  - constructor; [by constructor|]. constructor; [done|].
    eapply Forall_impl; [exact Hx|]. intros y Hy. by eapply lex_lt_trans.
  - destruct (decide (r = x)) as [->|Hne]; [by constructor|].
    constructor; [done|]. apply Forall_forall. intros y Hy.
    apply elem_of_insert_unique in Hy as [->|Hy]; [by apply lex_lt_total|].
    rewrite Forall_forall in Hx. by apply Hx.
Qed.

Lemma unique_rows_sorted (m : matrix) : StronglySorted lex_lt (unique_rows m).
Proof.
  unfold unique_rows. induction m as [|x m IH]; simpl; [constructor|].
  by apply insert_unique_sorted.
Qed.

(** The distinct rows come out once each. *)
Lemma unique_rows_NoDup (m : matrix) : NoDup (unique_rows m).
Proof.
  induction (unique_rows_sorted m) as [|x l _ IH Hx]; constructor; [|done].
  intros Hin. rewrite Forall_forall in Hx. by apply (lex_lt_irrefl x), Hx.
Qed.

(** The place the inverse map gives a row holds that row. *)
Lemma inverse_of_lookup (u m : list (list Z)) i r :
  m !! i = Some r → r ∈ u →
  ∃ k, inverse_of u m !! i = Some (Z.of_nat k) ∧ u !! k = Some r.
Proof.
  intros Hi Hr. unfold inverse_of.
  destruct (list_find (λ x, x = r) u) as [[k y]|] eqn:Hf.
  - exists k. rewrite list_lookup_fmap, Hi. simpl. rewrite Hf.
    apply list_find_Some in Hf as (Hk & -> & _). done.
  - apply list_find_None in Hf. rewrite Forall_forall in Hf. by destruct (Hf r Hr).
Qed.

Lemma singleton_rows (u : list (list Z)) :
  Forall (λ r, ∃ x, r = [x]) u → u = (λ x, [x]) <$> mjoin u.
Proof.
  induction 1 as [|r u [x ->] _ IH]; [done|]. csimpl. by rewrite <- IH.
Qed.

Lemma unique_rows_singletons (l : list Z) :
  unique_rows ((λ x, [x]) <$> l) = (λ x, [x]) <$> flat_unique l.
Proof.
  apply singleton_rows, Forall_forall. intros r Hr.
  apply elem_of_unique_rows, list_elem_of_fmap in Hr as (x & -> & _). eauto.
Qed.

#[local] Instance singleton_inj : Inj (=) (=) (λ x : Z, [x]).
Proof. by intros x y [= ->]. Qed.

Lemma elem_of_flat_unique x l : x ∈ flat_unique l ↔ x ∈ l.
Proof.
  rewrite <- (list_elem_of_fmap_inj (λ x : Z, [x]) (flat_unique l)).
  rewrite <- unique_rows_singletons, elem_of_unique_rows.
  apply (list_elem_of_fmap_inj (λ x : Z, [x])).
Qed.

Lemma NoDup_flat_unique l : NoDup (flat_unique l).
Proof.
  apply (NoDup_fmap_1 (λ x : Z, [x])). rewrite <- unique_rows_singletons.
  apply unique_rows_NoDup.
Qed.

Lemma length_flat_unique l :
  length (unique_rows ((λ x, [x]) <$> l)) = length (flat_unique l).
Proof. by rewrite unique_rows_singletons, length_fmap. Qed.

Lemma mapM_Ok_fmap {A B} (f : A → result B) (g : A → B) l :
  Forall (λ x, f x = Ok (g x)) l → mapM f l = Ok (g <$> l).
Proof.
  induction 1 as [|x l Hx _ IH]; [done|]. simpl. rewrite Hx. simpl. by rewrite IH.
Qed.

Lemma local_unique_flat gsh s sorted t :
  chunk_ok s t →
  local_unique torch_unique_model gsh s None sorted t = Ok (local_flat gsh s t).
Proof.
  intros [Hz Hnz]. unfold local_unique, local_flat.
  destruct (decide (lshape_at s t = 0)) as [H0|H0].
  - by rewrite (Hz H0).
  - unfold torch_unique_model. simpl. rewrite decide_False by auto.
    by rewrite length_flat_unique.
Qed.

Lemma elem_of_mjoin_fmap {A B} (f : A → list B) (l : list A) y :
  y ∈ mjoin (f <$> l) ↔ ∃ x, x ∈ l ∧ y ∈ f x.
Proof.
  rewrite list_elem_of_join. split.
  - intros (k & Hy & Hk). apply list_elem_of_fmap in Hk as (x & -> & Hx). eauto.
  - intros (x & Hx & Hy). exists (f x). split; [done|]. by apply list_elem_of_fmap_2.
Qed.

(** X3.  On a split array that holds at least one element, [unique] without
    axis returns an unsplit handle whose values are the values of the
    array, each of them once. *)
Lemma unique_flat_correct a s sorted :
  split a = Some s →
  Forall (chunk_ok s) (larray a) →
  values a ≠ [] →
  ∃ d calls,
    unique torch_unique_model a sorted false None = Ok (Handle d, calls)
    ∧ split d = None
    ∧ NoDup (data (global_tensor d))
    ∧ ∀ x, x ∈ data (global_tensor d) ↔ x ∈ values a.
Proof.
  intros Hs Hchunks Hne. unfold unique. rewrite Hs.
  rewrite (mapM_Ok_fmap _ (local_flat (gshape a) s));
    [|eapply Forall_impl; [exact Hchunks|]; intros t Ht; by apply local_unique_flat].
  simpl. unfold allgatherv. rewrite decide_True by done. simpl.
  set (lres := (local_flat (gshape a) s <$> larray a).*1).
  assert (data (concat0 lres) = mjoin ((λ t, flat_unique (data t)) <$> larray a)) as Hdata.
  { unfold concat0, lres. simpl. f_equal. rewrite <- !list_fmap_compose. done. }
  assert (∀ x, x ∈ data (concat0 lres) ↔ x ∈ values a) as Hmem.
  { intros x. rewrite Hdata. unfold values.
    rewrite !elem_of_mjoin_fmap. by setoid_rewrite elem_of_flat_unique. }
  assert (shape (concat0 lres)
          = [foldr Nat.add 0 ((λ t, length (flat_unique (data t))) <$> larray a)])
    as Hshape.
  { unfold concat0, lres. simpl. f_equal.
    - f_equal. rewrite <- !list_fmap_compose. done.
    - by destruct (larray a). }
  assert (data (concat0 lres) ≠ []) as Hbuf.
  { destruct (values a) as [|x vs] eqn:Hv; [done|].
    assert (x ∈ data (concat0 lres)) as Hx by (apply Hmem; left).
    intros Hnil. rewrite Hnil in Hx. by apply elem_of_nil in Hx. }
  assert (numel (shape (concat0 lres)) = length (data (concat0 lres))) as Hnumel.
  { rewrite Hshape, Hdata. simpl. rewrite Nat.mul_1_r.
    clear. induction (larray a) as [|t l IH]; [done|].
    simpl. rewrite length_app. by f_equal. }
  unfold torch_unique_model at 1. rewrite decide_False;
    [|rewrite Hnumel; by destruct (data (concat0 lres))].
  simpl. eexists _, _. split; [reflexivity|].
  assert (larray a ≠ []) as Hranks by (intros Hnil; unfold values in Hne; by rewrite Hnil in Hne).
  unfold global_tensor. simpl. split; [done|].
  replace (head (replicate (comm_size a) _)) with
    (Some (Tensor [length (unique_rows ((λ x, [x]) <$> data (concat0 lres)))]
                  (flat_unique (data (concat0 lres))))).
  2:{ unfold comm_size. destruct (larray a); [done|]. done. }
  simpl. split; [apply NoDup_flat_unique|].
  intros x. by rewrite elem_of_flat_unique.
Qed.

(** [four_rows] holds 5, 5, 7 and 9. *)
Lemma unique_flat_correct_witness :
  ∃ d calls,
    unique torch_unique_model four_rows true false None = Ok (Handle d, calls)
    ∧ split d = None
    ∧ NoDup (data (global_tensor d))
    ∧ ∀ x, x ∈ data (global_tensor d) ↔ x ∈ values four_rows.
Proof.
  apply (unique_flat_correct four_rows 0 true).
  - reflexivity.
  - repeat constructor; simpl; try done; vm_compute; lia.
  - discriminate.
Defined.

(** ** [unique] along an axis *)

(** C4.  [two_by_four] has the four distinct columns (1,5) (1,6) (2,6)
    (3,6).  Rank 0 holds three distinct local columns, rank 1 two, so rank 0
    is the coordinator; its first occurrences are the columns 0, 2 and 3,
    and the result is made of these three columns: (1,6) is missing. *)
Theorem unique_misses_a_column :
  ∃ d calls,
    unique torch_unique_model two_by_four true false (Some 1%Z) = Ok (Handle d, calls)
    ∧ columns (global_tensor d) = [[1; 5]; [2; 6]; [3; 6]]%Z
    ∧ [1; 6]%Z ∈ columns (global_tensor two_by_four)
    ∧ [1; 6]%Z ∉ columns (global_tensor d).
Proof.
  eexists _, _. split; [vm_compute; reflexivity|].
  split; [vm_compute; reflexivity|]. split.
  - apply list_elem_of_In. vm_compute. tauto.
  - intros Hin. apply list_elem_of_In in Hin. vm_compute in Hin.
    intuition discriminate.
Qed.

(** C5.  On [four_rows] along axis 0 the distinct rows are 5, 7, 9 and the
    inverse map comes out as 0 1 1 2: row 1 of the input is 5, but
    [inverse_indices[1]] is 1 and row 1 of the result is 7. *)
Theorem unique_inverse_is_off :
  ∃ d inverse_indices calls,
    unique torch_unique_model four_rows true true (Some 0%Z)
    = Ok (HandleAndInverse d inverse_indices, calls)
    ∧ rows (global_tensor d) = [[5]; [7]; [9]]%Z
    ∧ data inverse_indices = [0; 1; 1; 2]%Z
    ∧ rows (global_tensor four_rows) !! 1 = Some [5%Z]
    ∧ rows (global_tensor d) !! 1 = Some [7%Z].
Proof.
  eexists _, _, _. split; [vm_compute; reflexivity|].
  repeat split; vm_compute; reflexivity.
Qed.

(** ** [expand_dims] and [squeeze] *)

Lemma sanitize_axis_Ok sh axis k :
  sanitize_axis sh axis = Ok k →
  k < length sh
  ∧ (- Z.of_nat (length sh) ≤ axis < Z.of_nat (length sh))%Z
  ∧ Z.of_nat k = (if decide (axis < 0)%Z then Z.of_nat (length sh) + axis else axis)%Z.
Proof.
  unfold sanitize_axis. repeat case_decide; intros [= <-]; repeat split; lia.
Qed.

Lemma sanitize_axis_Raise sh axis e :
  sanitize_axis sh axis = Raise e →
  e = ValueError ∧ ¬ (- Z.of_nat (length sh) ≤ axis < Z.of_nat (length sh))%Z.
Proof.
  unfold sanitize_axis. repeat case_decide; intros [= <-]; split; [done|lia].
Qed.

Lemma delete_take_drop {A} (l : list A) k x :
  k ≤ length l → delete k (take k l ++ x :: drop k l) = l.
Proof.
  revert k. induction l as [|y l IH]; intros [|k] Hk; simpl in *; try done; try lia.
  f_equal. apply IH. lia.
Qed.

Lemma lookup_take_drop {A} (l : list A) k x :
  k ≤ length l → (take k l ++ x :: drop k l) !! k = Some x.
Proof.
  intros Hk. rewrite lookup_app_r; rewrite length_take; [|lia].
  by replace (k - k `min` length l) with 0 by lia.
Qed.

Lemma numel_app l1 l2 : numel (l1 ++ l2) = numel l1 * numel l2.
Proof. induction l1 as [|x l1 IH]; simpl; [lia|]. rewrite IH. lia. Qed.

Lemma numel_take_drop l k : numel (take k l ++ 1 :: drop k l) = numel l.
Proof.
  rewrite numel_app. simpl. rewrite Nat.add_0_r, <- numel_app.
  by rewrite take_drop.
Qed.

(** The new axis in the shape once the old split axis is marked. *)
Lemma unsqueeze_insert (g : list nat) k s n :
  k ≤ length g →
  take k (<[s := n]> g) ++ 1 :: drop k (<[s := n]> g)
  = <[(if decide (s < k) then s else s + 1) := n]> (take k g ++ 1 :: drop k g).
Proof.
  intros Hk. case_decide as Hs.
  - rewrite take_insert_lt, drop_insert_lt by lia.
    rewrite insert_app_l; [done|]. rewrite length_take. lia.
  - rewrite take_insert_ge, drop_insert_ge by lia.
    rewrite insert_app_r_alt; rewrite length_take; [|lia].
    by replace (s + 1 - k `min` length g) with (S (s - k)) by lia.
Qed.

Lemma unsqueeze_Ok t k t' :
  unsqueeze t k = Ok t' →
  k ≤ length (shape t)
  ∧ shape t' = take k (shape t) ++ 1 :: drop k (shape t) ∧ data t' = data t.
Proof. unfold unsqueeze. case_decide; intros [= <-]; done. Qed.

Lemma wf_shape_length a t :
  wf_DNDarray a → t ∈ larray a → length (shape t) = length (gshape a).
Proof.
  intros Hwf Ht. unfold wf_DNDarray in Hwf. rewrite Forall_forall in Hwf.
  destruct (Hwf t Ht) as [_ Hsh]. destruct (split a) as [s|].
  - destruct Hsh as [m ->]. apply length_insert.
  - by rewrite Hsh.
Qed.

(** X4.  On a well-formed array [expand_dims] returns exactly when the axis
    lies between [-(n+1)] and [n], [n] the number of dimensions; any other
    axis raises ValueError. *)
Theorem expand_dims_axis_range a axis :
  wf_DNDarray a →
  is_ok (expand_dims a axis)
  = bool_decide (- Z.of_nat (length (gshape a)) - 1 ≤ axis ≤ Z.of_nat (length (gshape a)))%Z
  ∧ ∀ e, expand_dims a axis = Raise e → e = ValueError.
Proof.
  intros Hwf. unfold expand_dims.
  destruct (sanitize_axis (gshape a ++ [1]) axis) as [k|e] eqn:Hsan; simpl.
  - apply sanitize_axis_Ok in Hsan as (Hk & Hr & _).
    rewrite length_app in Hk, Hr. simpl in Hk, Hr.
    assert (is_ok (mapM (λ t, unsqueeze t k) (larray a)) = true) as Hok.
    { apply mapM_is_ok, Forall_forall. intros t Ht. unfold unsqueeze.
      rewrite (wf_shape_length a t Hwf Ht). rewrite decide_True by lia. done. }
    destruct (mapM _ _) as [arr|]; [simpl|done].
    split; [|done]. symmetry. apply bool_decide_eq_true. lia.
  - apply sanitize_axis_Raise in Hsan as [-> Hr].
    rewrite length_app in Hr. simpl in Hr.
    split; [|by intros e [= <-]]. symmetry. apply bool_decide_eq_false. lia.
Qed.

Lemma expand_dims_axis_range_witness :
  wf_DNDarray six_on_two
  ∧ is_ok (expand_dims six_on_two (-3))
    = bool_decide (- Z.of_nat (length (gshape six_on_two)) - 1 ≤ -3
                   ≤ Z.of_nat (length (gshape six_on_two)))%Z
  ∧ ∀ e, expand_dims six_on_two (-3) = Raise e → e = ValueError.
Proof.
  split; [apply wf_col_array|].
  apply (expand_dims_axis_range six_on_two (-3)), wf_col_array.
Defined.

(** X5.  What [expand_dims] returns has a dimension of extent one at the
    axis asked for (counted from the end when negative), globally and on
    every rank; without it the shapes are the old ones, and the elements of
    every rank are unchanged. *)
Theorem expand_dims_inserts_one a axis r :
  expand_dims a axis = Ok r →
  ∃ k, Z.of_nat k = (if decide (axis < 0)%Z
                     then Z.of_nat (length (gshape a)) + 1 + axis else axis)%Z
       ∧ gshape r !! k = Some 1
       ∧ delete k (gshape r) = gshape a
       ∧ Forall2 (λ t t', shape t' !! k = Some 1
                          ∧ delete k (shape t') = shape t
                          ∧ data t' = data t) (larray a) (larray r).
Proof.
  unfold expand_dims. intros H.
  apply bind_Ok in H as (k & Hsan & H). apply bind_Ok in H as (arr & Harr & H).
  injection H as <-. simpl.
  apply sanitize_axis_Ok in Hsan as (Hk & _ & Hkz).
  rewrite length_app in Hk, Hkz. simpl in Hk, Hkz.
  exists k. split; [case_decide; lia|].
  split; [apply lookup_take_drop; lia|].
  split; [apply delete_take_drop; lia|].
  apply mapM_Ok_Forall2 in Harr.
  eapply Forall2_impl; [exact Harr|]. intros t t' Ht. simpl in Ht.
  apply unsqueeze_Ok in Ht as (Hkt & -> & ->).
  split; [by apply lookup_take_drop|]. split; [by apply delete_take_drop|done].
Qed.

Lemma expand_dims_inserts_one_witness :
  ∃ r, expand_dims six_on_two (-1) = Ok r
       ∧ ∃ k, Z.of_nat k = (if decide (-1 < 0)%Z
                            then Z.of_nat (length (gshape six_on_two)) + 1 + -1 else -1)%Z
              ∧ gshape r !! k = Some 1
              ∧ delete k (gshape r) = gshape six_on_two
              ∧ Forall2 (λ t t', shape t' !! k = Some 1
                                 ∧ delete k (shape t') = shape t
                                 ∧ data t' = data t) (larray six_on_two) (larray r).
Proof.
  eexists. split; [vm_compute; reflexivity|].
  apply (expand_dims_inserts_one six_on_two (-1)). vm_compute. reflexivity.
Defined.

(** X6.  [expand_dims] keeps the layout: the result is well-formed, and its
    split axis is the dimension the input was split along, with the same
    global extent and the same chunk lengths. *)
Theorem expand_dims_keeps_layout a axis r :
  wf_DNDarray a →
  expand_dims a axis = Ok r →
  wf_DNDarray r
  ∧ ∀ s, split a = Some s →
         ∃ s', split r = Some s'
               ∧ gshape r !! s' = gshape a !! s
               ∧ lshape_at s' <$> larray r = lshape_at s <$> larray a.
Proof.
  intros Hwf. unfold expand_dims. intros H.
  apply bind_Ok in H as (k & Hsan & H). apply bind_Ok in H as (arr & Harr & H).
  injection H as <-.
  apply sanitize_axis_Ok in Hsan as (Hk & _ & _). rewrite length_app in Hk. simpl in Hk.
  apply mapM_Ok_Forall2 in Harr.
  assert (∀ (g : list nat) s, k ≤ length g →
            (take k g ++ 1 :: drop k g) !! (if decide (s < k) then s else s + 1) = g !! s)
    as Hlook.
  { intros g s Hg. case_decide.
    - rewrite lookup_app_l by (rewrite length_take; lia). by rewrite lookup_take_lt.
    - rewrite lookup_app_r; rewrite length_take; [|lia].
      replace (s + 1 - k `min` length g) with (S (s - k)) by lia. simpl.
      rewrite lookup_drop. f_equal. lia. }
  split.
  - unfold wf_DNDarray in *. simpl.
    rewrite Forall_forall in Hwf. apply Forall_forall. intros t' Ht'.
    apply list_elem_of_lookup in Ht' as [i Hi].
    destruct (Forall2_lookup_r _ _ _ _ _ Harr Hi) as (t & Hti & Ht).
    apply unsqueeze_Ok in Ht as (Hkt & Hsh & Hd).
    destruct (Hwf t (list_elem_of_lookup_2 _ _ _ Hti)) as [Hlen Hlay].
    split; [by rewrite Hd, Hsh, numel_take_drop|].
    rewrite Hsh. destruct (split a) as [s|]; simpl.
    + destruct Hlay as [n Hn]. exists n. rewrite Hn. apply unsqueeze_insert. lia.
    + by rewrite Hlay.
  - intros s Hs. rewrite Hs. simpl. eexists. split; [done|].
    split; [apply Hlook; lia|].
    apply list_eq. intros i. rewrite !list_lookup_fmap.
    destruct (larray a !! i) as [t|] eqn:Hti.
    + destruct (Forall2_lookup_l _ _ _ _ _ Harr Hti) as (t' & -> & Ht).
      apply unsqueeze_Ok in Ht as (Hkt & Hsh & _). simpl. f_equal.
      unfold lshape_at. by rewrite Hsh, Hlook.
    + apply Forall2_length in Harr. apply lookup_ge_None in Hti.
      rewrite (proj2 (lookup_ge_None arr i)) by lia. done.
Qed.

Lemma expand_dims_keeps_layout_witness :
  ∃ r, expand_dims six_on_two 0 = Ok r
       ∧ wf_DNDarray r
       ∧ ∀ s, split six_on_two = Some s →
              ∃ s', split r = Some s'
                    ∧ gshape r !! s' = gshape six_on_two !! s
                    ∧ lshape_at s' <$> larray r = lshape_at s <$> larray six_on_two.
Proof.
  eexists. split; [vm_compute; reflexivity|].
  apply (expand_dims_keeps_layout six_on_two 0); [apply wf_col_array|].
  vm_compute. reflexivity.
Defined.



Lemma omap_ext_in {A B} (f g : A → option B) (l : list A) :
  (∀ x, x ∈ l → f x = g x) → omap f l = omap g l.
Proof.
  induction l as [|x l IH]; intros H; [done|]. csimpl.
  rewrite (H x) by left. rewrite IH; [done|]. intros y Hy. apply H. by right.
Qed.

Lemma drop_axes_snoc axis sh d :
  drop_axes axis (sh ++ [d])
  = drop_axes axis sh ++ (if decide (length sh ∈ axis) then [] else [d]).
Proof.
  unfold drop_axes. rewrite length_app. simpl. rewrite seq_app, omap_app. f_equal.
  - apply omap_ext_in. intros k Hk. apply elem_of_seq in Hk.
    case_decide; [done|]. by rewrite lookup_app_l by lia.
  - csimpl. case_decide; [done|]. by rewrite list_lookup_middle.
Qed.

Lemma unit_axes_snoc sh d :
  unit_axes (sh ++ [d]) = unit_axes sh ++ (if decide (d = 1) then [length sh] else []).
Proof.
  unfold unit_axes. rewrite imap_app, filter_app, fmap_app. f_equal.
  simpl. rewrite Nat.add_0_r. unfold filter. simpl.
  repeat case_decide; simpl in *; done.
Qed.

Lemma elem_of_unit_axes k sh : k ∈ unit_axes sh ↔ sh !! k = Some 1.
Proof.
  unfold unit_axes. rewrite list_elem_of_fmap. split.
  - intros ([i d] & -> & Hid). apply list_elem_of_filter in Hid as [Hd Hid].
    apply elem_of_lookup_imap in Hid as (j & y & [= -> ->] & Hj). simpl in *. by subst.
  - intros Hk. exists (k, 1). split; [done|]. apply list_elem_of_filter. split; [done|].
    by apply (elem_of_lookup_imap_2 pair).
Qed.

(** Leaving out the one axis [k]. *)
Lemma drop_axes_singleton k sh : drop_axes [k] sh = delete k sh.
Proof.
  induction sh as [|d sh IH] using rev_ind; [by destruct k|].
  rewrite drop_axes_snoc, IH. case_decide as Hk.
  - apply list_elem_of_singleton in Hk as <-.
    rewrite app_nil_r. rewrite delete_middle, app_nil_r.
    apply list_eq. intros i. rewrite list_lookup_delete.
    case_decide; [done|]. rewrite !(proj2 (lookup_ge_None _ _)) by lia. done.
  - rewrite list_elem_of_singleton in Hk.
    apply list_eq. intros i.
    destruct (decide (k < length sh)) as [Hlt|Hge].
    + rewrite list_lookup_delete.
      destruct (decide (i < length sh - 1)) as [Hi|Hi].
      * rewrite lookup_app_l by (rewrite length_delete; [lia|by apply lookup_lt_is_Some_2]).
        rewrite list_lookup_delete. case_decide; by rewrite lookup_app_l by lia.
      * rewrite lookup_app_r by (rewrite length_delete; [lia|by apply lookup_lt_is_Some_2]).
        rewrite length_delete by (by apply lookup_lt_is_Some_2).
        rewrite decide_False by lia. rewrite lookup_app_r by lia.
        f_equal. lia.
    + assert (∀ l : list nat, length l ≤ k → delete k l = l) as Hdel.
      { intros l Hl. apply list_eq. intros j. rewrite list_lookup_delete.
        case_decide; [done|]. rewrite !(proj2 (lookup_ge_None _ _)) by lia. done. }
      rewrite !Hdel; [done|rewrite length_app; simpl; lia|lia].
Qed.

(** Leaving out the axes of extent one. *)
Lemma drop_axes_unit axis sh :
  (∀ k, k < length sh → k ∈ axis ↔ sh !! k = Some 1) →
  drop_axes axis sh = filter (λ d, d ≠ 1) sh.
Proof.
  induction sh as [|d sh IH] using rev_ind; intros H; [done|].
  rewrite drop_axes_snoc, filter_app, IH.
  - f_equal. specialize (H (length sh)). rewrite length_app in H. simpl in H.
    rewrite list_lookup_middle in H by done.
    assert (length sh ∈ axis ↔ d = 1) as Hd.
    { rewrite H by lia. split; [by intros [= ->]|by intros ->]. }
    unfold filter. simpl. repeat case_decide; try done; tauto.
  - intros k Hk. rewrite (H k) by (rewrite length_app; simpl; lia).
    by rewrite lookup_app_l by lia.
Qed.

Lemma numel_drop_axes axis sh :
  (∀ k, k ∈ axis → k < length sh → sh !! k = Some 1) →
  numel (drop_axes axis sh) = numel sh.
Proof.
  induction sh as [|d sh IH] using rev_ind; intros H; [done|].
  rewrite drop_axes_snoc, !numel_app, IH.
  - f_equal. case_decide as Hk; [|done].
    specialize (H _ Hk). rewrite length_app in H. simpl in H.
    rewrite list_lookup_middle in H by done. simpl.
    assert (d = 1) as -> by (injection (H ltac:(lia)) as ->; done). done.
  - intros k Hk Hlt. specialize (H k Hk). rewrite length_app in H. simpl in H.
    rewrite lookup_app_l in H by lia. apply H. lia.
Qed.

Lemma NoDup_unit_axes sh : NoDup (unit_axes sh).
Proof.
  induction sh as [|d sh IH] using rev_ind; [constructor|].
  rewrite unit_axes_snoc. apply NoDup_app. split; [done|]. split.
  - intros k Hk Hk'. apply elem_of_unit_axes, lookup_lt_Some in Hk.
    case_decide; [|by apply elem_of_nil in Hk'].
    apply list_elem_of_singleton in Hk'. lia.
  - case_decide; [apply NoDup_singleton|constructor].
Qed.

(** How many of the positions below [s] are among [axis]. *)
Lemma count_below_NoDup (axis : list nat) s :
  NoDup axis →
  length (filter (λ dim, dim < s) axis) = length (filter (λ d, d ∈ axis) (seq 0 s)).
Proof.
  intros Hnd. apply Permutation_length, NoDup_Permutation.
  - by apply NoDup_filter.
  - apply NoDup_filter, NoDup_seq.
  - intros k. rewrite !list_elem_of_filter, elem_of_seq. intuition lia.
Qed.

Lemma count_below_S (axis : list nat) s :
  length (filter (λ d, d ∈ axis) (seq 0 (S s)))
  = length (filter (λ d, d ∈ axis) (seq 0 s)) + (if decide (s ∈ axis) then 1 else 0).
Proof.
  rewrite seq_S, filter_app, length_app. f_equal. simpl.
  unfold filter. simpl. by case_decide.
Qed.

Lemma count_below_le (axis : list nat) s :
  length (filter (λ d, d ∈ axis) (seq 0 s)) ≤ s.
Proof. etransitivity; [apply length_filter|]. by rewrite length_seq. Qed.

Lemma count_below_gap (axis : list nat) s n :
  s ∉ axis → s < n →
  length (filter (λ d, d ∈ axis) (seq 0 n)) + s + 1
  ≤ n + length (filter (λ d, d ∈ axis) (seq 0 s)).
Proof.
  intros Hs. induction n as [|n IH]; intros Hn; [lia|].
  rewrite count_below_S. destruct (decide (s = n)) as [->|Hne].
  - rewrite decide_False by done. lia.
  - specialize (IH ltac:(lia)). case_decide; lia.
Qed.

Lemma length_drop_axes axis sh :
  length (drop_axes axis sh)
  = length sh - length (filter (λ d, d ∈ axis) (seq 0 (length sh))).
Proof.
  induction sh as [|d sh IH] using rev_ind; [done|].
  rewrite drop_axes_snoc, !length_app, IH. simpl.
  rewrite Nat.add_1_r, count_below_S.
  pose proof (count_below_le axis (length sh)). case_decide; simpl; lia.
Qed.

(** An axis that stays keeps its extent, at the place it moves to. *)
Lemma drop_axes_lookup axis sh s :
  s < length sh → s ∉ axis →
  drop_axes axis sh !! (s - length (filter (λ d, d ∈ axis) (seq 0 s))) = sh !! s.
Proof.
  induction sh as [|d sh IH] using rev_ind; intros Hs Hin; [simpl in Hs; lia|].
  rewrite length_app in Hs. simpl in Hs. rewrite drop_axes_snoc.
  pose proof (count_below_le axis s).
  destruct (decide (s = length sh)) as [->|Hne].
  - rewrite decide_False by done. rewrite !list_lookup_middle; [done..|].
    by rewrite length_drop_axes.
  - pose proof (count_below_gap axis s (length sh) Hin ltac:(lia)).
    rewrite !lookup_app_l; [apply IH; [lia|done]|lia|].
    rewrite length_drop_axes. pose proof (count_below_le axis (length sh)). lia.
Qed.

Lemma getitem_nat {A} (l : list A) k x :
  l !! k = Some x → Py.getitem l (Z.of_nat k) = Ok x.
Proof.
  intros Hk. unfold Py.getitem, Py.index.
  pose proof (lookup_lt_Some _ _ _ Hk).
  rewrite decide_True by lia. simpl. by rewrite Nat2Z.id, Hk.
Qed.

Lemma getitem_sanitized sh axis k :
  sanitize_axis sh axis = Ok k →
  Py.getitem sh (Z.of_nat k) = Py.getitem sh axis.
Proof.
  intros Hk. apply sanitize_axis_Ok in Hk as (Hlt & Hr & Hkz).
  destruct (lookup_lt_is_Some_2 sh k Hlt) as [d Hd].
  rewrite (getitem_nat _ _ _ Hd). unfold Py.getitem, Py.index.
  case_decide as Hneg.
  - rewrite decide_False, decide_True by lia. simpl.
    replace (Z.to_nat (Z.of_nat (length sh) + axis)) with k by lia. by rewrite Hd.
  - rewrite decide_True by lia. simpl. replace (Z.to_nat axis) with k by lia. by rewrite Hd.
Qed.

Lemma tensor_eta t : Tensor (shape t) (data t) = t.
Proof. by destruct t. Qed.

(** X7.  Without axis, on an array without split, [squeeze] removes exactly
    the dimensions of extent one, keeps the elements of every rank, does not
    communicate and does not raise. *)
Theorem squeeze_removes_unit_axes ag x :
  wf_DNDarray x → split x = None → larray x ≠ [] →
  squeeze ag x None
  = Ok ({| larray := (λ t, Tensor (filter (λ d, d ≠ 1) (gshape x)) (data t)) <$> larray x;
           gshape := filter (λ d, d ≠ 1) (gshape x);
           split := None |}, []).
Proof.
  intros Hwf Hs Hne. unfold squeeze. simpl.
  rewrite (mapM_Ok_fmap _ (λ t, Tensor (filter (λ d, d ≠ 1) (gshape x)) (data t))).
  - simpl. rewrite Hs. simpl.
    do 2 f_equal. destruct (larray x); [done|]. done.
  - unfold wf_DNDarray in Hwf. rewrite Hs in Hwf.
    eapply Forall_impl; [exact Hwf|]. intros t [_ Hsh]. simpl in *.
    unfold squeeze_local, reshape. rewrite Hs, Hsh.
    rewrite numel_drop_axes by (intros k Hk _; by apply elem_of_unit_axes).
    rewrite decide_True by done. simpl.
    by rewrite drop_axes_unit by (intros; apply elem_of_unit_axes).
Qed.

Lemma squeeze_removes_unit_axes_witness :
  squeeze gather_chunks replicated_row None
  = Ok ({| larray := [Tensor [3] [4; 5; 6]%Z; Tensor [3] [4; 5; 6]%Z];
           gshape := [3]; split := None |}, []).
Proof.
  apply (squeeze_removes_unit_axes gather_chunks replicated_row).
  - repeat constructor.
  - reflexivity.
  - discriminate.
Defined.

(** X8.  With an int axis, [squeeze] raises ValueError unless [x.shape[axis]]
    is one: an axis out of range, and a dimension of any other extent (zero
    as well). *)
Theorem squeeze_axis_must_be_one ag x axis :
  Py.getitem (gshape x) axis ≠ Ok 1 →
  squeeze ag x (Some axis) = Raise ValueError.
Proof.
  intros Hne. unfold squeeze.
  destruct (sanitize_axis (gshape x) axis) as [k|e] eqn:Hsan; simpl.
  - rewrite (getitem_sanitized _ _ _ Hsan).
    pose proof (sanitize_axis_Ok _ _ _ Hsan) as (Hlt & _ & _).
    destruct (lookup_lt_is_Some_2 _ _ Hlt) as [d Hd].
    rewrite <- (getitem_sanitized _ _ _ Hsan), (getitem_nat _ _ _ Hd) in Hne |- *. simpl.
    destruct (decide (d = 1)) as [->|Hd1]; [by destruct Hne|done].
  - by apply sanitize_axis_Raise in Hsan as [-> _].
Qed.

Lemma squeeze_axis_must_be_one_witness :
  Py.getitem (gshape six_on_two) 0 = Ok 6
  ∧ squeeze gather_chunks six_on_two (Some 0%Z) = Raise ValueError.
Proof.
  split; [reflexivity|].
  apply (squeeze_axis_must_be_one gather_chunks six_on_two 0). discriminate.
Defined.

(** X9.  [squeeze] undoes [expand_dims]: on an array of which every rank
    holds the whole (no split, or a single rank), squeezing the axis that
    [expand_dims] put in gives the array back, split axis included, without
    communication. *)
Theorem squeeze_expand_dims ag a axis b :
  larray a ≠ [] →
  Forall (λ t, shape t = gshape a) (larray a) →
  split a = None ∨ comm_size a = 1 →
  expand_dims a axis = Ok b →
  squeeze ag b (Some axis) = Ok (a, []).
Proof.
  intros Hne Hwhole Hlocal. unfold expand_dims. intros H.
  apply bind_Ok in H as (k & Hsan & H). apply bind_Ok in H as (arr & Harr & H).
  injection H as <-.
  pose proof (sanitize_axis_Ok _ _ _ Hsan) as (Hk & _ & _).
  rewrite length_app in Hk. simpl in Hk.
  assert (arr = (λ t, Tensor (take k (gshape a) ++ 1 :: drop k (gshape a)) (data t))
                <$> larray a) as ->.
  { apply mapM_Ok_Forall2 in Harr. clear -Harr Hwhole Hk.
    induction Harr as [|t t' l l' Ht _ IH]; [done|].
    apply Forall_cons in Hwhole as [Hsh Hwhole]. simpl. f_equal; [|by apply IH].
    apply unsqueeze_Ok in Ht as (_ & Hsh' & Hd). destruct t' as [sh' d'].
    simpl in *. by rewrite Hsh', Hd, Hsh. }
  unfold squeeze. simpl.
  assert (sanitize_axis (take k (gshape a) ++ 1 :: drop k (gshape a)) axis = Ok k) as ->.
  { unfold sanitize_axis in *. rewrite length_app in *. simpl in *.
    rewrite length_take, length_drop.
    replace (k `min` length (gshape a) + S (length (gshape a) - k))
      with (length (gshape a) + 1) by lia. done. }
  simpl. rewrite (getitem_nat _ _ 1) by (apply lookup_take_drop; lia). simpl.
  rewrite (mapM_Ok_fmap _ (λ t, Tensor (gshape a) (data t))).
  - simpl. rewrite decide_False.
    + rewrite <- list_fmap_compose.
      assert ((λ t, Tensor (gshape a) (data t)) <$> larray a = larray a) as Hid.
      { clear -Hwhole. induction Hwhole as [|t l Ht _ IH]; [done|].
        rewrite fmap_cons, IH. f_equal. rewrite <- Ht. apply tensor_eta. }
      change ((λ t : tensor, Tensor (gshape a) (data t)) ∘ _)
        with (λ t : tensor, Tensor (gshape a) (data t)).
      rewrite Hid. destruct a as [la ga sa]. simpl in *. do 3 f_equal.
      * destruct la as [|t la]; [done|]. apply Forall_cons in Hwhole as [Ht _]. exact Ht.
      * destruct sa as [s|]; [|done]. simpl. f_equal.
        unfold filter. simpl. repeat case_decide; simpl; lia.
    + unfold comm_size. simpl. rewrite length_fmap.
      intros [Hsome Hdist]. destruct Hlocal as [Hs|Hs].
      * rewrite Hs in Hsome. by destruct Hsome.
      * unfold comm_size in Hs. lia.
  - apply Forall_fmap, Forall_forall. intros t _. simpl.
    unfold squeeze_local, reshape. simpl.
    rewrite drop_axes_singleton, delete_take_drop by lia.
    rewrite numel_take_drop, decide_True by done. simpl.
    destruct (split a) as [s|]; [|done]. simpl.
    rewrite decide_False; [done|]. unfold comm_size. simpl. rewrite length_fmap.
    intros [Hdist _]. destruct Hlocal as [|Hs]; [done|]. unfold comm_size in Hs. lia.
Qed.

Lemma squeeze_expand_dims_witness :
  ∃ b, expand_dims replicated_row 1 = Ok b
       ∧ squeeze gather_chunks b (Some 1%Z) = Ok (replicated_row, []).
Proof.
  eexists. split; [vm_compute; reflexivity|].
  apply (squeeze_expand_dims gather_chunks replicated_row 1).
  - discriminate.
  - repeat constructor.
  - by left.
  - vm_compute. reflexivity.
Defined.

(** X10.  When [squeeze] returns on an array split over several ranks, the
    split axis is the dimension it was, at its new place; the global shape
    holds as many elements as before; every rank holds a tensor of the whole
    global shape, the receive buffer of line 421; and two Allgather calls
    took place. *)
Theorem squeeze_distributed ag x axis s r ev :
  split x = Some s → 1 < comm_size x → s < length (gshape x) →
  squeeze ag x axis = Ok (r, ev) →
  (∃ s', split r = Some s' ∧ gshape r !! s' = gshape x !! s)
  ∧ numel (gshape r) = numel (gshape x)
  ∧ length (larray r) = comm_size x
  ∧ Forall (λ t, shape t = gshape r) (larray r)
  ∧ ev = [EvAllgather; EvAllgather].
Proof.
  intros Hs Hdist Hlt. unfold squeeze. intros H.
  apply bind_Ok in H as (ax & Hax & H). apply bind_Ok in H as ([] & Hone & H).
  set (axes := match ax with None => unit_axes (gshape x) | Some k => [k] end) in H.
  apply bind_Ok in H as (lsq & Hlsq & H).
  rewrite decide_True in H by (rewrite Hs; eauto).
  apply bind_Ok in H as (buf & _ & H). injection H as <- <-. simpl.
  assert (NoDup axes ∧ ∀ k, k ∈ axes → gshape x !! k = Some 1) as [Hnd Hunit].
  { subst axes. destruct ax as [k|].
    - split; [apply NoDup_singleton|].
      destruct axis as [a0|]; [|done]. simpl in Hax.
      destruct (sanitize_axis (gshape x) a0) as [k0|] eqn:Hsan; [|done].
      injection Hax as ->.
      apply sanitize_axis_Ok in Hsan as (Hk & _ & _).
      destruct (lookup_lt_is_Some_2 _ _ Hk) as [d Hd].
      rewrite (getitem_nat _ _ _ Hd) in Hone. simpl in Hone.
      destruct (decide (d = 1)) as [->|]; [|done].
      by intros k' ->%list_elem_of_singleton.
    - split; [apply NoDup_unit_axes|]. intros k. apply elem_of_unit_axes. }
  assert (s ∉ axes) as Hin.
  { apply mapM_Ok_all in Hlsq. unfold comm_size in Hdist.
    destruct (larray x) as [|t l] eqn:Hl; [simpl in Hdist; lia|].
    apply Forall_cons in Hlsq as [Ht _]. unfold squeeze_local in Ht. rewrite Hs in Ht.
    destruct (reshape t (drop_axes axes (shape t))); [simpl in Ht|done].
    case_decide as Hd; [done|]. intros Hin. apply Hd.
    split; [|done]. unfold comm_size. by rewrite Hl. }
  split; [|split; [|split; [|split]]].
  - rewrite Hs. simpl. eexists. split; [done|].
    rewrite count_below_NoDup by done. by apply drop_axes_lookup.
  - apply numel_drop_axes. auto.
  - apply length_replicate.
  - by apply Forall_replicate.
  - done.
Qed.

Lemma squeeze_distributed_witness :
  ∃ r ev, squeeze gather_chunks six_on_two None = Ok (r, ev)
          ∧ (∃ s', split r = Some s' ∧ gshape r !! s' = gshape six_on_two !! 0)
          ∧ numel (gshape r) = numel (gshape six_on_two)
          ∧ length (larray r) = comm_size six_on_two
          ∧ Forall (λ t, shape t = gshape r) (larray r)
          ∧ ev = [EvAllgather; EvAllgather].
Proof.
  eexists _, _. split; [vm_compute; reflexivity|].
  apply (squeeze_distributed gather_chunks six_on_two None 0).
  - reflexivity.
  - vm_compute. lia.
  - vm_compute. lia.
  - vm_compute. reflexivity.
Defined.

Lemma squeeze_local_split_axis x axes t s :
  split x = Some s → 1 < comm_size x → s ∈ axes →
  ∃ e, squeeze_local x axes t = Raise e ∧ (e = ValueError ∨ e = RuntimeError).
Proof.
  intros Hs Hdist Hin. unfold squeeze_local, reshape. rewrite Hs.
  destruct (decide (numel (drop_axes axes (shape t)) = numel (shape t))); simpl; [|eauto].
  rewrite decide_True by done. eauto.
Qed.

(** X11.  On several ranks the split axis cannot be squeezed: named by an int,
    or of extent one when no axis is given, it makes [squeeze] raise
    (ValueError, or RuntimeError where a rank holds no slice). *)
Theorem squeeze_split_axis_raises ag x axis s :
  split x = Some s → 1 < comm_size x →
  match axis with
  | None => gshape x !! s = Some 1
  | Some ax => sanitize_axis (gshape x) ax = Ok s
  end →
  ∃ e, squeeze ag x axis = Raise e ∧ (e = ValueError ∨ e = RuntimeError).
Proof.
  intros Hs Hdist Hax.
  assert (∀ axes, s ∈ axes →
            ∃ e, mapM (squeeze_local x axes) (larray x) = Raise e
                 ∧ (e = ValueError ∨ e = RuntimeError)) as Hloc.
  { intros axes Hin. unfold comm_size in Hdist.
    destruct (larray x) as [|t l] eqn:Hl; [simpl in Hdist; lia|]. simpl.
    destruct (squeeze_local_split_axis x axes t s) as (e & -> & He); [done| |done|eauto].
    unfold comm_size. by rewrite Hl. }
  unfold squeeze. destruct axis as [ax|].
  - rewrite Hax. simpl. apply sanitize_axis_Ok in Hax as (Hlt & _ & _).
    destruct (lookup_lt_is_Some_2 _ _ Hlt) as [d Hd].
    rewrite (getitem_nat _ _ _ Hd). simpl.
    destruct (decide (d = 1)) as [_|_]; simpl; [|eauto].
    destruct (Hloc [s]) as (e & -> & He); [by left|]. eauto.
  - simpl. destruct (Hloc (unit_axes (gshape x))) as (e & -> & He);
      [by apply elem_of_unit_axes|]. eauto.
Qed.

Lemma squeeze_split_axis_raises_witness :
  ∃ e, squeeze gather_chunks one_row_on_two None = Raise e
       ∧ (e = ValueError ∨ e = RuntimeError).
Proof.
  apply (squeeze_split_axis_raises gather_chunks one_row_on_two None 0).
  - reflexivity.
  - vm_compute. lia.
  - reflexivity.
Defined.

(** ** [nonzero] *)

Lemma unravel_length sh k : length (unravel sh k) = length sh.
Proof. revert k. induction sh as [|d sh IH]; intros k; simpl; [done|]. by rewrite IH. Qed.

Lemma numel_pos_tail d sh k : k < numel (d :: sh) → 0 < numel sh.
Proof. simpl. destruct (numel sh); lia. Qed.

Lemma unravel_valid sh k :
  k < numel sh → Forall2 (λ i d, i < d) (unravel sh k) sh.
Proof.
  revert k. induction sh as [|d sh IH]; intros k Hk; simpl in *; [constructor|].
  assert (0 < numel sh) as Hpos by (destruct (numel sh); lia).
  constructor.
  - apply Nat.Div0.div_lt_upper_bound. lia.
  - apply IH. apply Nat.mod_upper_bound. lia.
Qed.

Lemma ravel_lt sh idx :
  Forall2 (λ i d, i < d) idx sh → ravel sh idx < numel sh.
Proof.
  induction 1 as [|i d idx sh Hi _ IH]; simpl; [lia|]. nia.
Qed.

Lemma unravel_ravel sh idx :
  Forall2 (λ i d, i < d) idx sh → unravel sh (ravel sh idx) = idx.
Proof.
  induction 1 as [|i d idx sh Hi Hrest IH]; simpl; [done|].
  pose proof (ravel_lt _ _ Hrest) as Hlt.
  f_equal.
  - rewrite Nat.div_add_l by lia. rewrite Nat.div_small by done. lia.
  - rewrite Nat.add_comm, Nat.Div0.mod_add, Nat.mod_small by done. done.
Qed.

Lemma filter_lookup_seq (P : Z → Prop) `{!∀ x, Decision (P x)} (l : list Z) :
  (λ k, default 0%Z (l !! k)) <$> filter (λ k, P (default 0%Z (l !! k))) (seq 0 (length l))
  = filter P l.
Proof.
  transitivity (filter P ((λ k, default 0%Z (l !! k)) <$> seq 0 (length l)));
    [|by rewrite fmap_lookup_seq].
  generalize (seq 0 (length l)). intros ks.
  induction ks as [|k ks IH]; [done|]. csimpl.
  rewrite !filter_cons. simpl. case_decide; csimpl; by rewrite IH.
Qed.

Lemma length_hits (l : list Z) :
  length (filter (λ k, default 0%Z (l !! k) ≠ 0%Z) (seq 0 (length l)))
  = length (filter (λ v, v ≠ 0%Z) l).
Proof.
  rewrite <- (filter_lookup_seq (λ v, v ≠ 0%Z) l). by rewrite length_fmap.
Qed.

Lemma length_filter_mjoin {A} (P : A → Prop) `{!∀ x, Decision (P x)} (ls : list (list A)) :
  length (filter P (mjoin ls)) = foldr Nat.add 0 ((λ l, length (filter P l)) <$> ls).
Proof.
  induction ls as [|l ls IH]; [done|]. csimpl.
  by rewrite filter_app, length_app, IH.
Qed.

(** What one rank makes of its chunk [t], given the offset of the chunk. *)
Lemma torch_nonzero_rows t :
  rows (torch_nonzero t)
  = (λ k, Z.of_nat <$> unravel (shape t) k)
    <$> filter (λ k, default 0%Z (data t !! k) ≠ 0%Z) (seq 0 (numel (shape t))).
Proof.
  unfold torch_nonzero. apply rows_of_rows.
  apply Forall_fmap, Forall_forall. intros k _. simpl.
  rewrite length_fmap, unravel_length. lia.
Qed.

Lemma add_to_column_nonzero t s d :
  s < length (shape t) →
  add_to_column (torch_nonzero t) s d
  = Ok (of_rows [length (shape t)] (alter (Z.add d) s <$> rows (torch_nonzero t))).
Proof. intros Hs. unfold add_to_column. simpl. by rewrite decide_True. Qed.

Lemma sanitize_axis_nat sh s : s < length sh → sanitize_axis sh (Z.of_nat s) = Ok s.
Proof. intros Hs. unfold sanitize_axis. rewrite decide_True by lia. by rewrite Nat2Z.id. Qed.


Lemma nonzero_split lo a s :
  wf_DNDarray a → split a = Some s → s < length (gshape a) →
  nonzero lo a = Ok (factories_array (imap (nonzero_chunk a s) (larray a)) (Some 0)).
Proof.
  intros Hwf Hs Hlt. unfold nonzero. rewrite Hs.
  rewrite (mapM_Ok_fmap _ (λ rt, nonzero_chunk a s rt.1 rt.2)).
  - simpl. rewrite fmap_imap. done.
  - apply Forall_forall. intros [r t] Hrt.
    apply elem_of_lookup_imap in Hrt as (i & y & [= <- <-] & Hi). simpl.
    rewrite sanitize_axis_nat by done. simpl.
    rewrite add_to_column_nonzero; [done|].
    rewrite (wf_shape_length a t); [done..|]. by eapply list_elem_of_lookup_2.
Qed.

Lemma nonzero_chunk_rows a s r t :
  rows (nonzero_chunk a s r t)
  = alter (Z.add (Z.of_nat (chunk_start (comm_size a) (default 0 (gshape a !! s)) r))) s
      <$> rows (torch_nonzero t).
Proof.
  unfold nonzero_chunk. apply rows_of_rows.
  apply Forall_fmap. rewrite torch_nonzero_rows.
  apply Forall_fmap, Forall_forall. intros k _. simpl.
  rewrite length_alter, length_fmap, unravel_length. lia.
Qed.

Lemma nonzero_chunk_count a s r t :
  length (data t) = numel (shape t) →
  lshape_at 0 (nonzero_chunk a s r t) = length (filter (λ v, v ≠ 0%Z) (data t)).
Proof.
  intros Hlen. unfold nonzero_chunk, lshape_at. simpl.
  rewrite length_fmap, torch_nonzero_rows, length_fmap, <- Hlen. apply length_hits.
Qed.

(** X12.  On a well-formed split array [nonzero] returns an array split along
    axis 0 with one row per element that is not zero and one column per
    dimension; every rank holds as many rows as its chunk has such
    elements. *)
Theorem nonzero_counts lo a s :
  wf_DNDarray a → split a = Some s → s < length (gshape a) → larray a ≠ [] →
  ∃ r, nonzero lo a = Ok r
       ∧ split r = Some 0
       ∧ gshape r = [length (filter (λ v, v ≠ 0%Z) (values a)); length (gshape a)]
       ∧ lshape_at 0 <$> larray r
         = (λ t, length (filter (λ v, v ≠ 0%Z) (data t))) <$> larray a.
Proof.
  intros Hwf Hs Hlt Hne. eexists. split; [by apply nonzero_split|].
  split; [done|]. simpl.
  assert (lshape_at 0 <$> imap (nonzero_chunk a s) (larray a)
          = (λ t, length (filter (λ v, v ≠ 0%Z) (data t))) <$> larray a) as Hcounts.
  { rewrite fmap_imap, <- imap_const. apply imap_ext. intros r t Hr. simpl.
    apply nonzero_chunk_count. unfold wf_DNDarray in Hwf. rewrite Forall_forall in Hwf.
    apply (Hwf t). by eapply list_elem_of_lookup_2. }
  split; [|done]. rewrite Hcounts.
  unfold values. rewrite length_filter_mjoin, <- list_fmap_compose.
  destruct (larray a) as [|t l] eqn:Hl; [done|]. simpl.
  rewrite (wf_shape_length a t Hwf) by (rewrite Hl; left). done.
Qed.

Lemma nonzero_counts_witness :
  ∃ r, nonzero local_op_raises with_zeros = Ok r
       ∧ split r = Some 0
       ∧ gshape r = [length (filter (λ v, v ≠ 0%Z) (values with_zeros));
                     length (gshape with_zeros)]
       ∧ lshape_at 0 <$> larray r
         = (λ t, length (filter (λ v, v ≠ 0%Z) (data t))) <$> larray with_zeros.
Proof.
  apply (nonzero_counts local_op_raises with_zeros 0).
  - apply wf_col_array.
  - reflexivity.
  - vm_compute. lia.
  - discriminate.
Defined.

(** X13.  The rows [nonzero] leaves on a rank are the indices of the
    elements of its chunk that are not zero, each once, moved along the
    split axis by the offset [comm.chunk] computes for the rank from the
    global shape (line 40); the chunk the rank holds is not consulted.
    When the chunks follow the balanced layout, this offset is the number
    of slices the ranks before it hold, the place of the chunk in the
    array. *)
Theorem nonzero_indices lo a s res r t nz :
  wf_DNDarray a → split a = Some s → s < length (gshape a) →
  nonzero lo a = Ok res →
  larray a !! r = Some t → larray res !! r = Some nz →
  NoDup (rows nz)
  ∧ (∀ row, row ∈ rows nz ↔
      ∃ idx v, Forall2 (λ i d, i < d) idx (shape t)
               ∧ data t !! ravel (shape t) idx = Some v ∧ v ≠ 0%Z
               ∧ row = Z.of_nat
                         <$> alter (Nat.add (chunk_start (comm_size a)
                                               (default 0 (gshape a !! s)) r)) s idx)
  ∧ (lshape_at s <$> larray a
     = counts_displs_shape (comm_size a) (default 0 (gshape a !! s)) →
     chunk_start (comm_size a) (default 0 (gshape a !! s)) r
     = foldr Nat.add 0 (take r (lshape_at s <$> larray a))).
Proof.
  intros Hwf Hs Hlt Hres Ht Hnz.
  assert (lshape_at s <$> larray a
          = counts_displs_shape (comm_size a) (default 0 (gshape a !! s)) →
          chunk_start (comm_size a) (default 0 (gshape a !! s)) r
          = foldr Nat.add 0 (take r (lshape_at s <$> larray a))) as Hstart.
  { intros Hbal. unfold chunk_start, running_sums. rewrite <- Hbal.
    rewrite list_lookup_fmap, lookup_seq_lt; [done|].
    rewrite length_fmap. by eapply lookup_lt_Some. }
  rewrite (nonzero_split lo a s) in Hres by done.
  injection Hres as <-. simpl in Hnz.
  rewrite list_lookup_imap, Ht in Hnz. injection Hnz as <-.
  rewrite nonzero_chunk_rows, torch_nonzero_rows, <- list_fmap_compose.
  set (c := chunk_start (comm_size a) (default 0 (gshape a !! s)) r).
  set (sh := shape t).
  assert (length (data t) = numel sh) as Hlen.
  { unfold wf_DNDarray in Hwf. rewrite Forall_forall in Hwf.
    apply (Hwf t). by eapply list_elem_of_lookup_2. }
  assert (∀ idx : list nat,
            alter (Z.add (Z.of_nat c)) s (Z.of_nat <$> idx)
            = Z.of_nat <$> alter (Nat.add c) s idx) as Halter.
  { intros idx. symmetry. apply list_fmap_alter, Forall_forall. intros i _. lia. }
  assert (∀ i j : list nat, Z.of_nat <$> alter (Nat.add c) s i
                            = Z.of_nat <$> alter (Nat.add c) s j → i = j) as Hinj.
  { intros i j Hij. apply (inj (fmap Z.of_nat)) in Hij.
    apply list_eq. intros n. apply (f_equal (.!! n)) in Hij.
    rewrite !list_lookup_alter in Hij. case_decide; [subst|done].
    destruct (i !! n), (j !! n); simpl in *; try done. injection Hij as Hij. f_equal. lia. }
  split; [|split; [|exact Hstart]].
  - apply NoDup_fmap_2_strong; [|apply NoDup_filter, NoDup_seq].
    intros k1 k2 Hk1 Hk2 Heq. simpl in Heq. rewrite !Halter in Heq.
    apply Hinj in Heq.
    apply list_elem_of_filter in Hk1 as [_ Hk1%elem_of_seq].
    apply list_elem_of_filter in Hk2 as [_ Hk2%elem_of_seq].
    rewrite <- (ravel_unravel sh k1), <- (ravel_unravel sh k2) by lia. by rewrite Heq.
  - intros row. rewrite list_elem_of_fmap. split.
    + intros (k & -> & Hk). apply list_elem_of_filter in Hk as [Hv Hk%elem_of_seq].
      destruct (lookup_lt_is_Some_2 (data t) k ltac:(lia)) as [v Hkv].
      rewrite Hkv in Hv. simpl in Hv.
      exists (unravel sh k), v. split; [apply unravel_valid; lia|].
      rewrite ravel_unravel by lia. split; [done|]. split; [done|]. apply Halter.
    + intros (idx & v & Hidx & Hv & Hnz & ->).
      exists (ravel sh idx). simpl. rewrite unravel_ravel by done. split; [by rewrite Halter|].
      apply list_elem_of_filter. split; [by rewrite Hv|].
      apply elem_of_seq. pose proof (ravel_lt _ _ Hidx). lia.
Qed.

(** Rank 1 of [with_zeros] holds 8 and 0, from row 2 on: it reports (2, 0). *)
Lemma nonzero_indices_witness :
  ∃ res nz,
    nonzero local_op_raises with_zeros = Ok res
    ∧ larray res !! 1 = Some nz
    ∧ rows nz = [[2; 0]]%Z
    ∧ NoDup (rows nz)
    ∧ (∀ row, row ∈ rows nz ↔
        ∃ idx v, Forall2 (λ i d, i < d) idx [2; 1]
                 ∧ [8; 0]%Z !! ravel [2; 1] idx = Some v ∧ v ≠ 0%Z
                 ∧ row = Z.of_nat
                           <$> alter (Nat.add (chunk_start (comm_size with_zeros)
                                                 (default 0 (gshape with_zeros !! 0)) 1))
                                 0 idx)
    ∧ (lshape_at 0 <$> larray with_zeros
       = counts_displs_shape (comm_size with_zeros)
           (default 0 (gshape with_zeros !! 0)) →
       chunk_start (comm_size with_zeros) (default 0 (gshape with_zeros !! 0)) 1
       = foldr Nat.add 0 (take 1 (lshape_at 0 <$> larray with_zeros))).
Proof.
  eexists _, _. split; [vm_compute; reflexivity|].
  split; [reflexivity|]. split; [vm_compute; reflexivity|].
  eapply (nonzero_indices local_op_raises with_zeros 0 _ 1 (Tensor [2; 1] [8; 0]%Z)).
  - apply wf_col_array.
  - reflexivity.
  - vm_compute. lia.
  - vm_compute. reflexivity.
  - reflexivity.
  - reflexivity.
Defined.

(** Off the balanced layout the offset is not the place of the chunk: with
    three rows on rank 0 and one on rank 1, the 8 in row 2 and the 9 in
    row 3 are both reported as (2, 0). *)
Lemma nonzero_off_balance :
  ∃ res, nonzero local_op_raises (col_array [[0; 7; 8]; [9]]%Z) = Ok res
         ∧ rows <$> larray res = [[[1; 0]; [2; 0]]; [[2; 0]]]%Z.
Proof. eexists. split; vm_compute; reflexivity. Qed.

(** ** More on [sort] and [unique] *)

(** X14.  CLASSIFY respects the order: an element given a lower rank than
    another is strictly smaller (ascending) or strictly greater
    (descending) than the other. *)
Theorem classify_respects_order descending pivots v v' c c' :
  classify descending pivots v = Ok c →
  classify descending pivots v' = Ok c' →
  c < c' →
  op_func descending v v' = true.
Proof.
  unfold classify, Py.next. intros Hc Hc' Hlt.
  destruct (List.find _ _) as [x|] eqn:Hf in Hc; [|done]. injection Hc as ->.
  destruct (List.find _ _) as [x'|] eqn:Hf' in Hc'; [|done]. injection Hc' as ->.
  apply find_seq_first in Hf as (Hr & Hp & _).
  apply find_seq_first in Hf' as (Hr' & _ & Hlow').
  specialize (Hlow' c ltac:(lia)). simpl in *.
  rewrite bool_decide_eq_false_2 in Hp, Hlow' by lia. simpl in *.
  destruct (pivots !! c) as [p|]; [|done].
  destruct descending; simpl in *;
    apply bool_decide_eq_true in Hp; apply bool_decide_eq_false in Hlow';
    apply bool_decide_eq_true; lia.
Qed.

Lemma classify_respects_order_witness :
  classify false [5%Z] 3%Z = Ok 0 ∧ classify false [5%Z] 7%Z = Ok 1
  ∧ op_func false 3 7 = true.
Proof.
  split; [reflexivity|]. split; [reflexivity|].
  apply (classify_respects_order false [5%Z] 3 7 0 1); [reflexivity|reflexivity|lia].
Defined.

Lemma find_first {A} (p : A → bool) (l : list A) x :
  List.find p l = Some x →
  ∃ n, l !! n = Some x ∧ p x = true ∧ ∀ m y, m < n → l !! m = Some y → p y = false.
Proof.
  induction l as [|z l IH]; simpl; [done|].
  destruct (p z) eqn:Hz.
  - intros [= <-]. exists 0. repeat split; [done|]. intros; lia.
  - intros Hf. destruct (IH Hf) as (n & Hn & Hp & Hlow). exists (S n).
    repeat split; [done..|]. intros [|m] y Hm Hy; simpl in Hy; [by injection Hy as <-|].
    eapply Hlow; [|done]. lia.
Qed.

Lemma find_nothing {A} (p : A → bool) (l : list A) n y :
  List.find p l = None → l !! n = Some y → p y = false.
Proof.
  intros Hf Hn. eapply find_none; [done|]. by eapply list_elem_of_In, list_elem_of_lookup_2.
Qed.

(** X15.  The partner of a transfer (lines 241 and 280) is the first rank
    above [i] whose [partition_matrix] entry is positive; when there is
    none, and always for the last rank, the search raises StopIteration. *)
Theorem first_nonempty_above_spec (pm : list (list Z)) i j :
  match first_nonempty_above pm i j with
  | Ok k => i < k < length pm
            ∧ (∃ row v, pm !! k = Some row ∧ row !! j = Some v ∧ (0 < v)%Z)
            ∧ ∀ k' row, i < k' < k → pm !! k' = Some row → (default 0 (row !! j) ≤ 0)%Z
  | Raise e => e = StopIteration
               ∧ ∀ k' row, i < k' → pm !! k' = Some row → (default 0 (row !! j) ≤ 0)%Z
  end.
Proof.
  unfold first_nonempty_above, Py.next.
  destruct (List.find _ _) as [[n row]|] eqn:Hf; simpl.
  - apply find_first in Hf as (n' & Hn & Hpos & Hlow).
    rewrite list_lookup_imap, lookup_drop in Hn.
    apply fmap_Some in Hn as (row' & Hrow & [= -> ->]).
    simpl in Hpos. apply bool_decide_eq_true in Hpos.
    replace (n' + i + 1) with (i + 1 + n') by lia.
    split; [apply lookup_lt_Some in Hrow; lia|]. split.
    + destruct (row' !! j) as [v|] eqn:Hv; [|simpl in Hpos; lia]. eauto.
    + intros k' r Hk' Hr.
      assert (imap pair (drop (i + 1) pm) !! (k' - i - 1) = Some (k' - i - 1, r)) as Hx.
      { rewrite list_lookup_imap, lookup_drop.
        replace (i + 1 + (k' - i - 1)) with k' by lia. by rewrite Hr. }
      apply Hlow in Hx; [|lia]. simpl in Hx. apply bool_decide_eq_false in Hx. lia.
  - split; [done|]. intros k' r Hk' Hr.
    assert (imap pair (drop (i + 1) pm) !! (k' - i - 1) = Some (k' - i - 1, r)) as Hx.
    { rewrite list_lookup_imap, lookup_drop.
      replace (i + 1 + (k' - i - 1)) with k' by lia. by rewrite Hr. }
    apply (find_nothing _ _ _ _ Hf) in Hx. simpl in Hx.
    apply bool_decide_eq_false in Hx. lia.
Qed.

Lemma index_nat_Ok len i k : Py.index len (Z.of_nat i) = Ok k → k = i ∧ i < len.
Proof.
  unfold Py.index. case_decide; [intros [= <-]; lia|].
  case_decide; [lia|done].
Qed.

Lemma getitem_nat_Ok {A} (l : list A) k x :
  Py.getitem l (Z.of_nat k) = Ok x → l !! k = Some x.
Proof.
  unfold Py.getitem. intros H. apply bind_Ok in H as (i & Hi & H).
  apply index_nat_Ok in Hi as [-> _]. by destruct (l !! k); [injection H as ->|].
Qed.

Lemma setitem_nat_Ok {A} (l : list A) k x l' :
  Py.setitem l (Z.of_nat k) x = Ok l' → k < length l ∧ l' = <[k := x]> l.
Proof.
  unfold Py.setitem. intros H. apply bind_Ok in H as (i & Hi & H).
  apply index_nat_Ok in Hi as [-> Hk]. by injection H as <-.
Qed.

Lemma madd_Ok (m : list (list Z)) i j d m' :
  madd m i j d = Ok m' →
  ∃ row v, m !! i = Some row ∧ row !! j = Some v
           ∧ m' = <[i := <[j := (v + d)%Z]> row]> m.
Proof.
  unfold madd, mget, mset. intros H.
  apply bind_Ok in H as (v & Hv & H).
  apply bind_Ok in Hv as (row & Hrow & Hv).
  apply getitem_nat_Ok in Hrow, Hv.
  apply bind_Ok in H as (row0 & Hrow0 & H). apply getitem_nat_Ok in Hrow0.
  apply bind_Ok in H as (row' & Hrow' & H).
  apply setitem_nat_Ok in Hrow' as [_ ->]. apply setitem_nat_Ok in H as [_ ->].
  assert (row0 = row) as -> by congruence. eauto.
Qed.

(** Adding and taking off again leaves the matrix as it was. *)
Lemma madd_undo (m : list (list Z)) i j d m1 m2 :
  madd m i j d = Ok m1 → madd m1 i j (- d) = Ok m2 → m2 = m.
Proof.
  intros H1 H2.
  apply madd_Ok in H1 as (row & v & Hrow & Hv & ->).
  apply madd_Ok in H2 as (row' & v' & Hrow' & Hv' & ->).
  pose proof (lookup_lt_Some _ _ _ Hrow) as Hi.
  pose proof (lookup_lt_Some _ _ _ Hv) as Hj.
  rewrite list_lookup_insert_eq in Hrow' by done. injection Hrow' as <-.
  rewrite list_lookup_insert_eq in Hv' by done. injection Hv' as <-.
  rewrite list_insert_insert_eq, list_insert_insert_eq.
  replace (v + d + - d)%Z with v by lia.
  by rewrite (list_insert_id row), list_insert_id.
Qed.

Lemma book_transfer_partition_matrix sender receiver j st ps pr st' :
  book_transfer sender receiver j st ps pr = Ok st' →
  partition_matrix st' = partition_matrix st.
Proof.
  unfold book_transfer. intros H.
  apply bind_Ok in H as (pi1 & _ & H). apply bind_Ok in H as (pm1 & Hpm1 & H).
  apply bind_Ok in H as (pi2 & _ & H). apply bind_Ok in H as (pm2 & Hpm2 & H).
  injection H as <-. simpl. by eapply madd_undo.
Qed.

Lemma settle_partition_matrix junk rest axis descending rounds i j val st st' :
  settle junk rest axis descending rounds i j val st = Ok st' →
  partition_matrix st' = partition_matrix st.
Proof.
  revert val st. induction rounds as [|rounds IH]; intros val st; simpl.
  - by intros [= <-].
  - destruct (decide (val < 0)%Z); intros H; apply bind_Ok in H as (st1 & H1 & H);
      apply IH in H; rewrite H.
    + unfold pull in H1. do 11 (apply bind_Ok in H1 as (? & _ & H1)).
      by apply book_transfer_partition_matrix in H1.
    + unfold push in H1. do 12 (apply bind_Ok in H1 as (? & _ & H1)).
      by apply book_transfer_partition_matrix in H1.
Qed.

(** X16.  The rebalancing loop leaves [partition_matrix] as it found it:
    every transfer adds one to the entry of the receiver and takes it off
    again (lines 272 and 274, 310 and 312). *)
Theorem rebalance_keeps_partition_matrix junk rest axis descending size st st' :
  rebalance junk rest axis descending size st = Ok st' →
  partition_matrix st' = partition_matrix st.
Proof.
  unfold rebalance.
  apply (foldM_invariant (λ s, partition_matrix s = partition_matrix st)); [|done].
  intros s i s' Hs.
  apply (foldM_invariant (λ s, partition_matrix s = partition_matrix st)); [|done].
  intros s1 j s2 Hs1 H. apply bind_Ok in H as (val & _ & H).
  apply settle_partition_matrix in H. congruence.
Qed.

(** Rank 0 hands its third element to rank 1. *)
Lemma rebalance_keeps_partition_matrix_witness :
  ∃ st', rebalance 0 [1] 0 false 2 three_and_one = Ok st'
         ∧ transfers st' = [EvSend 0 1]
         ∧ partition_matrix st' = partition_matrix three_and_one.
Proof.
  eexists. split; [vm_compute; reflexivity|]. split; [reflexivity|].
  apply (rebalance_keeps_partition_matrix 0 [1] 0 false 2 three_and_one).
  vm_compute. reflexivity.
Defined.

Lemma sends_1d rank (ls : matrix) (im : list (list nat)) :
  im ≠ [] → is_ok (sends [] rank ls im) = false.
Proof.
  destruct im as [|row im]; [done|]. intros _. unfold sends.
  change (seq 0 (length (row :: im))) with (0 :: seq 1 (length im)).
  change (ncols []) with 1. csimpl.
  destruct (mget ls (Z.of_nat 0) 0); done.
Qed.

Lemma index_matrix_length descending gp (ls : matrix) im :
  index_matrix descending gp ls = Ok im → length im = length ls.
Proof. apply mapM_Ok_length. Qed.

(** X17.  A 1-D array cannot be sorted along its split axis when the axis
    is passed as 0 or left to the default: as soon as one rank holds an
    element, [sort] raises (the tag of line 203 is [int('')]).  Passed as
    -1 the axis is taken for another one on line 85 and [sort] returns. *)
Theorem sort_1d_split_raises junk a axis descending t :
  length (gshape a) = 1 → split a = Some 0 →
  axis = None ∨ axis = Some 0%Z →
  t ∈ larray a → lshape_at 0 t ≠ 0 →
  ∃ e, sort junk a axis descending = Raise e.
Proof.
  intros Hdim Hsplit Haxis Ht Hrows. unfold sort.
  assert (default (Z.of_nat (length (gshape a)) - 1)%Z axis = 0%Z) as ->.
  { destruct Haxis as [-> | ->]; simpl; lia. }
  change 0%Z with (Z.of_nat 0). rewrite Nat2Z.id.
  rewrite (sanitize_axis_nat (gshape a) 0) by lia. simpl.
  rewrite Hsplit. simpl.
  assert (tail (swap_axes 0 0 (gshape a)) = []) as ->.
  { rewrite swap_axes_same. by destruct (gshape a) as [|? [|]]. }
  destruct (sort_along_split _ _ _ _ _ _) as [out|e] eqn:H; [exfalso|by eauto].
  unfold sort_along_split in H. apply bind_Ok in H as (red & H & _).
  unfold redistribute in H.
  apply bind_Ok in H as (lp & _ & H).
  apply bind_Ok in H as (pivot_buffer & _ & H).
  apply bind_Ok in H as (gp & _ & H).
  apply bind_Ok in H as (ims & Hims & H).
  apply bind_Ok in H as (shape0 & _ & H).
  apply bind_Ok in H as (outbox & Houtbox & _).
  apply list_elem_of_lookup in Ht as [r Hr].
  set (ls := sort_dim0 descending (ncols []) (rows (transpose t 0 0))).
  apply mapM_Ok_Forall2 in Hims.
  assert ((sort_dim0 descending (ncols []) <$> ((λ t, rows (transpose t 0 0)) <$> larray a))
            !! r = Some ls) as Hls.
  { by rewrite !list_lookup_fmap, Hr. }
  destruct (Forall2_lookup_l _ _ _ _ _ Hims Hls) as (im & Him & Hidx).
  apply index_matrix_length in Hidx.
  apply mapM_Ok_all in Houtbox. rewrite Forall_forall in Houtbox.
  specialize (Houtbox (r, (ls, im))). simpl in Houtbox.
  rewrite sends_1d in Houtbox.
  - discriminate Houtbox. apply (elem_of_lookup_imap_2 pair _ (ls, im) r).
    apply lookup_zip_with_Some. eauto.
  - intros ->. simpl in Hidx. unfold ls in Hidx.
    rewrite sort_dim0_length, rows_length in Hidx. simpl in Hidx.
    rewrite swap_axes_same in Hidx. unfold lshape_at in Hrows.
    by destruct (shape t).
Qed.

Lemma sort_1d_split_raises_witness :
  ∃ e, sort 0 (vec_array [[5; 3]; [1; 4]]%Z) None false = Raise e.
Proof.
  apply (sort_1d_split_raises 0 (vec_array [[5; 3]; [1; 4]]%Z) None false
           (Tensor [2] [5; 3]%Z)).
  - reflexivity.
  - reflexivity.
  - by left.
  - by left.
  - discriminate.
Defined.







(** X19.  PIVOT_SAMPLE: a rank that holds rows picks exactly [size] pivots,
    all of them rows of its sorted chunk; the positions of line 105 never
    leave the chunk. *)
Theorem local_pivots_in_range size count_rank (local_sorted : list (list Z)) :
  count_rank ≠ 0 → local_sorted ≠ [] →
  ∃ lp, local_pivots size count_rank local_sorted = Ok lp
        ∧ length lp = size
        ∧ ∀ row, row ∈ lp → row ∈ local_sorted.
Proof.
  intros Hc Hne. unfold local_pivots. rewrite decide_False by done.
  unfold take_rows.
  set (n := length local_sorted).
  assert (0 < n) as Hn by (subst n; destruct local_sorted; [done|simpl; lia]).
  exists ((λ p, default [] (local_sorted !! p)) <$> partitions size n).
  assert (Forall (λ p, p < n) (partitions size n)) as Hp.
  { unfold partitions. apply Forall_fmap, Forall_forall. intros x Hx. simpl.
    apply elem_of_seq in Hx. apply Nat.Div0.div_lt_upper_bound. nia. }
  split; [|split].
  - apply mapM_Ok_fmap. eapply Forall_impl; [exact Hp|]. intros p Hlt. simpl.
    destruct (lookup_lt_is_Some_2 local_sorted p Hlt) as [row Hrow].
    rewrite Hrow. by apply getitem_nat.
  - unfold partitions. by rewrite !length_fmap, length_seq.
  - intros row Hrow. apply list_elem_of_fmap in Hrow as (p & -> & Hin).
    rewrite Forall_forall in Hp.
    destruct (lookup_lt_is_Some_2 local_sorted p (Hp p Hin)) as [r Hr].
    rewrite Hr. simpl. by eapply list_elem_of_lookup_2.
Qed.

Lemma local_pivots_in_range_witness :
  ∃ lp, local_pivots 2 3 [[1]; [2]; [3]]%Z = Ok lp
        ∧ length lp = 2
        ∧ ∀ row, row ∈ lp → row ∈ [[1]; [2]; [3]]%Z.
Proof.
  apply (local_pivots_in_range 2 3 [[1]; [2]; [3]]%Z); discriminate.
Defined.

(** X20.  With one non-split dimension the tag an element is sent under is
    its column number, and the receiver asks for the same tag. *)
Theorem tag_is_column i j :
  send_tag [i; j] = Ok (Z.of_nat j) ∧ recv_tag [j] = Ok (Z.of_nat j).
Proof. split; apply tag_of_single. Qed.

Lemma str_digit d :
  d < 10 → ∃ c, Py.str d = String c EmptyString ∧ Py.digit c = Some (Z.of_nat d).
Proof.
  intros Hd. do 10 (destruct d as [|d]; [eexists; split; reflexivity|]). lia.
Qed.

Lemma int_digits_join acc idx :
  Forall (λ i, i < 10) idx →
  Py.int_digits acc (Py.join (Py.str <$> idx))
  = Ok (foldl (λ a d, 10 * a + Z.of_nat d)%Z acc idx).
Proof.
  intros H. revert acc. induction H as [|d idx Hd _ IH]; intros acc; [done|].
  destruct (str_digit d Hd) as (c & Hc & Hdig).
  change (Py.join (Py.str <$> d :: idx))
    with (Py.str d +:+ Py.join (Py.str <$> idx))%string.
  rewrite Hc.
  change (String c EmptyString +:+ ?s)%string with (String c s).
  simpl. rewrite Hdig. apply IH.
Qed.

Lemma tag_of_digits idx :
  Forall (λ i, i < 10) idx → idx ≠ [] →
  tag_of idx = Ok (foldl (λ a d, 10 * a + Z.of_nat d)%Z 0%Z idx).
Proof.
  intros H Hne. rewrite <- int_digits_join by done. unfold tag_of, Py.int.
  destruct idx as [|d idx]; [done|]. apply Forall_cons in H as [Hd _].
  destruct (str_digit d Hd) as (c & Hc & _).
  change (Py.join (Py.str <$> d :: idx))
    with (Py.str d +:+ Py.join (Py.str <$> idx))%string.
  rewrite Hc. done.
Qed.

Lemma digits_inj (idx idx' : list nat) :
  length idx = length idx' →
  Forall (λ i, i < 10) idx → Forall (λ i, i < 10) idx' →
  foldl (λ a d, 10 * a + Z.of_nat d)%Z 0%Z idx
  = foldl (λ a d, 10 * a + Z.of_nat d)%Z 0%Z idx' →
  idx = idx'.
Proof.
  revert idx'. induction idx as [|d idx IH] using rev_ind; intros idx' Hlen H H' Heq.
  - by destruct idx'.
  - destruct idx' as [|d' idx' _] using rev_ind;
      [rewrite length_app in Hlen; simpl in Hlen; lia|].
    rewrite !length_app in Hlen. simpl in Hlen.
    apply Forall_app in H as [H Hd]. apply Forall_app in H' as [H' Hd'].
    rewrite Forall_singleton in Hd, Hd'.
    rewrite !foldl_app in Heq. simpl in Heq.
    assert (d = d') as <- by lia.
    f_equal. apply IH; [lia|done..|lia].
Qed.

(** X21.  With at most ten entries in every non-split dimension the tags
    tell the positions apart. *)
Theorem tag_of_small_dims_inj idx idx' :
  length idx = length idx' →
  Forall (λ i, i < 10) idx → Forall (λ i, i < 10) idx' →
  idx ≠ idx' → tag_of idx ≠ tag_of idx'.
Proof.
  intros Hlen H H' Hne Heq. apply Hne.
  destruct idx as [|d idx]; [by destruct idx'|].
  destruct idx' as [|d' idx']; [done|].
  rewrite !tag_of_digits in Heq by done. injection Heq as Heq.
  by apply digits_inj.
Qed.

Lemma tag_of_small_dims_inj_witness : tag_of [1; 2] ≠ tag_of [2; 1].
Proof.
  apply (tag_of_small_dims_inj [1; 2] [2; 1]).
  - reflexivity.
  - repeat constructor.
  - repeat constructor.
  - discriminate.
Defined.

Lemma swap_axes_comm {A} i j (l : list A) : swap_axes i j l = swap_axes j i l.
Proof.
  unfold swap_axes. destruct (l !! i) as [x|] eqn:Hi, (l !! j) as [y|] eqn:Hj; try done.
  destruct (decide (i = j)) as [->|Hne]; [congruence|].
  by rewrite list_insert_insert_ne.
Qed.

Lemma Forall2_swap_axes {A B} (P : A → B → Prop) i j l k :
  Forall2 P l k → Forall2 P (swap_axes i j l) (swap_axes i j k).
Proof.
  intros H. unfold swap_axes.
  destruct (l !! i) as [x|] eqn:Hi.
  - destruct (Forall2_lookup_l _ _ _ _ _ H Hi) as (x' & -> & Hx).
    destruct (l !! j) as [y|] eqn:Hj.
    + destruct (Forall2_lookup_l _ _ _ _ _ H Hj) as (y' & -> & Hy).
      apply Forall2_insert; [apply Forall2_insert|]; done.
    + pose proof (Forall2_length _ _ _ H) as Hlen. apply lookup_ge_None in Hj.
      by rewrite (proj2 (lookup_ge_None k j)) by lia.
  - pose proof (Forall2_length _ _ _ H) as Hlen. apply lookup_ge_None in Hi.
    by rewrite (proj2 (lookup_ge_None k i)) by lia.
Qed.

(** Swapping two axes twice gives the tensor back: line 314 undoes line 92. *)
Lemma transpose_invol t d0 d1 :
  length (data t) = numel (shape t) →
  transpose (transpose t d0 d1) d1 d0 = t.
Proof.
  intros Hlen. destruct t as [sh dt]. unfold transpose. simpl in *.
  rewrite swap_axes_invol. f_equal.
  etransitivity; [|apply (fmap_lookup_seq 0%Z dt)]. rewrite Hlen.
  apply list_fmap_ext. intros i k Hk. apply lookup_seq in Hk as [Heq Hk].
  simpl in Heq. subst i.
  pose proof (unravel_valid sh k Hk) as Hu.
  assert (Forall2 (λ i d, i < d) (swap_axes d1 d0 (unravel sh k)) (swap_axes d0 d1 sh)) as Hw.
  { rewrite (swap_axes_comm d1 d0). by apply Forall2_swap_axes. }
  rewrite list_lookup_fmap, lookup_seq_lt by (by apply ravel_lt). simpl.
  rewrite unravel_ravel by done.
  by rewrite swap_axes_invol, ravel_unravel.
Qed.

Lemma transpose_data_length t d0 d1 :
  length (data (transpose t d0 d1)) = numel (shape (transpose t d0 d1)).
Proof. unfold transpose. simpl. by rewrite length_fmap, length_seq. Qed.

Lemma sort_dim0_rectangular descending nc (m : matrix) :
  Forall (λ row, length row = nc) (sort_dim0 descending nc m).
Proof.
  unfold sort_dim0, of_columns. apply Forall_fmap, Forall_forall. intros i _. simpl.
  by rewrite !length_fmap, length_seq.
Qed.

(** The slices of [torch.sort(t, dim)] along [dim]. *)
Lemma torch_sort_fibres t dim descending j :
  length (data t) = numel (shape t) → shape t ≠ [] →
  j < numel (tail (shape (transpose t dim 0))) →
  column j (rows (transpose (torch_sort t dim descending) dim 0))
  = sort_list descending (column j (rows (transpose t dim 0))).
Proof.
  intros Hlen Hne Hj. unfold torch_sort.
  set (tr := transpose t dim 0) in *. set (rest := tail (shape tr)) in *.
  pose proof (sort_dim0_rectangular descending (numel rest) (rows tr)) as Hrect.
  rewrite transpose_invol.
  - rewrite rows_of_rows by done. apply sort_dim0_column; [|done].
    apply rows_rectangular; [apply transpose_data_length|].
    unfold tr. simpl. intros Hnil. apply (f_equal length) in Hnil.
    rewrite swap_axes_length in Hnil. by destruct (shape t).
  - simpl. rewrite (concat_length_rectangular _ _ Hrect). done.
Qed.

(** C8.  When the sort axis (the last one when none is given) is a valid
    axis that differs from the split axis, or the array is not split,
    [sort] returns without communication what the spec describes: on every
    rank the chunk it held with every slice along the axis sorted, under
    the old global shape and split. *)
Theorem sort_fast_path junk a (axis : option Z) descending :
  let ax := default (Z.of_nat (length (gshape a)) - 1)%Z axis in
  wf_DNDarray a →
  (- Z.of_nat (length (gshape a)) ≤ ax < Z.of_nat (length (gshape a)))%Z →
  Z.of_nat <$> split a ≠ Some ax →
  ∃ r, sort junk a axis descending = Ok (r, [])
       ∧ sorted_locally (normal_axis (length (gshape a)) ax) descending a r.
Proof.
  intros ax Hwf Hax Hsplit. unfold sort.
  change (default (Z.of_nat (length (gshape a)) - 1)%Z axis) with ax.
  assert (is_ok (sanitize_axis (gshape a) ax) = true) as Hok.
  { unfold sanitize_axis. repeat case_decide; try done; lia. }
  destruct (sanitize_axis (gshape a) ax) as [n|]; [simpl|done].
  rewrite decide_True.
  2:{ destruct (split a) as [s|]; [right|by left]. congruence. }
  eexists. split; [reflexivity|].
  unfold sorted_locally. simpl. split; [done|]. split; [done|].
  apply Forall2_fmap_r, Forall_Forall2_diag, Forall_forall. intros t Ht.
  unfold compose. cbv beta.
  pose proof (wf_shape_length a t Hwf Ht) as Hdims.
  assert (torch_dim t ax = normal_axis (length (gshape a)) ax) as ->.
  { unfold torch_dim, normal_axis. rewrite Hdims. by case_decide. }
  set (k := normal_axis (length (gshape a)) ax).
  assert (shape t ≠ []) as Hne.
  { intros Hnil. rewrite Hnil in Hdims. simpl in Hdims. lia. }
  assert (length (data t) = numel (shape t)) as Hlen.
  { unfold wf_DNDarray in Hwf. rewrite Forall_forall in Hwf. by apply Hwf. }
  pose proof (torch_sort_shape t k descending Hne) as Hsh.
  split; [done|]. split.
  { unfold torch_sort. apply transpose_data_length. }
  unfold slices_along. cbv zeta.
  replace (shape (transpose (torch_sort t k descending) k 0))
    with (shape (transpose t k 0))
    by (change (swap_axes k 0 (shape t)
                = swap_axes k 0 (shape (torch_sort t k descending))); by rewrite Hsh).
  apply Forall2_fmap, Forall_Forall2_diag, Forall_forall. intros j Hj.
  apply elem_of_seq in Hj as [_ Hj]. simpl in Hj.
  rewrite torch_sort_fibres by done.
  split; [apply sort_list_sorted|apply sort_list_perm].
Qed.

(** A 2×2 array split by rows, sorted along its rows, the axis given as -1. *)
Lemma sort_fast_path_witness :
  ∃ r, sort 0 two_by_two (Some (-1)%Z) true = Ok (r, [])
       ∧ larray r = [Tensor [1; 2] [3; 2]%Z; Tensor [1; 2] [3; 1]%Z]
       ∧ sorted_locally 1 true two_by_two r.
Proof.
  destruct (sort_fast_path 0 two_by_two (Some (-1)%Z) true) as (r & Hr & Hsorted).
  - apply wf_row_array. repeat constructor.
  - simpl. lia.
  - simpl. discriminate.
  - exists r. split; [done|]. split; [|done].
    vm_compute in Hr. by injection Hr as <-.
Defined.

(** X22.  Along an axis that is not the split axis [sort] returns, without
    communication, on every rank a tensor of the old shape in which every
    slice along the axis is in order and holds the elements it held. *)
Theorem sort_fast_path_sorts junk a k descending :
  wf_DNDarray a → k < length (gshape a) → split a ≠ Some k →
  ∃ r, sort junk a (Some (Z.of_nat k)) descending = Ok (r, [])
       ∧ Forall2 (λ t t',
            shape t' = shape t
            ∧ ∀ j, j < numel (tail (shape (transpose t k 0))) →
                Sorted (sort_order descending) (column j (rows (transpose t' k 0)))
                ∧ column j (rows (transpose t' k 0)) ≡ₚ column j (rows (transpose t k 0)))
           (larray a) (larray r).
Proof.
  intros Hwf Hk Hsplit. eexists. split.
  - unfold sort. simpl. rewrite sanitize_axis_nat by done. simpl.
    rewrite decide_True; [done|].
    destruct (split a) as [s|]; [right|by left]. simpl. intros [= Heq].
    apply Hsplit. f_equal. lia.
  - simpl. apply Forall2_fmap_r, Forall_Forall2_diag, Forall_forall. intros t Ht.
    unfold compose. cbv beta.
    assert (torch_dim t (Z.of_nat k) = k) as ->.
    { unfold torch_dim. rewrite decide_False by lia. apply Nat2Z.id. }
    assert (shape t ≠ []) as Hne.
    { intros Hnil. apply (wf_shape_length a t Hwf) in Ht. rewrite Hnil in Ht. simpl in Ht. lia. }
    assert (length (data t) = numel (shape t)) as Hlen.
    { unfold wf_DNDarray in Hwf. rewrite Forall_forall in Hwf. by apply Hwf. }
    split; [by apply torch_sort_shape|]. intros j Hj.
    rewrite torch_sort_fibres by done.
    split; [apply sort_list_sorted|apply sort_list_perm].
Qed.

Lemma sort_fast_path_sorts_witness :
  ∃ r, sort 0 two_by_two (Some (Z.of_nat 1)) true = Ok (r, [])
       ∧ Forall2 (λ t t',
            shape t' = shape t
            ∧ ∀ j, j < numel (tail (shape (transpose t 1 0))) →
                Sorted (sort_order true) (column j (rows (transpose t' 1 0)))
                ∧ column j (rows (transpose t' 1 0)) ≡ₚ column j (rows (transpose t 1 0)))
           (larray two_by_two) (larray r).
Proof.
  apply (sort_fast_path_sorts 0 two_by_two 1 true).
  - apply wf_row_array. repeat constructor.
  - vm_compute. lia.
  - discriminate.
Defined.

Lemma classify_bound descending pivots val c :
  classify descending pivots val = Ok c → c ≤ length pivots.
Proof.
  unfold classify, Py.next. destruct (List.find _ _) as [x|] eqn:Hf; [|done].
  intros [= <-]. apply find_seq_first in Hf as (Hr & _). lia.
Qed.

Lemma column_length_le j (m : list (list Z)) : length (column j m) ≤ length m.
Proof.
  unfold column. induction m as [|row m IH]; [done|]. csimpl.
  destruct (row !! j); simpl; lia.
Qed.

(** Every entry of [index_matrix] is a rank. *)
Lemma index_matrix_entries descending gp (ls : list (list Z)) im :
  index_matrix descending gp ls = Ok im →
  Forall2 (λ x row, length row = length x
                    ∧ Forall (λ c, c ≤ length gp) row) ls im.
Proof.
  unfold index_matrix. intros H. apply mapM_Ok_Forall2 in H.
  eapply Forall2_impl; [exact H|]. intros x row Hrow. simpl in Hrow.
  split.
  - apply mapM_Ok_length in Hrow. by rewrite length_imap in Hrow.
  - apply mapM_Ok_Forall2 in Hrow. apply Forall_forall. intros c Hc.
    apply list_elem_of_lookup in Hc as [i Hi].
    destruct (Forall2_lookup_r _ _ _ _ _ Hrow Hi) as ([j v] & _ & Hcl). simpl in Hcl.
    apply classify_bound in Hcl. pose proof (column_length_le j gp). lia.
Qed.

Lemma sum_indicator (c0 size : nat) :
  c0 < size →
  foldr Z.add 0%Z ((λ c, if decide (c0 = c) then 1 else 0)%Z <$> seq 0 size) = 1%Z.
Proof.
  intros Hlt. induction size as [|size IH]; [lia|].
  rewrite seq_S, fmap_app, foldr_app. simpl.
  destruct (decide (c0 = size)) as [->|Hne].
  - clear IH Hlt.
    assert (∀ z, foldr Z.add z ((λ c, if decide (size = c) then 1 else 0)%Z <$> seq 0 size)
                 = z) as ->; [|done].
    intros z. assert (∀ n, n ≤ size →
      foldr Z.add z ((λ c, if decide (size = c) then 1 else 0)%Z <$> seq 0 n) = z) as Hn;
      [|by apply Hn].
    induction n as [|n IHn]; intros Hle; [done|].
    rewrite seq_S, fmap_app, foldr_app. simpl. rewrite decide_False by lia.
    rewrite Z.add_0_l. apply IHn. lia.
  - rewrite Z.add_0_l. apply IH. lia.
Qed.

Lemma foldr_add_fmap_plus {A} (f g : A → Z) (l : list A) :
  foldr Z.add 0%Z ((λ x, f x + g x)%Z <$> l)
  = (foldr Z.add 0%Z (f <$> l) + foldr Z.add 0%Z (g <$> l))%Z.
Proof. induction l as [|x l IH]; [done|]. csimpl. rewrite IH. lia. Qed.

(** Counting the rows by the rank they name in column [j] counts every row once. *)
Lemma count_by_rank (im : list (list nat)) j size :
  Forall (λ row, ∃ c, row !! j = Some c ∧ c < size) im →
  foldr Z.add 0%Z
    ((λ c, Z.of_nat (length (filter (λ row : list nat, row !! j = Some c) im)))
       <$> seq 0 size)
  = Z.of_nat (length im).
Proof.
  induction 1 as [|row im (c0 & Hc0 & Hlt) _ IH]; simpl.
  - induction (seq 0 size) as [|c cs IHc]; [done|]. csimpl. by rewrite IHc.
  - rewrite <- (list_fmap_ext
      (λ c, (if decide (c0 = c) then 1 else 0)
            + Z.of_nat (length (filter (λ row : list nat, row !! j = Some c) im)))%Z).
    + rewrite foldr_add_fmap_plus, IH, sum_indicator by done. lia.
    + intros _ c _. simpl. rewrite filter_cons, Hc0.
      destruct (decide (c0 = c)) as [->|Hne].
      * rewrite decide_True by done. simpl. lia.
      * rewrite decide_False by congruence. lia.
Qed.

(** X23.  The plan of the exchange accounts for every local element once: in
    every column the counts per destination add up to the number of local
    rows. *)
Theorem count_dest_accounts_for_all rest descending size gp (ls : list (list Z)) im j :
  index_matrix descending gp ls = Ok im →
  Forall (λ row, length row = numel rest) ls →
  length gp < size → j < numel rest →
  foldr Z.add 0%Z (column j (count_dest rest size im)) = Z.of_nat (length ls).
Proof.
  intros Him Hls Hgp Hj.
  pose proof (index_matrix_entries _ _ _ _ Him) as Hent.
  rewrite (Forall2_length _ _ _ Hent).
  rewrite <- (count_by_rank im j size).
  - f_equal. unfold column, count_dest.
    rewrite (omap_all_Some _ (λ row, default 0%Z (row !! j))).
    + rewrite <- list_fmap_compose. apply list_fmap_ext. intros _ c _. simpl.
      by rewrite list_lookup_fmap, lookup_seq_lt.
    + apply Forall_fmap, Forall_forall. intros c _. simpl.
      by rewrite list_lookup_fmap, lookup_seq_lt.
  - apply Forall_forall. intros row Hrow.
    apply list_elem_of_lookup in Hrow as [i Hi].
    destruct (Forall2_lookup_r _ _ _ _ _ Hent Hi) as (x & Hx & Hlen & Hbound).
    rewrite Forall_forall in Hls.
    assert (j < length row) as Hjr.
    { rewrite Hlen, (Hls x) by (by eapply list_elem_of_lookup_2). done. }
    destruct (lookup_lt_is_Some_2 row j Hjr) as [c Hc]. exists c. split; [done|].
    rewrite Forall_forall in Hbound.
    specialize (Hbound c (list_elem_of_lookup_2 _ _ _ Hc)). lia.
Qed.

Lemma count_dest_accounts_for_all_witness :
  index_matrix false [[5]]%Z [[3]; [7]; [9]]%Z = Ok [[0]; [1]; [1]]
  ∧ foldr Z.add 0%Z (column 0 (count_dest [1] 2 [[0]; [1]; [1]]))
    = Z.of_nat (length [[3]; [7]; [9]]%Z).
Proof.
  split; [reflexivity|].
  apply (count_dest_accounts_for_all [1] false 2 [[5]]%Z [[3]; [7]; [9]]%Z).
  - reflexivity.
  - repeat constructor.
  - simpl. lia.
  - simpl. lia.
Defined.


Lemma first_index_spec (pos_list : list Z) p :
  p ∈ pos_list →
  pos_list !! first_index pos_list p = Some p
  ∧ ∀ i q, i < first_index pos_list p → pos_list !! i = Some q → q ≠ p.
Proof.
  intros Hp. unfold first_index.
  destruct (list_find (λ q, q = p) pos_list) as [[i x]|] eqn:Hf.
  - apply list_find_Some in Hf as (Hi & -> & Hmin). simpl. split; [done|].
    intros i' q Hlt Hq. by apply (Hmin i' q).
  - apply list_find_None in Hf. rewrite Forall_forall in Hf. by destruct (Hf p Hp).
Qed.

Lemma coordinator_indices_inv (pos_list : list Z) m todo : ∀ found indices,
  indices = first_index pos_list <$> found → NoDup found →
  ∃ found', coordinator_indices pos_list m found indices todo
            = first_index pos_list <$> found'
            ∧ NoDup found'
            ∧ (∀ p, p ∈ found' → p ∈ found ∨ p ∈ todo)
            ∧ (∀ p, p ∈ found ∨ p ∈ todo → p ∈ found' ∨ length found' = m).
Proof.
  induction todo as [|p todo IH]; intros found indices Hidx Hnd; simpl.
  - exists found. repeat split; [done..|tauto|].
    intros q [Hq|Hq]; [by left|by apply elem_of_nil in Hq].
  - destruct (decide (p ∈ found)) as [Hin|Hin]; simpl.
    + destruct (decide (length indices = m)) as [Hm|Hm].
      * exists found. repeat split; [done..|tauto|].
        intros q _. right. by rewrite Hidx, length_fmap in Hm.
      * destruct (IH found indices Hidx Hnd) as (f' & -> & Hnd' & Hsub & Hall).
        exists f'. repeat split; [done..| |].
        -- intros q Hq. destruct (Hsub q Hq); [by left|right; by right].
        -- intros q [Hq|Hq]; [by apply Hall; left|].
           apply elem_of_cons in Hq as [->|Hq]; apply Hall; auto.
    + assert (indices ++ [first_index pos_list p]
              = first_index pos_list <$> (found ++ [p])) as Hidx'.
      { by rewrite fmap_app, Hidx. }
      assert (NoDup (found ++ [p])) as Hnd'.
      { apply NoDup_app. repeat split; [done| |apply NoDup_singleton].
        intros q Hq ->%list_elem_of_singleton. done. }
      fold (first_index pos_list p).
      destruct (decide (length (indices ++ [first_index pos_list p]) = m)) as [Hm|Hm].
      * exists (found ++ [p]). repeat split; [done..| |].
        -- intros q Hq. apply elem_of_app in Hq as [Hq|Hq]; [by left|].
           apply list_elem_of_singleton in Hq as ->. right. by left.
        -- intros q _. right. by rewrite Hidx', length_fmap in Hm.
      * destruct (IH _ _ Hidx' Hnd') as (f' & -> & Hnd'' & Hsub & Hall).
        exists f'. repeat split; [done..| |].
        -- intros q Hq. destruct (Hsub q Hq) as [Hq'|Hq']; [|right; by right].
           apply elem_of_app in Hq' as [Hq'|Hq']; [by left|].
           apply list_elem_of_singleton in Hq' as ->. right. by left.
        -- intros q [Hq|Hq]; apply Hall.
           ++ left. apply elem_of_app. by left.
           ++ apply elem_of_cons in Hq as [->|Hq]; [|by right].
              left. apply elem_of_app. right. by left.
Qed.

(** X24.  The index list of the coordinator (lines 608-616): every index is
    the first position of its entry in [pos_list], no index comes twice, and
    every entry of [pos_list] is covered unless the list stopped at
    [max_uniques] indices. *)
Theorem coordinator_indices_first_occurrences (pos_list : list Z) m :
  let indices := coordinator_indices pos_list m [] [] pos_list in
  Forall (λ i, ∃ p, pos_list !! i = Some p
                    ∧ ∀ i' q, i' < i → pos_list !! i' = Some q → q ≠ p) indices
  ∧ NoDup indices
  ∧ ∀ p, p ∈ pos_list →
         (∃ i, i ∈ indices ∧ pos_list !! i = Some p) ∨ length indices = m.
Proof.
  destruct (coordinator_indices_inv pos_list m pos_list [] [] eq_refl (NoDup_nil_2))
    as (found & Heq & Hnd & Hsub & Hall).
  simpl. rewrite Heq.
  assert (∀ p, p ∈ found → p ∈ pos_list) as Hin.
  { intros p Hp. destruct (Hsub p Hp) as [H|H]; [by apply elem_of_nil in H|done]. }
  split; [|split].
  - apply Forall_fmap, Forall_forall. intros p Hp. simpl.
    exists p. by apply first_index_spec, Hin.
  - apply NoDup_fmap_2_strong; [|done]. intros p q Hp Hq Heq'.
    destruct (first_index_spec pos_list p (Hin p Hp)) as [Hp' _].
    destruct (first_index_spec pos_list q (Hin q Hq)) as [Hq' _].
    rewrite Heq' in Hp'. congruence.
  - intros p Hp. destruct (Hall p (or_intror Hp)) as [Hf|Hm].
    + left. exists (first_index pos_list p). split; [by apply list_elem_of_fmap_2|].
      by apply first_index_spec.
    + right. by rewrite length_fmap.
Qed.

(** X25.  The guard of lines 493-505 covers the local call only: on a split
    array without a single element, [unique] without axis hands the empty
    gathered buffer to the second call of the primitive (line 558), and
    raises when the primitive rejects an empty tensor, as the comment on
    line 494 says it does. *)
Theorem unique_no_elements_raises tu a s sorted :
  (∀ t sorted dim, numel (shape t) = 0 → tu t sorted dim = Raise RuntimeError) →
  split a = Some s →
  Forall (λ t, lshape_at s t = 0) (larray a) →
  unique tu a sorted false None = Raise RuntimeError.
Proof.
  intros Htu Hs Hempty. unfold unique. rewrite Hs.
  rewrite (mapM_Ok_fmap _ (λ _, (Tensor [0] [], Tensor (<[s := 0]> (gshape a)) []))).
  - simpl. unfold allgatherv. rewrite decide_True by done. simpl.
    rewrite Htu; [done|]. unfold concat0. simpl.
    rewrite <- !list_fmap_compose.
    replace (foldr Nat.add 0 _) with 0; [done|].
    clear. induction (larray a) as [|t l IH]; [done|]. csimpl. by rewrite <- IH.
  - eapply Forall_impl; [exact Hempty|]. intros t Ht. simpl.
    unfold local_unique. simpl. by rewrite decide_True.
Qed.

Lemma unique_no_elements_raises_witness :
  unique torch_unique_model (col_array [[]; []]) true false None = Raise RuntimeError.
Proof.
  apply (unique_no_elements_raises torch_unique_model (col_array [[]; []]) 0 true).
  - intros t sorted dim Hd. unfold torch_unique_model. by rewrite decide_True.
  - reflexivity.
  - repeat constructor.
Defined.

(** ** The surplus branch and the global pivots of [sort] *)

(** X26.  The surplus branch (lines 278-312) leaves the sender as it is: the
    element it sends stays in its [local_result] and in its [partial], and
    the one transfer of the step goes to a rank above the sender. *)
Theorem push_leaves_sender junk rest axis descending i j val st st' :
  push junk rest axis descending i j val st = Ok st' →
  procs st' !! i = procs st !! i
  ∧ ∃ receiver, i < receiver ∧ transfers st' = transfers st ++ [EvSend i receiver].
Proof.
  unfold push. intros H.
  apply bind_Ok in H as (receiver & Hrecv & H).
  apply bind_Ok in H as (ps & Hps & H). apply lookup_or_raise_Ok in Hps.
  do 10 (apply bind_Ok in H as (? & _ & H)).
  unfold book_transfer in H. do 4 (apply bind_Ok in H as (? & _ & H)).
  injection H as <-. simpl.
  assert (i < receiver) as Hlt.
  { unfold first_nonempty_above in Hrecv. apply bind_Ok in Hrecv as (hit & _ & Hrecv).
    injection Hrecv as <-. lia. }
  split; [|eauto].
  rewrite list_lookup_insert_ne by lia. by rewrite list_insert_id.
Qed.

(** Rank 0 of [three_and_one] has one element to spare. *)
Lemma push_leaves_sender_witness :
  ∃ st', push 0%Z [1] 0 false 0 0 1%Z three_and_one = Ok st'
         ∧ procs st' !! 0 = procs three_and_one !! 0
         ∧ ∃ receiver, 0 < receiver
                       ∧ transfers st' = transfers three_and_one ++ [EvSend 0 receiver].
Proof.
  eexists. split; [vm_compute; reflexivity|].
  apply (push_leaves_sender 0%Z [1] 0 false 0 0 1%Z three_and_one).
  vm_compute. reflexivity.
Defined.

Lemma getitem_default (m : list (list Z)) p :
  p < length m → Py.getitem m (Z.of_nat p) = Ok (default [] (m !! p)).
Proof.
  intros Hlt. destruct (lookup_lt_is_Some_2 m p Hlt) as [row Hrow].
  rewrite Hrow. by apply getitem_nat.
Qed.

Lemma lookup_default_elem (m : list (list Z)) p :
  p < length m → default [] (m !! p) ∈ m.
Proof.
  intros Hlt. destruct (lookup_lt_is_Some_2 m p Hlt) as [row Hrow].
  rewrite Hrow. by eapply list_elem_of_lookup_2.
Qed.

(** X27.  GLOBAL_PIVOT_COMPUTE (lines 129-135): from a pivot buffer that is
    not empty rank 0 takes [size - 1] global pivots, each of them a row of
    the sorted buffer; no index [x * length // size] runs out of it. *)
Theorem global_pivots_in_range rest descending size (pivot_buffer : list (list Z)) :
  pivot_buffer ≠ [] → 0 < size →
  ∃ gp, global_pivots rest descending size pivot_buffer = Ok gp
        ∧ length gp = size - 1
        ∧ ∀ row, row ∈ gp → row ∈ sort_dim0 descending (ncols rest) pivot_buffer.
Proof.
  intros Hne Hsize. unfold global_pivots, take_rows.
  set (sp := sort_dim0 descending (ncols rest) pivot_buffer).
  assert (0 < length sp) as Hn.
  { unfold sp. rewrite sort_dim0_length. destruct pivot_buffer; [done|simpl; lia]. }
  set (ps := (λ x, x * length sp / size) <$> seq 1 (size - 1)).
  exists ((λ p, default [] (sp !! p)) <$> ps).
  assert (Forall (λ p, p < length sp) ps) as Hp.
  { unfold ps. apply Forall_fmap, Forall_forall. intros x Hx. simpl.
    apply elem_of_seq in Hx. apply Nat.Div0.div_lt_upper_bound. nia. }
  split; [|split].
  - apply mapM_Ok_fmap. eapply Forall_impl; [exact Hp|]. intros p Hlt. simpl.
    by apply getitem_default.
  - unfold ps. by rewrite !length_fmap, length_seq.
  - intros row Hrow. apply list_elem_of_fmap in Hrow as (p & -> & Hin).
    rewrite Forall_forall in Hp. by apply lookup_default_elem, Hp.
Qed.

(** Four local pivots on two ranks. *)
Lemma global_pivots_in_range_witness :
  ∃ gp, global_pivots [1] false 2 [[3]; [1]; [2]; [5]]%Z = Ok gp
        ∧ length gp = 2 - 1
        ∧ ∀ row, row ∈ gp → row ∈ sort_dim0 false (ncols [1]) [[3]; [1]; [2]; [5]]%Z.
Proof.
  apply (global_pivots_in_range [1] false 2 [[3]; [1]; [2]; [5]]%Z); [done|lia].
Defined.

(** ** The inverse indices of the flat [unique] (lines 537-589) *)

(** One chunk's worth of steps of the loop of lines 581-585: inside the
    stretch of rank [r] the displacement is that of [r]. *)
Lemma update_indices_block le displs ginv r d rest : ∀ (X out : list Z) cur num,
  cur = r ∨ (X ≠ [] ∧ cur + 1 = r ∧ ∃ b, le !! cur = Some (Some b) ∧ b ≤ num) →
  le !! r = Some None ∨ (∃ b, le !! r = Some (Some b) ∧ num + length X ≤ b) →
  displs !! r = Some d →
  Forall2 (λ x v, Py.getitem ginv (x + Z.of_nat d) = Ok v) X out →
  update_indices le displs ginv cur num (X ++ rest)
  = tl ← update_indices le displs ginv r (num + length X) rest; Ok (out ++ tl).
Proof.
  intros X out cur num Hentry Hbound Hd HX. revert cur num Hentry Hbound.
  induction HX as [|x v X out Hv _ IH]; intros cur num Hentry Hbound.
  - destruct Hentry as [->|[? _]]; [|done]. simpl.
    replace (num + 0) with num by lia.
    destruct (update_indices le displs ginv r num rest); done.
  - cbn [app update_indices length].
    assert (lookup_or_raise le cur ≫= (λ bound,
              Ok (match bound with
                  | Some b => if decide (b ≤ num) then cur + 1 else cur
                  | None => cur
                  end)) = Ok r) as Hcur.
    { unfold lookup_or_raise. destruct Hentry as [->|(_ & <- & b & -> & Hb)].
      - destruct Hbound as [->|(b & -> & Hb)]; simpl; [done|].
        cbn [length] in Hb. by rewrite decide_False by lia.
      - simpl. by rewrite decide_True. }
    unfold lookup_or_raise in *.
    destruct (le !! cur) as [bound|]; [|done]. simpl in *. injection Hcur as Hcur.
    rewrite Hcur, Hd. simpl. rewrite Hv. simpl.
    rewrite (IH r (num + 1)).
    + replace (num + 1 + length X) with (num + S (length X)) by lia.
      destruct (update_indices le displs ginv r (num + S (length X)) rest); done.
    + by left.
    + destruct Hbound as [?|(b & ? & ?)]; [by left|right]. exists b. split; [done|lia].
Qed.

(** All chunks, one after the other. *)
Lemma update_indices_blocks le displs ginv : ∀ (Xs outs : list (list Z)) r cur num,
  Forall (λ X, X ≠ []) Xs →
  cur = r ∨ (cur + 1 = r ∧ ∃ b, le !! cur = Some (Some b) ∧ b ≤ num) →
  (∀ i, i + 1 < length Xs →
        le !! (r + i) = Some (Some (num + length (mjoin (take (S i) Xs))))) →
  (Xs ≠ [] → le !! (r + length Xs - 1) = Some None) →
  Forall2 (λ (ix : nat * list Z) out,
             ∃ d, displs !! (r + ix.1) = Some d
                  ∧ Forall2 (λ x v, Py.getitem ginv (x + Z.of_nat d) = Ok v) ix.2 out)
          (imap pair Xs) outs →
  update_indices le displs ginv cur num (mjoin Xs) = Ok (mjoin outs).
Proof.
  induction Xs as [|X Xs IH]; intros outs r cur num Hne Hentry Hle Hlast Houts.
  - apply Forall2_nil_inv_l in Houts as ->. done.
  - rewrite imap_cons in Houts.
    apply Forall2_cons_inv_l in Houts as (out & outs' & (d & Hd & Hout) & Houts & ->).
    simpl in Hd. rewrite Nat.add_0_r in Hd.
    apply Forall_cons in Hne as [HX Hne].
    change (mjoin (X :: Xs)) with (X ++ mjoin Xs).
    change (mjoin (out :: outs')) with (out ++ mjoin outs').
    rewrite (update_indices_block le displs ginv r d _ X out cur num); [| |  |done..].
    + destruct (decide (Xs = [])) as [->|HXs].
      { apply Forall2_nil_inv_l in Houts as ->. done. }
      rewrite (IH outs' (S r) r (num + length X)); [reflexivity|assumption| | | |].
      * destruct Xs as [|X' Xs]; [done|right]. split; [lia|].
        specialize (Hle 0 ltac:(simpl; lia)). rewrite Nat.add_0_r in Hle.
        simpl in Hle. rewrite app_nil_r in Hle. eauto.
      * intros i Hi. specialize (Hle (S i) ltac:(simpl; lia)).
        replace (S r + i) with (r + S i) by lia. rewrite Hle. do 2 f_equal.
        change (take (S (S i)) (X :: Xs)) with (X :: take (S i) Xs).
        change (mjoin (X :: take (S i) Xs)) with (X ++ mjoin (take (S i) Xs)).
        rewrite length_app. lia.
      * intros Hne'. specialize (Hlast ltac:(done)). simpl in Hlast.
        rewrite <- Hlast. f_equal. destruct Xs; [done|simpl; lia].
      * apply Forall2_same_length_lookup_2.
        { apply Forall2_length in Houts. by rewrite length_imap in *. }
        intros i [j X'] o Hi Ho. rewrite list_lookup_imap in Hi.
        destruct (Xs !! i) as [X''|] eqn:HXi; [|done]. simpl in Hi.
        injection Hi as <- <-.
        destruct (Forall2_lookup_lr _ _ _ i (S i, X'') o Houts) as (d' & Hd' & Ho');
          [by rewrite list_lookup_imap, HXi|done|].
        simpl in *. exists d'. split; [|done].
        by replace (S (r + i)) with (r + S i) by lia.
    + destruct Hentry as [?|(? & ?)]; [by left|right; done].
    + destruct Xs as [|X' Xs].
      * left. specialize (Hlast ltac:(done)). simpl in Hlast.
        by replace (r + 1 - 1) with r in Hlast by lia.
      * right. specialize (Hle 0 ltac:(simpl; lia)). rewrite Nat.add_0_r in Hle.
        simpl in Hle. rewrite app_nil_r in Hle. eauto.
Qed.

Lemma transpose_comm t d0 d1 : transpose t d0 d1 = transpose t d1 d0.
Proof.
  unfold transpose. rewrite (swap_axes_comm d0 d1 (shape t)). f_equal.
  apply list_fmap_ext. intros i k _. by rewrite (swap_axes_comm d0 d1).
Qed.

(** Swapping two axes moves the entries of two tensors of one shape in the
    same way. *)
Lemma transpose_Forall2 (R : Z → Z → Prop) sh d0 d1 (l k : list Z) :
  length l = numel sh → Forall2 R l k →
  Forall2 R (data (transpose (Tensor sh l) d0 d1)) (data (transpose (Tensor sh k) d0 d1)).
Proof.
  intros Hlen HR. unfold transpose. simpl.
  apply Forall2_fmap, Forall_Forall2_diag, Forall_forall. intros i Hi.
  apply elem_of_seq in Hi as [_ Hi]. simpl in Hi.
  pose proof (unravel_valid _ _ Hi) as Hu.
  apply (Forall2_swap_axes _ d1 d0) in Hu.
  rewrite swap_axes_invol, (swap_axes_comm d1 d0) in Hu.
  apply ravel_lt in Hu. rewrite <- Hlen in Hu.
  destruct (lookup_lt_is_Some_2 l _ Hu) as [x Hx].
  destruct (Forall2_lookup_l _ _ _ _ _ HR Hx) as (y & Hy & Hxy).
  by rewrite Hx, Hy.
Qed.

(** The inverse map of the primitive leads every element to itself. *)
Lemma flat_inverse_local (l : list Z) :
  Forall2 (λ v x, ∃ j, x = Z.of_nat j ∧ flat_unique l !! j = Some v) l
          (inverse_of (unique_rows ((λ x, [x]) <$> l)) ((λ x, [x]) <$> l)).
Proof.
  apply Forall2_same_length_lookup_2.
  { unfold inverse_of. by rewrite !length_fmap. }
  intros i v x Hv Hx.
  destruct (inverse_of_lookup (unique_rows ((λ x, [x]) <$> l)) ((λ x, [x]) <$> l) i [v])
    as (k & Hk & Hu).
  { by rewrite list_lookup_fmap, Hv. }
  { apply elem_of_unique_rows. apply (list_elem_of_fmap_2 (λ x : Z, [x])).
    by eapply list_elem_of_lookup_2. }
  rewrite Hk in Hx. injection Hx as <-. exists k. split; [done|].
  rewrite unique_rows_singletons, list_lookup_fmap in Hu.
  destruct (flat_unique l !! k); simpl in Hu; congruence.
Qed.

Lemma omap_keep_all (s : nat) (h : nat → nat) (g : list nat) :
  (∀ i, h i ≠ s) →
  omap (λ nv : nat * nat, if decide (nv.1 = s) then None else Some nv.2)
       (imap (λ i x, (h i, x)) g) = g.
Proof.
  revert h. induction g as [|x g IH]; intros h Hh; [done|].
  rewrite imap_cons. csimpl. rewrite decide_False by apply Hh. simpl. f_equal.
  apply (IH (h ∘ S)). intros i. apply Hh.
Qed.

(** Lines 566-569: a chunk of [c] layers holds [c] times
    [elements_per_layer] elements. *)
Lemma elements_per_layer_numel (g : list nat) : ∀ k s c,
  k ≤ s → s - k < length g →
  c * foldr Nat.mul 1
        (omap (λ nv : nat * nat, if decide (nv.1 = s) then None else Some nv.2)
              (imap (λ i x, (k + i, x)) g))
  = numel (<[s - k := c]> g).
Proof.
  induction g as [|x g IH]; intros k s c Hk Hlt; [simpl in Hlt; lia|].
  rewrite imap_cons.
  change (imap ((λ i x, (k + i, x)) ∘ S) g) with (imap (λ i x : nat, (k + S i, x)) g).
  csimpl. rewrite Nat.add_0_r.
  destruct (decide (k = s)) as [->|Hne].
  - rewrite Nat.sub_diag. simpl.
    rewrite (omap_keep_all s (λ i, s + S i) g) by (intros; lia). done.
  - simpl. replace (s - k) with (S (s - S k)) by lia. simpl in *.
    rewrite <- (IH (S k) s c) by lia.
    rewrite (imap_ext _ (λ i x, (S k + i, x)) g) by (intros; simpl; f_equal; lia).
    unfold numel. lia.
Qed.

Lemma sum_take_lengths {A} (ls : list (list A)) : ∀ q,
  foldr Nat.add 0 (take q (length <$> ls)) = length (mjoin (take q ls)).
Proof.
  induction ls as [|l ls IH]; intros [|q]; try done.
  csimpl. by rewrite length_app, IH.
Qed.

Lemma lookup_mjoin_chunk {A} (ls : list (list A)) q l j :
  ls !! q = Some l → j < length l →
  mjoin ls !! (length (mjoin (take q ls)) + j) = l !! j.
Proof.
  intros Hq Hj.
  replace (mjoin ls) with (mjoin (take q ls) ++ l ++ mjoin (drop (S q) ls)).
  2:{ rewrite <- (take_drop_middle ls q l Hq) at 3. by rewrite join_app. }
  rewrite lookup_app_r by lia.
  replace (_ + j - _) with j by lia.
  by rewrite lookup_app_l.
Qed.

Lemma running_sums_lookup (counts : list nat) r :
  r < length counts → running_sums counts !! r = Some (foldr Nat.add 0 (take r counts)).
Proof.
  intros Hr. unfold running_sums. by rewrite list_lookup_fmap, lookup_seq_lt.
Qed.

Lemma mjoin_lengths_eq {A B} (ls : list (list A)) (ks : list (list B)) :
  Forall2 (λ l k, length l = length k) ls ks → length (mjoin ls) = length (mjoin ks).
Proof.
  induction 1 as [|l k ls ks Hl _ IH]; [done|]. csimpl. rewrite !length_app. lia.
Qed.

Lemma Forall2_mjoin {A B} (R : A → B → Prop) ls ks :
  Forall2 (Forall2 R) ls ks → Forall2 R (mjoin ls) (mjoin ks).
Proof.
  induction 1 as [|l k ls ks Hl _ IH]; [constructor|]. csimpl. by apply Forall2_app.
Qed.

Lemma numel_insert_scale (l : list nat) : ∀ k c,
  k < length l → numel (<[k := c]> l) = c * numel (<[k := 1]> l).
Proof.
  induction l as [|x l IH]; intros [|k] c Hk; simpl in *; try lia.
  rewrite (IH k c) by lia. lia.
Qed.

Lemma swap_axes_split_first (g : list nat) s c :
  s < length g →
  swap_axes 0 s (<[s := c]> g) = c :: tail (swap_axes 0 s g).
Proof.
  intros Hlt. destruct g as [|g0 gt]; [simpl in Hlt; lia|].
  destruct s as [|k]; [done|]. simpl in Hlt.
  destruct (lookup_lt_is_Some_2 gt k ltac:(lia)) as [x Hx].
  unfold swap_axes. simpl. rewrite Hx.
  rewrite list_lookup_insert_eq by lia. simpl.
  by rewrite list_insert_insert_eq.
Qed.

(** [elements_per_layer] is the size of one slice along the split axis. *)
Lemma layer_size (g : list nat) s :
  s < length g →
  foldr Nat.mul 1 (omap (λ nv : nat * nat, if decide (nv.1 = s) then None else Some nv.2)
                        (imap pair g))
  = numel (tail (swap_axes 0 s g)).
Proof.
  intros Hlt.
  pose proof (elements_per_layer_numel g 0 s 1 ltac:(lia) ltac:(lia)) as He.
  rewrite Nat.sub_0_r, Nat.mul_1_l in He.
  change (imap (λ i x : nat, (0 + i, x)) g) with (imap pair g) in He.
  rewrite He. destruct g as [|g0 gt]; [simpl in Hlt; lia|].
  destruct s as [|k]; [simpl; lia|]. simpl in Hlt.
  destruct (lookup_lt_is_Some_2 gt k ltac:(lia)) as [x Hx].
  unfold swap_axes. simpl. rewrite Hx. simpl.
  rewrite (numel_insert_scale gt k g0) by lia. done.
Qed.

Lemma concat0_shape (f f' : tensor → tensor) (l : list tensor) :
  (∀ t, shape (f t) = shape (f' t)) →
  shape (concat0 (f <$> l)) = shape (concat0 (f' <$> l)).
Proof.
  intros H. unfold concat0. simpl. f_equal.
  - f_equal. rewrite <- !list_fmap_compose. apply list_fmap_ext.
    intros i t _. unfold lshape_at. simpl. by rewrite H.
  - destruct l as [|t l]; simpl; by rewrite ?H.
Qed.

(** What the loop of lines 581-585 reads for the entries of one chunk:
    with the displacement of the chunk's distinct values in the gathered
    list, the global inverse leads every element to itself. *)
Lemma chunk_indices (B fu : list Z) d (V X : list Z) :
  (∀ j v, fu !! j = Some v → B !! (d + j) = Some v) →
  Forall2 (λ v x, ∃ j, x = Z.of_nat j ∧ fu !! j = Some v) V X →
  let ginv := inverse_of (unique_rows ((λ x, [x]) <$> B)) ((λ x, [x]) <$> B) in
  let G := λ x, default 0%Z (ginv !! Z.to_nat (x + Z.of_nat d)) in
  Forall2 (λ x o, Py.getitem ginv (x + Z.of_nat d) = Ok o) X (G <$> X)
  ∧ Forall2 (λ v i, ∃ k, i = Z.of_nat k ∧ flat_unique B !! k = Some v) V (G <$> X).
Proof.
  intros HB HVX ginv G.
  induction HVX as [|v x V X (j & -> & Hj) _ [IH1 IH2]]; [split; constructor|].
  destruct (Forall2_lookup_l _ _ _ _ _ (flat_inverse_local B) (HB j v Hj))
    as (y & Hy & k & -> & Hk).
  fold ginv in Hy.
  assert (G (Z.of_nat j) = Z.of_nat k) as HG.
  { unfold G. replace (Z.to_nat (Z.of_nat j + Z.of_nat d)) with (d + j) by lia.
    by rewrite Hy. }
  csimpl. rewrite HG. split; constructor; try done.
  - replace (Z.of_nat j + Z.of_nat d)%Z with (Z.of_nat (d + j)) by lia.
    by apply getitem_nat.
  - eauto.
Qed.

Lemma lshape_transposed (t : tensor) s :
  s < length (shape t) → lshape_at 0 (transpose t 0 s) = lshape_at s t.
Proof.
  intros Hlt. unfold lshape_at, transpose, swap_axes. simpl.
  destruct (lookup_lt_is_Some_2 (shape t) 0 ltac:(lia)) as [x Hx].
  destruct (lookup_lt_is_Some_2 (shape t) s Hlt) as [y Hy].
  rewrite Hx, Hy. rewrite list_lookup_insert_eq by (rewrite length_insert; lia). done.
Qed.

Lemma length_mjoin_scaled {A} (Xs : list (list A)) (cs : list nat) e :
  Forall2 (λ X c, length X = c * e) Xs cs →
  length (mjoin Xs) = foldr Nat.add 0 cs * e.
Proof.
  induction 1 as [|X c Xs cs HX _ IH]; [done|]. csimpl. rewrite length_app. lia.
Qed.

Lemma torch_unique_model_flat t sorted :
  numel (shape t) ≠ 0 →
  torch_unique_model t sorted None
  = Ok (Tensor [length (unique_rows ((λ x, [x]) <$> data t))] (flat_unique (data t)),
        Tensor (shape t)
               (inverse_of (unique_rows ((λ x, [x]) <$> data t)) ((λ x, [x]) <$> data t))).
Proof. intros H. unfold torch_unique_model. by rewrite decide_False. Qed.

(** X28.  The inverse indices of the flat result (lines 537-589), with the
    model of [torch.unique]: on a split array in the balanced layout whose
    chunks all hold something, [unique] without axis returns, next to the
    distinct values, a tensor of the shape of the array that leads every
    element to its place among them: [result[inverse_indices[p]]] is
    [a[p]] at every position [p]. *)
Theorem unique_flat_inverse a s sorted :
  wf_DNDarray a → split a = Some s → s < length (gshape a) →
  lshape_at s <$> larray a
  = counts_displs_shape (comm_size a) (default 0 (gshape a !! s)) →
  Forall (λ t, numel (shape t) ≠ 0) (larray a) →
  larray a ≠ [] →
  ∃ d inv calls,
    unique torch_unique_model a sorted true None = Ok (HandleAndInverse d inv, calls)
    ∧ shape inv = shape (global_tensor a)
    ∧ Forall2 (λ v i, ∃ k, i = Z.of_nat k ∧ data (global_tensor d) !! k = Some v)
              (data (global_tensor a)) (data inv).
Proof.
  intros Hwf Hs Hlt Hbal Hne Hranks.
  set (g := gshape a) in *. set (L := larray a) in *.
  set (E := numel (tail (swap_axes 0 s g))).
  assert (Forall (λ t, length (data t) = numel (shape t)
                       ∧ shape t = <[s := lshape_at s t]> g
                       ∧ numel (shape t) = lshape_at s t * E
                       ∧ lshape_at s t ≠ 0) L ∧ E ≠ 0) as [Hchunks HE].
  { unfold wf_DNDarray in Hwf. rewrite Hs in Hwf. fold L g in Hwf.
    rewrite Forall_forall in *.
    assert (∀ t, t ∈ L → ∃ n, shape t = <[s := n]> g ∧ lshape_at s t = n
                             ∧ numel (shape t) = n * E ∧ n * E ≠ 0) as Hn.
    { intros t Ht. destruct (Hwf t Ht) as [Hlen [n Hsh]]. specialize (Hne t Ht).
      exists n. split; [done|]. split.
      { unfold lshape_at. by rewrite Hsh, list_lookup_insert_eq. }
      assert (numel (shape t) = n * E) as HnE; [|split; [done|by rewrite <- HnE]].
      unfold E. rewrite <- layer_size by done.
      pose proof (elements_per_layer_numel g 0 s n ltac:(lia) ltac:(lia)) as He.
      rewrite Nat.sub_0_r in He.
      change (imap (λ i x : nat, (0 + i, x)) g) with (imap pair g) in He.
      by rewrite He, <- Hsh. }
    split.
    - intros t Ht. destruct (Hwf t Ht) as [Hlen _].
      destruct (Hn t Ht) as (n & Hsh & -> & HnE & Hpos). repeat split; [done..|lia].
    - destruct L as [|t0 L']; [done|].
      destruct (Hn t0 ltac:(left)) as (n & _ & _ & _ & Hpos). lia. }
  set (ipf := λ t : tensor,
         Tensor (shape t) (inverse_of (unique_rows ((λ x, [x]) <$> data t))
                                      ((λ x, [x]) <$> data t))).
  set (luf := λ t : tensor,
         Tensor [length (flat_unique (data t))] (flat_unique (data t))).
  set (T := λ t : tensor, transpose (ipf t) 0 s).
  set (B := mjoin ((λ t, flat_unique (data t)) <$> L)).
  (* the local step *)
  unfold unique. rewrite Hs. fold L g.
  rewrite (mapM_Ok_fmap _ (λ t, (luf t, ipf t))).
  2:{ eapply Forall_impl; [exact Hchunks|]. intros t (Hlen & Hsh & HnE & Hc).
      rewrite (local_unique_flat g s sorted t).
      - unfold local_flat. by rewrite decide_False.
      - split; [done|]. intros _. rewrite HnE. lia. }
  rewrite bind_Ok_l. rewrite decide_True by (by left).
  assert (((λ t, (luf t, ipf t)) <$> L).*1 = luf <$> L) as ->
    by (by rewrite <- list_fmap_compose).
  assert (((λ t, (luf t, ipf t)) <$> L).*2 = ipf <$> L) as ->
    by (by rewrite <- list_fmap_compose).
  (* the gathered distinct values *)
  rewrite (allgatherv_Ok (luf <$> L)) by done. rewrite bind_Ok_l.
  assert (data (concat0 (luf <$> L)) = B) as HdataB.
  { unfold concat0, B. simpl. by rewrite <- list_fmap_compose. }
  assert (numel (shape (concat0 (luf <$> L))) = length B) as HnumelB.
  { unfold concat0, B. simpl.
    replace (numel (tail _)) with 1 by (by destruct L).
    rewrite Nat.mul_1_r, <- list_fmap_compose.
    clear. induction L as [|t l IH]; [done|].
    csimpl. rewrite length_app. by f_equal. }
  assert (B ≠ []) as HB.
  { unfold B. destruct L as [|t0 L']; [done|].
    apply Forall_cons in Hchunks as [(Hlen & _ & HnE & Hc) _].
    destruct (data t0) as [|x dt] eqn:Hd; [simpl in Hlen; lia|].
    assert (x ∈ flat_unique (data t0)) as Hx
      by (apply elem_of_flat_unique; rewrite Hd; left).
    csimpl. intros Hnil. apply app_eq_nil in Hnil as [Hnil _].
    rewrite Hnil in Hx. by apply elem_of_nil in Hx. }
  (* the gathered local inverse maps *)
  rewrite (mapM_Ok_fmap _ (λ _, ())).
  2:{ apply Forall_fmap. eapply Forall_impl; [exact Hchunks|].
      intros t (_ & Hsh & _). simpl. rewrite Hsh, length_insert.
      by rewrite decide_True. }
  rewrite bind_Ok_l.
  rewrite <- (list_fmap_compose ipf (λ ip, transpose ip 0 s)).
  change ((λ ip, transpose ip 0 s) ∘ ipf) with T.
  rewrite (allgatherv_Ok (T <$> L)).
  2:{ rewrite <- Hbal, <- list_fmap_compose. apply Forall_fmap_ext_1.
      eapply Forall_impl; [exact Hchunks|]. intros t (_ & Hsh & _). simpl.
      unfold T. rewrite lshape_transposed; [done|].
      simpl. rewrite Hsh, length_insert. done. }
  rewrite !bind_Ok_l.
  (* the second run of the primitive *)
  change (unique_axis None) with (@None Z).
  rewrite torch_unique_model_flat by (rewrite HnumelB; by destruct B).
  rewrite bind_Ok_l. cbn [fst snd]. rewrite HdataB.
  (* the loop *)
  set (buf := concat0 (T <$> L)).
  set (Xs := (λ t, data (T t)) <$> L).
  set (cs := lshape_at s <$> L).
  set (ub := lshape_at 0 <$> (luf <$> L)).
  set (ginv := inverse_of (unique_rows ((λ x, [x]) <$> B)) ((λ x, [x]) <$> B)).
  set (G := λ q x,
         default 0%Z (ginv !! Z.to_nat (x + Z.of_nat (foldr Nat.add 0 (take q ub))))).
  set (outs := imap (λ q X, G q <$> X) Xs).
  assert (data buf = mjoin Xs) as HdataX.
  { unfold buf, concat0, Xs. simpl. by rewrite <- list_fmap_compose. }
  assert (∀ t, shape t = <[s := lshape_at s t]> g →
               shape (T t) = lshape_at s t :: tail (swap_axes 0 s g)) as HshT.
  { intros t Hsh. unfold T, transpose. simpl. rewrite Hsh at 1.
    by apply swap_axes_split_first. }
  assert (Forall2 (λ X c, length X = c * E) Xs cs) as HlenX.
  { unfold Xs, cs. apply Forall2_fmap, Forall_Forall2_diag.
    eapply Forall_impl; [exact Hchunks|]. intros t (_ & Hsh & _).
    unfold T at 1. rewrite transpose_data_length. fold (T t). by rewrite HshT. }
  assert (length Xs = length L) as HlXs by (unfold Xs; by rewrite length_fmap).
  assert (length cs = length L) as Hlcs by (unfold cs; by rewrite length_fmap).
  assert (length ub = length L) as Hlub by (unfold ub; by rewrite !length_fmap).
  assert (length (data buf) = numel (shape buf)) as Hwfbuf.
  { rewrite HdataX, (length_mjoin_scaled _ _ _ HlenX).
    unfold buf, concat0. simpl.
    replace (lshape_at 0 <$> (T <$> L)) with cs.
    2:{ unfold cs. rewrite <- list_fmap_compose. apply Forall_fmap_ext_1.
        eapply Forall_impl; [exact Hchunks|]. intros t (_ & Hsh & _). simpl.
        unfold lshape_at at 2. by rewrite HshT. }
    f_equal. destruct L as [|t0 L']; [done|].
    apply Forall_cons in Hchunks as [(_ & Hsh & _) _]. simpl.
    change (swap_axes 0 s (shape t0)) with (shape (T t0)). by rewrite HshT. }
  assert (∀ i t, L !! i = Some t →
            Forall2 (λ x o, Py.getitem ginv (x + Z.of_nat (foldr Nat.add 0 (take i ub)))
                            = Ok o) (data (T t)) (G i <$> data (T t))
            ∧ Forall2 (λ v o, ∃ k, o = Z.of_nat k ∧ flat_unique B !! k = Some v)
                      (data (transpose t 0 s)) (G i <$> data (T t))) as Hchunk.
  { intros i t Hi.
    apply (chunk_indices B (flat_unique (data t))).
    - intros j v Hj. unfold B.
      replace (foldr Nat.add 0 (take i ub))
        with (length (mjoin (take i ((λ t, flat_unique (data t)) <$> L)))).
      2:{ rewrite <- sum_take_lengths. unfold ub.
          by rewrite <- !list_fmap_compose. }
      rewrite (lookup_mjoin_chunk _ i (flat_unique (data t))); [done| |].
      + by rewrite list_lookup_fmap, Hi.
      + by eapply lookup_lt_Some.
    - rewrite Forall_forall in Hchunks.
      destruct (Hchunks t ltac:(by eapply list_elem_of_lookup_2)) as (Hlen & _).
      unfold T, ipf. destruct t as [sh dt]. simpl in *.
      apply transpose_Forall2; [done|]. apply flat_inverse_local. }
  unfold flat_inverse. cbv zeta. fold g.
  rewrite (transpose_comm (transpose buf 0 s) 0 s), transpose_invol by done.
  rewrite layer_size by done. fold E. rewrite HdataX. cbn [data].
  rewrite <- Hbal. fold cs. fold ub. fold ginv.
  rewrite (update_indices_blocks _ _ _ Xs outs 0 0 0).
  2:{ unfold Xs. apply Forall_fmap. eapply Forall_impl; [exact Hchunks|].
      intros t (_ & Hsh & _ & Hc) Hnil.
      pose proof (transpose_data_length (ipf t) 0 s) as Hl.
      fold (T t) in Hl. unfold compose in Hnil. rewrite Hnil, HshT in Hl by done.
      simpl in Hl. fold E in Hl. lia. }
  2:{ by left. }
  2:{ intros i Hi. simpl.
      rewrite lookup_app_l
        by (rewrite length_drop, length_fmap; unfold running_sums;
            rewrite length_fmap, length_seq; lia).
      rewrite lookup_drop, list_lookup_fmap, running_sums_lookup by lia. simpl.
      do 2 f_equal. symmetry. apply length_mjoin_scaled.
      by apply Forall2_take. }
  2:{ intros _. rewrite lookup_app_r
        by (rewrite length_drop, length_fmap; unfold running_sums;
            rewrite length_fmap, length_seq; lia).
      rewrite length_drop, length_fmap. unfold running_sums.
      rewrite length_fmap, length_seq.
      by replace (0 + length Xs - 1 - (length cs - 1)) with 0 by lia. }
  2:{ apply Forall2_same_length_lookup_2.
      { unfold outs. by rewrite !length_imap. }
      intros i [j X] out Hi Ho. unfold outs in Ho.
      rewrite list_lookup_imap in Hi. rewrite list_lookup_imap in Ho.
      unfold Xs in Hi, Ho. rewrite list_lookup_fmap in Hi.
      rewrite list_lookup_fmap in Ho.
      destruct (L !! i) as [t|] eqn:Ht; [|done]. simpl in Hi, Ho.
      injection Hi as <- <-. injection Ho as <-.
      exists (foldr Nat.add 0 (take i ub)). split.
      - apply running_sums_lookup. apply lookup_lt_Some in Ht. lia.
      - by apply Hchunk. }
  rewrite bind_Ok_l. rewrite bind_Ok_l.
  eexists _, _, _. split; [reflexivity|].
  set (Vs := (λ t, data (transpose t 0 s)) <$> L).
  assert (global_tensor a = transpose (Tensor (shape buf) (mjoin Vs)) 0 s) as ->.
  { unfold global_tensor. rewrite Hs. fold L. f_equal.
    unfold buf, concat0 at 1. f_equal.
    - change (shape (concat0 ((λ t, transpose t s 0) <$> L)) = shape (concat0 (T <$> L))).
      apply concat0_shape. intros t. cbv beta. by rewrite (transpose_comm t s 0).
    - unfold Vs. rewrite <- list_fmap_compose. f_equal. apply list_fmap_ext.
      intros i t _. unfold compose. by rewrite (transpose_comm t s 0). }
  split; [done|].
  assert (global_tensor
            (factories_array
               (replicate (comm_size a)
                  (Tensor [length (unique_rows ((λ x, [x]) <$> B))] (flat_unique B)))
               None)
          = Tensor [length (unique_rows ((λ x, [x]) <$> B))] (flat_unique B)) as ->.
  { unfold global_tensor, comm_size. fold L. simpl. by destruct L. }
  cbn [data].
  assert (Forall2 (Forall2 (λ v o, ∃ k, o = Z.of_nat k ∧ flat_unique B !! k = Some v))
                  Vs outs) as HVo.
  { apply Forall2_same_length_lookup_2.
    { unfold Vs, outs. by rewrite length_imap, length_fmap. }
    intros i V out Hi Ho. unfold outs in Ho. rewrite list_lookup_imap in Ho.
    unfold Vs in Hi. unfold Xs in Ho.
    rewrite list_lookup_fmap in Hi. rewrite list_lookup_fmap in Ho.
    destruct (L !! i) as [t|] eqn:Ht; [|done]. simpl in Hi, Ho.
    injection Hi as <-. injection Ho as <-. by apply Hchunk. }
  apply transpose_Forall2; [|by apply Forall2_mjoin].
  rewrite <- Hwfbuf, HdataX. apply mjoin_lengths_eq.
  unfold Vs, Xs. apply Forall2_fmap, Forall_Forall2_diag, Forall_forall.
  intros t _. unfold T. by rewrite !transpose_data_length.
Qed.

(** [two_by_four] holds 1, 1, 2, 3 on rank 0 and 5, 6, 6, 6 on rank 1. *)
Lemma unique_flat_inverse_witness :
  ∃ d inv calls,
    unique torch_unique_model two_by_four true true None
    = Ok (HandleAndInverse d inv, calls)
    ∧ shape inv = shape (global_tensor two_by_four)
    ∧ Forall2 (λ v i, ∃ k, i = Z.of_nat k ∧ data (global_tensor d) !! k = Some v)
              (data (global_tensor two_by_four)) (data inv).
Proof.
  apply (unique_flat_inverse two_by_four 0 true).
  - apply wf_row_array. repeat constructor.
  - reflexivity.
  - simpl. lia.
  - reflexivity.
  - repeat constructor; vm_compute; lia.
  - discriminate.
Defined.
